(** * Retrosheet play-descriptor parser: a shallow embedding

    The functions of [retrosheetParser.py] that split a play descriptor,
    classify its sub-events and reconcile outs, advances and runs are
    embedded as Rocq functions, together with the fragment of Python's
    [re] and [str] that they call.

    - A Python string is a [string] of 8-bit characters (Retrosheet files
      are ASCII); a one-character string such as [i[0]] stays a string.
    - A Python exception is a value [Raise e] of the type [result].
    - A Python [set] is a [gset string] and a [dict] a [gmap string string].
      Python fixes no order for [list(X)] of a set [X]: the functions that
      list a set take the listing as a parameter [list_of_set], and what
      is proved of them holds for every listing.
    - The table of plays is its columns; [enhancePlays] adds one column
      after the other, and fails when a function fails on a row. *)

From stdpp Require Import gmap strings list fin_maps sets.
From Stdlib Require Import Ascii Arith ZArith Lia.

Local Open Scope char_scope.
Local Open Scope stdpp_scope.

(** ** Python exceptions *)

Inductive exn : Type :=
| SyntaxError        (* [raise Exception("Syntax error")] *)
| ValueError
| IndexError
| UnboundLocalError.

Inductive result (A : Type) : Type :=
| Ok (a : A)
| Raise (e : exn).
Arguments Ok {A} a.
Arguments Raise {A} e.

Global Instance result_ret : MRet result := fun A a => Ok a.
Global Instance result_bind : MBind result := fun A B k m =>
  match m with
  | Ok a => k a
  | Raise e => Raise e
  end.

(** ** The fragment of Python's [re] used by the parser *)

Module Re.

(** Patterns.  Every repetition in the source ([[1-9]+], [.*], [[1-9]*])
    is over a single character class, so repetition is [Many] of a class.
    Results are produced in the order in which a backtracking matcher
    tries them: the left alternative first, the longest repetition first. *)
Inductive regex : Type :=
| Eps
| Bol                         (* ^ *)
| Eol                         (* $ : at the end, or before a final newline *)
| Sym (p : ascii -> bool)     (* one character of a class *)
| Many (p : ascii -> bool)    (* [class]*, greedy *)
| Seq (r1 r2 : regex)
| Alt (r1 r2 : regex)
| Grp (r : regex).            (* ( ... ), recorded as the group's text *)

(** Character classes. *)
Definition chr (c : ascii) : ascii -> bool := Ascii.eqb c.
Definition rng (lo hi : ascii) : ascii -> bool :=
  fun c => Nat.leb (nat_of_ascii lo) (nat_of_ascii c) && Nat.leb (nat_of_ascii c) (nat_of_ascii hi).
Definition cor (p q : ascii -> bool) : ascii -> bool := fun c => p c || q c.
Definition cnot (p : ascii -> bool) : ascii -> bool := fun c => negb (p c).
Definition newline : ascii := "010".
Definition dot : ascii -> bool := cnot (chr newline).

Definition Chr (c : ascii) : regex := Sym (chr c).
Definition Opt (r : regex) : regex := Alt r Eps.
Definition Many1 (p : ascii -> bool) : regex := Seq (Sym p) (Many p).

(** A concatenation of patterns. *)
Fixpoint Cat (rs : list regex) : regex :=
  match rs with
  | [] => Eps
  | [r] => r
  | r :: rs' => Seq r (Cat rs')
  end.

(** A literal word. *)
Fixpoint Lit (w : string) : regex :=
  match w with
  | EmptyString => Eps
  | String c EmptyString => Chr c
  | String c w' => Seq (Chr c) (Lit w')
  end.

(** Matcher state: whether the position is the start of the subject, the
    text of the last closed group, and the text still to be read. *)
Record mstate : Type := MState { at_bol : bool; grp1 : option string; rest : string }.

Fixpoint many_from (p : ascii -> bool) (g : option string) (s : string) : list mstate :=
  match s with
  | EmptyString => [MState false g s]
  | String c s' => (if p c then many_from p g s' else []) ++ [MState false g s]
  end.

Definition taken (s s' : string) : string :=
  String.substring 0 (String.length s - String.length s') s.

Fixpoint run (r : regex) (st : mstate) : list mstate :=
  match r with
  | Eps => [st]
  | Bol => if at_bol st then [st] else []
  | Eol => match rest st with
           | EmptyString => [st]
           | String c EmptyString => if Ascii.eqb c newline then [st] else []
           | _ => []
           end
  | Sym p => match rest st with
             | String c s' => if p c then [MState false (grp1 st) s'] else []
             | EmptyString => []
             end
  | Many p => match rest st with
              | String c s' => (if p c then many_from p (grp1 st) s' else []) ++ [st]
              | EmptyString => [st]
              end
  | Seq r1 r2 => flat_map (run r2) (run r1 st)
  | Alt r1 r2 => run r1 st ++ run r2 st
  | Grp r1 => map (fun st' => MState (at_bol st') (Some (taken (rest st) (rest st'))) (rest st'))
                  (run r1 st)
  end.

(** The first way to match [r] at the front of [s], if any. *)
Definition match_at (r : regex) (bol : bool) (s : string) : option mstate :=
  head (run r (MState bol None s)).

(** [re.match(r, s) is not None] *)
Definition is_match (r : regex) (s : string) : bool :=
  match match_at r true s with Some _ => true | None => false end.

(** [re.search(r, s) is not None] *)
Fixpoint search_from (r : regex) (bol : bool) (s : string) : bool :=
  match match_at r bol s with
  | Some _ => true
  | None => match s with
            | EmptyString => false
            | String _ s' => search_from r false s'
            end
  end.
Definition is_search (r : regex) (s : string) : bool := search_from r true s.

(** One item of a left-to-right scan for non-overlapping matches: the whole
    match and the text of its group ([None] when the group took no part). *)
Definition found : Type := (string * option string)%type.

(** The scan shared by [findall], [sub] and [split]: the text is tried
    position by position; after a match, its remaining [skip] characters
    are passed over.  An empty match is followed by a step of one
    character; every pattern that the parser scans with matches at least
    one character, so this case does not arise in it. *)
Fixpoint finditer_from (r : regex) (bol : bool) (skip : nat) (s : string) : list found :=
  match skip with
  | S k => match s with
           | String _ s' => finditer_from r false k s'
           | EmptyString => []
           end
  | O => match match_at r bol s with
         | Some st =>
             let m := taken s (rest st) in
             (m, grp1 st) :: match s with
                             | String _ s' => finditer_from r false (String.length m - 1) s'
                             | EmptyString => []
                             end
         | None => match s with
                   | String _ s' => finditer_from r false 0 s'
                   | EmptyString => []
                   end
         end
  end.

(** [re.findall(r, s)] for a pattern without a group: the matches. *)
Definition findall (r : regex) (s : string) : list string :=
  map fst (finditer_from r true 0 s).

(** [re.findall(r, s)] for a pattern with one group: the group's text for
    each match, the empty string where the group took no part. *)
Definition findall_group (r : regex) (s : string) : list string :=
  map (fun f => default "" (snd f)) (finditer_from r true 0 s).

(** [re.sub(r, repl, s)] *)
Fixpoint sub_from (r : regex) (repl : string) (bol : bool) (skip : nat) (s : string) : string :=
  match skip with
  | S k => match s with
           | String _ s' => sub_from r repl false k s'
           | EmptyString => ""
           end
  | O => match match_at r bol s with
         | Some st =>
             let n := String.length s - String.length (rest st) in
             repl +:+ match s with
                      | String c s' =>
                          if Nat.eqb n 0 then String c (sub_from r repl false 0 s')
                          else sub_from r repl false (n - 1) s'
                      | EmptyString => ""
                      end
         | None => match s with
                   | String c s' => String c (sub_from r repl false 0 s')
                   | EmptyString => ""
                   end
         end
  end.
Definition sub (r : regex) (repl : string) (s : string) : string := sub_from r repl true 0 s.

(** [re.split(r, s)] for a pattern without a group; [cur] is the piece
    being collected. *)
Fixpoint split_from (r : regex) (bol : bool) (skip : nat) (cur s : string) : list string :=
  match skip with
  | S k => match s with
           | String _ s' => split_from r false k cur s'
           | EmptyString => [cur]
           end
  | O => match match_at r bol s with
         | Some st =>
             let n := String.length s - String.length (rest st) in
             cur :: match s with
                    | String c s' =>
                        if Nat.eqb n 0 then split_from r false 0 (String c "") s'
                        else split_from r false (n - 1) "" s'
                    | EmptyString => [""]
                    end
         | None => match s with
                   | String c s' => split_from r false 0 (cur +:+ String c "") s'
                   | EmptyString => [cur]
                   end
         end
  end.
Definition split (r : regex) (s : string) : list string := split_from r true 0 "" s.

End Re.

Import Re.

(** ** The fragment of Python's [str] and [list] used by the parser *)

Fixpoint in_chars (chars : string) (c : ascii) : bool :=
  match chars with
  | EmptyString => false
  | String d chars' => Ascii.eqb c d || in_chars chars' c
  end.

Fixpoint lstrip (chars s : string) : string :=
  match s with
  | EmptyString => ""
  | String c s' => if in_chars chars c then lstrip chars s' else s
  end.

Fixpoint rstrip (chars s : string) : string :=
  match s with
  | EmptyString => ""
  | String c s' =>
      match rstrip chars s' with
      | EmptyString => if in_chars chars c then "" else String c ""
      | t => String c t
      end
  end.

(** [s.strip(chars)] *)
Definition strip (chars s : string) : string := rstrip chars (lstrip chars s).

(** [s[i:j]] for [0 <= i] and [0 <= j] *)
Definition slice (s : string) (i j : nat) : string := String.substring i (j - i) s.

(** [s[i]] for [0 <= i] *)
Definition char_at (s : string) (i : nat) : result string :=
  match String.get i s with
  | Some c => Ok (String c "")
  | None => Raise IndexError
  end.

(** [l[0]] and [l[-1]] *)
Definition first {A} (l : list A) : result A :=
  match l with
  | x :: _ => Ok x
  | [] => Raise IndexError
  end.
Definition final {A} (l : list A) : result A :=
  match last l with
  | Some x => Ok x
  | None => Raise IndexError
  end.

(** [zip(l, l[1:])] *)
Definition pairs_of (l : list nat) : list (nat * nat) := zip l (tail l).

(** ** Splitting on separators and on closed parentheses *)

(** The default separators [\/|\.] and the separator [\+]. *)
Definition slash_or_dot : regex := Alt (Chr "/") (Chr ".").
Definition plus_sign : regex := Chr "+".

(** [(^(separators))|((separators)$)] *)
Definition at_either_end (separators : regex) : regex :=
  Alt (Grp (Seq Bol (Grp separators))) (Grp (Seq (Grp separators) Eol)).

(** The loop of [split_sep_rspct_paren] from index [i] on, with the
    counter [nb_brackets] and the list [l] of split points. *)
Fixpoint sep_loop (separators : regex) (i : nat) (nb_brackets : Z) (l : list nat)
    (s : string) : result (Z * list nat) :=
  match s with
  | EmptyString => Ok (nb_brackets, l)
  | String c s' =>
      let '(nb, l') :=
        if Ascii.eqb c "(" then ((nb_brackets + 1)%Z, l)
        else if Ascii.eqb c ")" then ((nb_brackets - 1)%Z, l)
        else if is_match separators (String c "") && (nb_brackets =? 0)%Z
             then (nb_brackets, l ++ [i])
        else (nb_brackets, l) in
      if (nb <? 0)%Z then Raise SyntaxError
      else sep_loop separators (S i) nb l' s'
  end.

Definition split_sep_rspct_paren (sentence : string) (separators : regex)
    : result (list string) :=
  let sentence := sub (at_either_end separators) "" sentence in
  '(nb_brackets, l) ← sep_loop separators 0 0%Z [0] sentence;
  let l := l ++ [String.length sentence] in
  if (0 <? nb_brackets)%Z then Raise SyntaxError
  else Ok (map (fun '(i, j) => slice sentence i j) (pairs_of l)).

(** The loop of [_event_splitter]. *)
Fixpoint event_loop (i : nat) (nb_brackets : Z) (prev_char_right_par : bool)
    (l : list nat) (s : string) : result (Z * list nat) :=
  match s with
  | EmptyString => Ok (nb_brackets, l)
  | String c s' =>
      let '(nb, l') :=
        if Ascii.eqb c "(" then ((nb_brackets + 1)%Z, l)
        else if Ascii.eqb c ")" then ((nb_brackets - 1)%Z, l)
        else if prev_char_right_par && (nb_brackets =? 0)%Z
             then (nb_brackets, l ++ [i])
        else (nb_brackets, l) in
      let prev := Ascii.eqb c ")" in
      if (nb <? 0)%Z then Raise SyntaxError
      else event_loop (S i) nb prev l' s'
  end.

Definition _event_splitter (sentence : string) : result (list string) :=
  '(nb_brackets, l) ← event_loop 0 0%Z false [0] sentence;
  let l := l ++ [String.length sentence] in
  if (0 <? nb_brackets)%Z then Raise SyntaxError
  else Ok (map (fun '(i, j) => slice sentence i j) (pairs_of l)).

Definition _subevent_splitter (event : string) : result (list string) :=
  splits ← split_sep_rspct_paren event plus_sign;
  pieces ← mapM _event_splitter splits;
  Ok (map (strip "+") (concat pieces)).

(** The dictionary returned by [_playSplitter]. *)
Module PlaySplit.
Record t : Type := Make { event : string; mods : list string; advs : list string }.
End PlaySplit.

Definition _playSplitter (play : string) : result PlaySplit.t :=
  l ← split_sep_rspct_paren play slash_or_dot;
  event ← first l;
  lst ← final l;
  let '(advs, mods) :=
    if is_match (Chr ".") lst
    then (split (Chr ";") (strip "." lst), removelast (tail l))
    else ([], tail l) in
  let mods := map (sub (Seq Bol (Chr "/")) "") mods in
  Ok (PlaySplit.Make event mods advs).

(** ** Classification of one sub-event *)

(** The dictionary returned by [_subeventParser]. *)
Module Subevent.
Record t : Type := Make {
  basicPlay : string;
  playersOut : list string;
  implicitAdvances : list string }.
End Subevent.

Definition digit19 : ascii -> bool := rng "1" "9".          (* [1-9] *)
Definition digit09 : ascii -> bool := rng "0" "9".          (* [0-9] *)
Definition base13 : ascii -> bool := rng "1" "3".           (* [1-3] *)
Definition base13B : ascii -> bool := cor (rng "1" "3") (chr "B").   (* [1-3B] *)
Definition base13H : ascii -> bool := cor (rng "1" "3") (chr "H").   (* [1-3H] *)
Definition base23H : ascii -> bool := cor (rng "2" "3") (chr "H").   (* [2-3H] *)

(** [\([1-3B]\)] *)
Definition re_paren_base : regex := Cat [Chr "("; Sym base13B; Chr ")"].
(** [[1-9]+(\([1-3B]\))?$] *)
Definition re_out : regex := Cat [Many1 digit19; Opt (Grp re_paren_base); Eol].
(** [[1-9]+(\([1-3B]\))?.*E[1-9]] *)
Definition re_fielding_error : regex :=
  Cat [Many1 digit19; Opt (Grp re_paren_base); Many dot; Chr "E"; Sym digit19].
(** [\(|\)] *)
Definition re_paren : regex := Alt (Chr "(") (Chr ")").
(** [H[^P]] *)
Definition re_home_run : regex := Cat [Chr "H"; Sym (cnot (chr "P"))].
(** [S[1-9]*$], [D[1-9]*$], [T[1-9]*$] *)
Definition re_hit (letter : ascii) : regex := Cat [Chr letter; Many digit19; Eol].
(** [CS[2-3H]] *)
Definition re_cs : regex := Cat [Lit "CS"; Sym base23H].
(** [SB(2|3|H)?] *)
Definition re_sb : regex := Cat [Lit "SB"; Opt (Grp (Alt (Alt (Chr "2") (Chr "3")) (Chr "H")))].
(** [E[0-9]] and [E[1-9]] *)
Definition re_e09 : regex := Cat [Chr "E"; Sym digit09].
Definition re_e19 : regex := Cat [Chr "E"; Sym digit19].
(** [(\([1-9]*E[1-9])?] *)
Definition re_opt_error : regex := Opt (Grp (Cat [Chr "("; Many digit19; Chr "E"; Sym digit19])).
(** [PO[1-3]] and [PO[1-3](\([1-9]*E[1-9])?] *)
Definition re_po : regex := Cat [Lit "PO"; Sym base13].
Definition re_po_error : regex := Cat [Lit "PO"; Sym base13; re_opt_error].
(** [POCS[2-3H]] and [POCS[2-3H](\([1-9]*E[1-9])?] *)
Definition re_pocs : regex := Cat [Lit "POCS"; Sym base23H].
Definition re_pocs_error : regex := Cat [Lit "POCS"; Sym base23H; re_opt_error].

(** The chain [if bbs == 'H': br = '3' elif bbs == '3': br = '2' elif
    bbs == '2': br = '1'], which leaves [br] as it was otherwise. *)
Definition preceding_base (bbs : string) (br : option string) : option string :=
  if String.eqb bbs "H" then Some "3"
  else if String.eqb bbs "3" then Some "2"
  else if String.eqb bbs "2" then Some "1"
  else br.

(** [playersOut.append(br)]: [br] must have been assigned. *)
Definition append_br (br : option string) (playersOut : list string) : result (list string) :=
  match br with
  | Some b => Ok (playersOut ++ [b])
  | None => Raise UnboundLocalError
  end.

(** [for r in re.findall('CS[2-3H]',s): ...] *)
Fixpoint cs_loop (rs : list string) (br : option string) (playersOut : list string)
    : result (option string * list string) :=
  match rs with
  | [] => Ok (br, playersOut)
  | r :: rs' =>
      let bbs := strip "CS" r in
      let br := preceding_base bbs br in
      playersOut ← append_br br playersOut;
      cs_loop rs' br playersOut
  end.

(** [for r in re.findall('PO[1-3](...)?',s): ...] *)
Fixpoint po_loop (rs : list string) (p : string) (playersOut : list string)
    : string * list string :=
  match rs with
  | [] => (p, playersOut)
  | r :: rs' =>
      if is_search re_e19 r
      then po_loop rs' "Picked Off Base - Error" playersOut
      else let br := sub (Lit "PO") "" r in
           po_loop rs' p (playersOut ++ [br])
  end.

(** The inner loop [for r in re.findall('POCS[2-3H]',s): ...] *)
Fixpoint pocs_inner (rs : list string) (br : option string) (playersOut : list string)
    : result (option string * list string) :=
  match rs with
  | [] => Ok (br, playersOut)
  | r :: rs' =>
      bbs ← char_at (strip "POCS" r) 0;
      let br := preceding_base bbs br in
      playersOut ← append_br br playersOut;
      pocs_inner rs' br playersOut
  end.

(** [for r in re.findall('POCS[2-3H](...)?',s): ...] *)
Fixpoint pocs_loop (s : string) (rs : list string) (p : string) (br : option string)
    (playersOut : list string) : result (string * list string) :=
  match rs with
  | [] => Ok (p, playersOut)
  | r :: rs' =>
      if is_search re_e19 r
      then pocs_loop s rs' "Picked Off Base Caught Stealing - Error" br playersOut
      else '(br, playersOut) ← pocs_inner (findall re_pocs s) br playersOut;
           pocs_loop s rs' p br playersOut
  end.

Definition _subeventParser (s : string) : result Subevent.t :=
  if is_match re_out s then
    let pOut := map (sub re_paren "") (findall re_paren_base s) in
    match pOut with
    | [] => Ok (Subevent.Make "Out" ["B"] [])
    | b :: _ => if String.eqb b "B" then Ok (Subevent.Make "Out" ["B"] [])
                else Ok (Subevent.Make "Out" [b] [])
    end
  else if is_match re_fielding_error s then Ok (Subevent.Make "Error" [] [])
  else if is_match (Lit "FC") s then Ok (Subevent.Make "Fielder's Choice" [] ["B-1"])
  else if is_match (Cat [Chr "C"; Eol]) s then Ok (Subevent.Make "Interference" [] ["B-1"])
  else if is_match (Lit "NP") s then Ok (Subevent.Make "No Play" [] [])
  else if is_match (Chr "K") s then Ok (Subevent.Make "Strikeout" ["B"] [])
  else if is_match re_home_run s then Ok (Subevent.Make "Hit - Home Run" [] ["B-H"])
  else if is_match (Lit "HP") s then Ok (Subevent.Make "Hit by Pitch" [] ["B-1"])
  else if is_match (re_hit "S") s then Ok (Subevent.Make "Hit - Single" [] ["B-1"])
  else if is_match (re_hit "D") s then Ok (Subevent.Make "Hit - Double" [] ["B-2"])
  else if is_match (Lit "DGR") s then Ok (Subevent.Make "Hit - Ground Rule Double" [] ["B-2"])
  else if is_match (re_hit "T") s then Ok (Subevent.Make "Hit - Triple" [] ["B-3"])
  else if is_match re_cs s then
    '(_, playersOut) ← cs_loop (findall re_cs s) None [];
    Ok (Subevent.Make "Runner Caught Stealing" playersOut [])
  else if is_match (Lit "WP") s then Ok (Subevent.Make "Wild Pitch" [] [])
  else if is_match (Cat [Chr "W"; Eol]) s then Ok (Subevent.Make "Walk" [] ["B-1"])
  else if is_match (Lit "IW") s then Ok (Subevent.Make "Intentional Walk" [] ["B-1"])
  else if is_match (Lit "PB") s then Ok (Subevent.Make "Passed Ball" [] [])
  else if is_match re_sb s then Ok (Subevent.Make "Stolen Base" [] [])
  else if is_match re_e09 s then Ok (Subevent.Make "Error" [] [])
  else if is_match (Lit "DI") s then Ok (Subevent.Make "Defensive Indifference" [] [])
  else if is_match re_po s then
    let '(p, playersOut) := po_loop (findall_group re_po_error s) "Picked Off Base" [] in
    Ok (Subevent.Make p playersOut [])
  else if is_match re_pocs s then
    '(p, playersOut) ← pocs_loop s (findall_group re_pocs_error s)
                          "Picked Off Base Caught Stealing" None [];
    Ok (Subevent.Make p playersOut [])
  else if is_match (Lit "BK") s then Ok (Subevent.Make "Balk" [] [])
  else if is_match (Lit "OA") s then Ok (Subevent.Make "Other Baserunner Advance" [] [])
  else if is_match (Lit "FLE") s then Ok (Subevent.Make "Error on Foul Flyball" [] [])
  else Ok (Subevent.Make "" [] []).

(** ** Descriptions, outs, advances and runs of a play *)

(** [sum([int(i['basicPlay'] == 'Out') for i in subevents])] *)
Definition count_outs (subevents : list Subevent.t) : nat :=
  sum_list (map (fun i => if String.eqb (Subevent.basicPlay i) "Out" then 1 else 0) subevents).

(** The chain on [nOuts]; no branch assigns the description past three. *)
Definition out_desc (nOuts : nat) : result string :=
  match nOuts with
  | 1 => Ok "Out"
  | 2 => Ok "Double Play"
  | 3 => Ok "Triple Play"
  | _ => Raise UnboundLocalError
  end.

Definition basicPlayDesc (subevents : list Subevent.t) : result string :=
  match subevents with
  | [] => Raise ValueError
  | [e] => Ok (Subevent.basicPlay e)
  | e :: _ =>
      if String.eqb (Subevent.basicPlay e) "Out" then out_desc (count_outs subevents)
      else Ok (Subevent.basicPlay e)
  end.

(** [sep.join(l)] *)
Fixpoint join (sep : string) (l : list string) : string :=
  match l with
  | [] => ""
  | [x] => x
  | x :: l' => x +:+ sep +:+ join sep l'
  end.

Definition fullPlayDesc (subevents : list Subevent.t) : result string :=
  match subevents with
  | [] => Raise ValueError
  | [e] => Ok (Subevent.basicPlay e)
  | e :: _ =>
      if String.eqb (Subevent.basicPlay e) "Out" then out_desc (count_outs subevents)
      else Ok (join " - " (map Subevent.basicPlay subevents))
  end.

(** [[1-3B]X.*E], [[1-3B]X] and [[1-3B]-] *)
Definition re_out_attempt_error : regex := Cat [Sym base13B; Chr "X"; Many dot; Chr "E"].
Definition re_out_attempt : regex := Cat [Sym base13B; Chr "X"].
Definition re_safe : regex := Cat [Sym base13B; Chr "-"].
(** [[1-3B]X[1-3H].*E] and [[1-3B]-[1-3H]] *)
Definition re_adv_error : regex := Cat [Sym base13B; Chr "X"; Sym base13H; Many dot; Chr "E"].
Definition re_adv : regex := Cat [Sym base13B; Chr "-"; Sym base13H].

(** The loop of [playersOut] over the advance tokens. *)
Fixpoint outs_loop (advs advNotOut advOuts : list string)
    : result (list string * list string) :=
  match advs with
  | [] => Ok (advNotOut, advOuts)
  | i :: advs' =>
      if is_match re_out_attempt_error i then
        b ← char_at i 0; outs_loop advs' (advNotOut ++ [b]) advOuts
      else if is_match re_out_attempt i then
        b ← char_at i 0; outs_loop advs' advNotOut (advOuts ++ [b])
      else if is_match re_safe i then
        b ← char_at i 0; outs_loop advs' (advNotOut ++ [b]) advOuts
      else outs_loop advs' advNotOut advOuts
  end.

(** The loop of [playerAdvances] over the advance tokens. *)
Fixpoint advs_loop (advs advsNotOut : list string) : list string :=
  match advs with
  | [] => advsNotOut
  | i :: advs' =>
      if is_match re_adv_error i then advs_loop advs' (advsNotOut ++ [slice i 0 3])
      else if is_match re_adv i then advs_loop advs' (advsNotOut ++ [slice i 0 3])
      else advs_loop advs' advsNotOut
  end.

(** [[i for i in implicitAdvances for j in advs if i[0] == j[0]]] *)
Fixpoint same_base (i : string) (advs : list string) : result (list string) :=
  match advs with
  | [] => Ok []
  | j :: advs' =>
      a ← char_at i 0;
      b ← char_at j 0;
      l ← same_base i advs';
      Ok (if String.eqb a b then i :: l else l)
  end.
Fixpoint mentioned (implicitAdvances advs : list string) : result (list string) :=
  match implicitAdvances with
  | [] => Ok []
  | i :: rest =>
      l1 ← same_base i advs;
      l2 ← mentioned rest advs;
      Ok (l1 ++ l2)
  end.

(** [{i[0]:i[2] for i in finalAdvs}], continuing from the dict [d]. *)
Fixpoint advances_dict (finalAdvs : list string) (d : gmap string string)
    : result (gmap string string) :=
  match finalAdvs with
  | [] => Ok d
  | i :: l =>
      k ← char_at i 0;
      v ← char_at i 2;
      advances_dict l (<[k := v]> d)
  end.

(** [sum([i == 'H' for i in playerAdvances.values()])] *)
Definition runsScored (playerAdvances : gmap string string) : nat :=
  sum_list (map (fun kv => if String.eqb (snd kv) "H" then 1 else 0)
                (map_to_list playerAdvances)).

(** A row of the plays table, and the table with the columns added by
    [enhancePlays]; a table is its columns, all of one length. *)
Module Play.
Record t : Type := Make { Type_ : string; Play : string }.
End Play.

Module Frame.
Record t : Type := Make {
  plays : list Play.t;
  playSplit : list PlaySplit.t;
  subevents : list (list string);
  subeventParsed : list (list Subevent.t);
  basicPlayDesc : list string;
  fullPlayDesc : list string;
  playersOut : list (list string);
  outsOnPlay : list nat;
  playerAdvances : list (gmap string string);
  runsScored : list nat }.
End Frame.

Section Aggregator.

(** [list(X)] for a set [X]: Python fixes no order, so the listing is a
    parameter; all that is known is that it lists the set. *)
Variable list_of_set : gset string -> list string.
Hypothesis list_of_set_perm : forall X, list_of_set X ≡ₚ elements X.

Definition playersOut (playSplit : PlaySplit.t) (subeventsParsed : list Subevent.t)
    : result (list string) :=
  let subeventsOuts := flat_map Subevent.playersOut subeventsParsed in
  '(advNotOut, advOuts) ← outs_loop (PlaySplit.advs playSplit) [] [];
  Ok (list_of_set
        ((∅ ∪ list_to_set advOuts ∪ list_to_set subeventsOuts) ∖ list_to_set advNotOut)).

Definition playerAdvances (playSplit : PlaySplit.t) (subeventsParsed : list Subevent.t)
    : result (gmap string string) :=
  let implicitAdvances := flat_map Subevent.implicitAdvances subeventsParsed in
  let advs := PlaySplit.advs playSplit in
  let advsNotOut := advs_loop advs [] in
  l ← mentioned implicitAdvances advs;
  let ria := list_of_set (list_to_set l) in
  let finalAdvs :=
    list_of_set (list_to_set (advsNotOut ++ implicitAdvances) ∖ list_to_set ria) in
  advances_dict finalAdvs ∅.

(** Each [assign] computes one column for all rows before the next.  The
    exception kept is that of the first failing row of the first failing
    column; nothing below depends on which one it is: pandas may surface
    another exception in its place.  Two more things are not told here:
    pandas raises on a table without a row of type [play], where this
    gives the table without rows, and one listing of sets serves all the
    rows, where Python may list equal sets of two rows in two orders.
    What is proved of [enhancePlays] is proved of the rows of a returned
    table, each row by itself, and depends on neither. *)
Definition enhancePlays (plays : list Play.t) : result Frame.t :=
  let rows := filter (fun r => Play.Type_ r = "play") plays in
  c_playSplit ← mapM (fun r => _playSplitter (Play.Play r)) rows;
  c_subevents ← mapM (fun z => _subevent_splitter (PlaySplit.event z)) c_playSplit;
  c_subeventParsed ← mapM (mapM _subeventParser) c_subevents;
  c_basicPlayDesc ← mapM basicPlayDesc c_subeventParsed;
  c_fullPlayDesc ← mapM fullPlayDesc c_subeventParsed;
  c_playersOut ← mapM (fun z => playersOut z.1 z.2) (zip c_playSplit c_subeventParsed);
  let c_outsOnPlay := map length c_playersOut in
  c_playerAdvances ← mapM (fun z => playerAdvances z.1 z.2) (zip c_playSplit c_subeventParsed);
  let c_runsScored := map runsScored c_playerAdvances in
  Ok (Frame.Make rows c_playSplit c_subevents c_subeventParsed c_basicPlayDesc
        c_fullPlayDesc c_playersOut c_outsOnPlay c_playerAdvances c_runsScored).

End Aggregator.

(** ** Notions used to state the properties *)

(** The guards of the chain of [_subeventParser], in its order. *)
Definition rules : list regex :=
  [re_out; re_fielding_error; Lit "FC"; Cat [Chr "C"; Eol]; Lit "NP"; Chr "K";
   re_home_run; Lit "HP"; re_hit "S"; re_hit "D"; Lit "DGR"; re_hit "T"; re_cs;
   Lit "WP"; Cat [Chr "W"; Eol]; Lit "IW"; Lit "PB"; re_sb; re_e09; Lit "DI";
   re_po; re_pocs; Lit "BK"; Lit "OA"; Lit "FLE"].

Definition no_rule_matches (s : string) : Prop :=
  Forall (fun r => is_match r s = false) rules.

Definition unclassified : Subevent.t := Subevent.Make "" [] [].

(** All characters of [s] are in the class [p]. *)
Fixpoint all_in (p : ascii -> bool) (s : string) : bool :=
  match s with
  | EmptyString => true
  | String c s' => p c && all_in p s'
  end.

(** An [E] among the characters of [s] that come before its first line
    break: what [.*E] finds. *)
Fixpoint has_error_mark (s : string) : bool :=
  match s with
  | EmptyString => false
  | String c s' =>
      if Ascii.eqb c newline then false else Ascii.eqb c "E" || has_error_mark s'
  end.

(** The advance tokens that name the base [b] (a one-character string):
    an out attempt [<b>X...] with or without an error mark, and a
    successful advance [<b>-...]. *)
Definition out_attempt_with_error (t b : string) : Prop :=
  exists c tl, t = String c (String "X" tl) /\ base13B c = true /\
               has_error_mark tl = true /\ b = String c "".
Definition out_attempt_without_error (t b : string) : Prop :=
  exists c tl, t = String c (String "X" tl) /\ base13B c = true /\
               has_error_mark tl = false /\ b = String c "".
Definition successful_advance (t b : string) : Prop :=
  exists c tl, t = String c (String "-" tl) /\ base13B c = true /\ b = String c "".
Definition exempts (t b : string) : Prop :=
  out_attempt_with_error t b \/ successful_advance t b.

(** The branch of the loop of [playersOut] that a token takes, and what
    the token says of a base. *)
Inductive token_case (t : string) : Prop :=
| token_error c :
    is_match re_out_attempt_error t = true -> char_at t 0 = Ok c ->
    (forall b, exempts t b <-> b = c) ->
    (forall b, ~ out_attempt_without_error t b) -> token_case t
| token_out c :
    is_match re_out_attempt_error t = false -> is_match re_out_attempt t = true ->
    char_at t 0 = Ok c ->
    (forall b, ~ exempts t b) ->
    (forall b, out_attempt_without_error t b <-> b = c) -> token_case t
| token_safe c :
    is_match re_out_attempt_error t = false -> is_match re_out_attempt t = false ->
    is_match re_safe t = true -> char_at t 0 = Ok c ->
    (forall b, exempts t b <-> b = c) ->
    (forall b, ~ out_attempt_without_error t b) -> token_case t
| token_other :
    is_match re_out_attempt_error t = false -> is_match re_out_attempt t = false ->
    is_match re_safe t = false ->
    (forall b, ~ exempts t b) ->
    (forall b, ~ out_attempt_without_error t b) -> token_case t.

(** The first sub-event is an Out. *)
Definition starts_with_out (subs : list Subevent.t) : Prop :=
  Subevent.basicPlay <$> head subs = Some "Out".

(** The statement on double plays, for a listing of sets, a split play
    and its parsed sub-events: two Outs, the first sub-event among them,
    give the description Double Play and two players out. *)
Definition two_outs_statement (listing : gset string -> list string)
    (ps : PlaySplit.t) (subs : list Subevent.t) : Prop :=
  starts_with_out subs -> count_outs subs = 2 ->
  basicPlayDesc subs = Ok "Double Play" /\
  exists outs, playersOut listing ps subs = Ok outs /\ length outs = 2.

(** A three-character advance: a starting base, a mark, a destination. *)
Definition advance3 (a : string) : Prop :=
  exists c mark d, a = String c (String mark (String d "")) /\
                   base13B c = true /\ base13H d = true.

(** Parenthesis depth: the change made by one character, the depth after
    a text, and whether a counter started at [nb] goes below zero while the
    text is read. *)
Definition paren_step (c : ascii) : Z :=
  if Ascii.eqb c "(" then 1%Z else if Ascii.eqb c ")" then (-1)%Z else 0%Z.

Fixpoint depth (s : string) : Z :=
  match s with
  | EmptyString => 0%Z
  | String c s' => (paren_step c + depth s')%Z
  end.

Fixpoint goes_negative (nb : Z) (s : string) : bool :=
  match s with
  | EmptyString => false
  | String c s' => (nb + paren_step c <? 0)%Z || goes_negative (nb + paren_step c) s'
  end.

(** The first [n] characters of [s]. *)
Definition prefix (n : nat) (s : string) : string := String.substring 0 n s.

(** The depth is negative after some prefix, or is not zero at the end. *)
Definition dips (s : string) : Prop := exists n, (depth (prefix n s) < 0)%Z.
Definition unbalanced (s : string) : Prop := dips s \/ depth s <> 0%Z.

(** Texts with balanced parentheses. *)
Inductive balanced : string -> Prop :=
| balanced_empty : balanced ""
| balanced_char c s :
    c <> "("%char -> c <> ")"%char -> balanced s -> balanced (String c s)
| balanced_paren s1 s2 :
    balanced s1 -> balanced s2 -> balanced (String "(" s1 +:+ String ")" s2).

(** [s'] is [s] without some of its characters that are not parentheses. *)
Inductive thinned : string -> string -> Prop :=
| thinned_empty : thinned "" ""
| thinned_keep c s s' : thinned s s' -> thinned (String c s) (String c s')
| thinned_drop c s s' :
    c <> "("%char -> c <> ")"%char -> thinned s s' -> thinned (String c s) s'.

(** A separator pattern matches one character, which is no parenthesis. *)
Definition one_char_separator (separators : regex) : Prop :=
  forall st st', st' ∈ run separators st ->
    exists c, rest st = String c (rest st') /\ c <> "("%char /\ c <> ")"%char.

(** A splitter raises the syntax error on the unbalanced texts and returns
    on the others. *)
Definition raises_iff_unbalanced (f : string -> result (list string)) (s : string) : Prop :=
  (f s = Raise SyntaxError <-> unbalanced s) /\
  (~ unbalanced s -> exists pieces, f s = Ok pieces).

(** Breaking a text into pieces, told without indices: the text is read
    once with a state; where [boundary] holds of the state and the next
    character, the piece read so far is closed and the character opens the
    next piece.  [cuts] lists the positions of these characters. *)
Section Chunks.
Context {St : Type} (boundary : St -> ascii -> bool) (next : St -> ascii -> St).

Fixpoint chunks (st : St) (cur s : string) : list string :=
  match s with
  | EmptyString => [cur]
  | String c s' =>
      if boundary st c then cur :: chunks (next st c) (String c "") s'
      else chunks (next st c) (cur +:+ String c "") s'
  end.

Fixpoint cuts (st : St) (i : nat) (s : string) : list nat :=
  match s with
  | EmptyString => []
  | String c s' =>
      (if boundary st c then [i] else []) ++ cuts (next st c) (S i) s'
  end.
End Chunks.

(** Breaking after a closing parenthesis at depth zero that is not
    followed by an opening parenthesis: the state is the depth and whether
    the last character was a closing parenthesis. *)
Definition close_boundary (st : Z * bool) (c : ascii) : bool :=
  st.2 && (st.1 =? 0)%Z && negb (Ascii.eqb c "(").
Definition close_next (st : Z * bool) (c : ascii) : Z * bool :=
  ((st.1 + paren_step c)%Z, Ascii.eqb c ")").
Definition break_after_close (s : string) : list string :=
  chunks close_boundary close_next (0%Z, false) "" s.

(** Breaking before a separator at depth zero: the state is the depth. *)
Definition sep_boundary (separators : regex) (nb : Z) (c : ascii) : bool :=
  is_match separators (String c "") && (nb =? 0)%Z.
Definition sep_next (nb : Z) (c : ascii) : Z := (nb + paren_step c)%Z.
Definition break_before (separators : regex) (s : string) : list string :=
  chunks (sep_boundary separators) sep_next 0%Z "" s.

(** The segmenter, told from these: the text without a [+] at either end
    is broken before each [+] at depth zero, each piece is broken after
    its closing parentheses, and the [+] at the ends of the pieces go. *)
Definition segment (event : string) : list string :=
  map (strip "+")
      (flat_map break_after_close
                (break_before plus_sign (sub (at_either_end plus_sign) "" event))).

(** A sample table: a home run, a double play with a runner advancing, a
    pick-off and a single, and what [enhancePlays] makes of it when sets
    are listed by [elements]. *)
Definition sample_plays : list Play.t :=
  [Play.Make "play" "HR.1-H;B-H"; Play.Make "play" "64(1)3/GDP.2-3";
   Play.Make "com" "a comment"; Play.Make "play" "PO1(13)"; Play.Make "play" "S9.2-H"].

Definition empty_frame : Frame.t := Frame.Make [] [] [] [] [] [] [] [] [] [].

Definition sample_frame : Frame.t :=
  match enhancePlays elements sample_plays with
  | Ok f => f
  | Raise _ => empty_frame
  end.

(** ** The rows of a game file *)

(** [RetrosheetEventFormatter] reads the lines of one game and hands lists
    of rows to the table constructor.  The two loops that build the rows
    of the plays and of the substitutions are embedded here; the tables
    themselves are not.  In this part an exception, whichever it is, is
    [None]. *)

(** [s.split(sep)] for a separator of one character, and
    [s.startswith(p)]. *)
Fixpoint str_split_from (sep : ascii) (cur s : string) : list string :=
  match s with
  | EmptyString => [cur]
  | String c s' =>
      if Ascii.eqb c sep then cur :: str_split_from sep "" s'
      else str_split_from sep (cur +:+ String c "") s'
  end.
Definition str_split (sep : ascii) (s : string) : list string := str_split_from sep "" s.

Definition startswith (s p : string) : bool := String.prefix p s.

(** The double quote. *)
Definition quote : ascii := "034".

(** An entry of [playsAndComments]: a line still to be read, or the list
    of fields that replaced it. *)
Inductive item : Type :=
| Line (line : string)
| Fields (fields : list string).

(** The position meant by the index [k] in a list of length [len]: a
    negative index counts from the end. *)
Definition py_pos (len : nat) (k : Z) : option nat :=
  if (k <? 0)%Z then
    if (k + Z.of_nat len <? 0)%Z then None else Some (Z.to_nat (k + Z.of_nat len))
  else if (k <? Z.of_nat len)%Z then Some (Z.to_nat k) else None.

(** [x[n]] and [x[n] = v] for an entry [x]: a line gives its character
    and takes no assignment. *)
Definition item_get (x : item) (n : nat) : option string :=
  match x with
  | Fields fields => fields !! n
  | Line line => match String.get n line with
                | Some c => Some (String c "")
                | None => None
                end
  end.
Definition item_set (x : item) (n : nat) (v : string) : option item :=
  match x with
  | Fields fields => if Nat.ltb n (length fields) then Some (Fields (<[n := v]> fields)) else None
  | Line _ => None
  end.

(** [((play)|(com)),] *)
Definition re_play_or_com : regex :=
  Seq (Grp (Alt (Grp (Lit "play")) (Grp (Lit "com")))) (Chr ",").

(** The loop over [enumerate(playsAndComments)], with [n] entries still to
    come, the index [i] and the counter [t]; [re.match] takes no list. *)
Fixpoint playsAndComments_loop (n i : nat) (t : Z) (playsAndComments : list item)
    : option (list item) :=
  match n with
  | O => Some playsAndComments
  | S n' =>
      x ← playsAndComments !! i;
      match x with
      | Fields _ => None
      | Line j =>
          if is_match (Lit "play,") j then
            playsAndComments_loop n' (S i) 1
              (<[i := Fields (str_split "," j ++ [""])]> playsAndComments)
          else if is_match (Lit "com,") j then
            c ← str_split "," j !! 1;
            let pac :=
              <[i := Fields (["com"] ++ replicate 6 "" ++ [strip "$ " (strip (String quote "") c)])]>
                playsAndComments in
            if (0 <=? t)%Z then
              k ← py_pos (length pac) (Z.of_nat i - t);
              target ← pac !! k;
              a ← item_get target 7;
              cur ← pac !! i;
              b ← item_get cur 7;
              target' ← item_set target 7 (strip " " (a +:+ " " +:+ b));
              playsAndComments_loop n' (S i) (t + 1) (<[k := target']> pac)
            else playsAndComments_loop n' (S i) t pac
          else playsAndComments_loop n' (S i) t playsAndComments
      end
  end.

(** [[j for j in playsAndComments if j[0] == 'play']] *)
Fixpoint keep_plays (playsAndComments : list item) : option (list item) :=
  match playsAndComments with
  | [] => Some []
  | j :: l =>
      h ← item_get j 0;
      l' ← keep_plays l;
      Some (if String.eqb h "play" then j :: l' else l')
  end.

(** The rows handed over for the table of plays. *)
Definition plays_rows (lst : list string) : option (list item) :=
  let playsAndComments := filter (fun j => is_match re_play_or_com j = true) lst in
  pac ← playsAndComments_loop (length playsAndComments) 0 0 (map Line playsAndComments);
  keep_plays pac.

(** A cell of a substitution row: a field of the line, or the number of
    the play. *)
Inductive cell : Type :=
| Str (s : string)
| Num (n : Z).

(** The loop over the lines that builds the rows of the substitutions,
    [i] being the number of the last play read. *)
Fixpoint subs_loop (lst : list string) (i : Z) (subs : list (list cell)) : list (list cell) :=
  match lst with
  | [] => subs
  | j :: lst' =>
      if startswith j "sub," then
        let sub := map Str (str_split "," j) ++ [Num i] in
        subs_loop lst' i (subs ++ [tail sub])
      else if startswith j "play," then subs_loop lst' (i + 1)%Z subs
      else subs_loop lst' i subs
  end.

(** The rows handed over for the table of substitutions. *)
Definition subs_rows (lst : list string) : list (list cell) := subs_loop lst (-1)%Z [].

(** *** Notions for the rows *)

(** The text kept of a comment line, and the comment cell after one more
    comment. *)
Definition comment_text (j : string) : string :=
  strip "$ " (strip (String quote "") (default "" (str_split "," j !! 1))).
Definition add_comment (row : list string) (c : string) : list string :=
  <[7 := strip " " (default "" (row !! 7) +:+ " " +:+ c)]> row.

(** The rows of the plays, told line by line: a play line opens a row,
    whose last cell is an empty comment; a comment line adds its text to
    the comment of the open row, which must have its eighth cell; the
    comment lines before the first play are passed over. *)
Fixpoint rows_from (rows : list (list string)) (cur : list string) (lines : list string)
    : option (list (list string)) :=
  match lines with
  | [] => Some (rows ++ [cur])
  | j :: lines' =>
      if is_match (Lit "play,") j then rows_from (rows ++ [cur]) (str_split "," j ++ [""]) lines'
      else if Nat.ltb 7 (length cur) then rows_from rows (add_comment cur (comment_text j)) lines'
      else None
  end.
Fixpoint rows_of (lines : list string) : option (list (list string)) :=
  match lines with
  | [] => Some []
  | j :: lines' =>
      if is_match (Lit "play,") j then rows_from [] (str_split "," j ++ [""]) lines'
      else rows_of lines'
  end.

(** The lines that count for the table of plays. *)
Definition play_lines (lst : list string) : list string :=
  filter (fun j => is_match re_play_or_com j = true) lst.

(** How many lines of [lst] open with [p]. *)
Definition count_lines (p : string) (lst : list string) : nat :=
  length (filter (fun j => startswith j p = true) lst).

(** ** Further notions *)

(** No separator at depth zero in [s], read with the depth counter
    started at [nb]. *)
Fixpoint top_sep_free (separators : regex) (nb : Z) (s : string) : bool :=
  match s with
  | EmptyString => true
  | String c s' =>
      negb (sep_boundary separators nb c) && top_sep_free separators (sep_next nb c) s'
  end.

(** The rules of [_subeventParser] that match on a literal at the front,
    with what they answer. *)
Definition prefix_rules : list (string * Subevent.t) :=
  [("FC", Subevent.Make "Fielder's Choice" [] ["B-1"]);
   ("NP", Subevent.Make "No Play" [] []);
   ("K", Subevent.Make "Strikeout" ["B"] []);
   ("HP", Subevent.Make "Hit by Pitch" [] ["B-1"]);
   ("DGR", Subevent.Make "Hit - Ground Rule Double" [] ["B-2"]);
   ("WP", Subevent.Make "Wild Pitch" [] []);
   ("IW", Subevent.Make "Intentional Walk" [] ["B-1"]);
   ("PB", Subevent.Make "Passed Ball" [] []);
   ("SB", Subevent.Make "Stolen Base" [] []);
   ("DI", Subevent.Make "Defensive Indifference" [] []);
   ("BK", Subevent.Make "Balk" [] []);
   ("OA", Subevent.Make "Other Baserunner Advance" [] []);
   ("FLE", Subevent.Make "Error on Foul Flyball" [] [])].

(** The base a runner left when caught stealing the base [c]. *)
Definition base_before (c : ascii) : string :=
  if Ascii.eqb c "H" then "3" else if Ascii.eqb c "3" then "2" else "1".

(** The advance token [t] moves the runner of base [k] to [v] by its own
    account: a successful advance [<k>-<v>...], or an out attempt
    [<k>X<v>...] with an error mark after the destination. *)
Definition explicit_advance (t k v : string) : Prop :=
  exists c d tl,
    base13B c = true /\ base13H d = true /\ k = String c "" /\ v = String d "" /\
    (t = String c (String "-" (String d tl)) \/
     (t = String c (String "X" (String d tl)) /\ has_error_mark tl = true)).

(** The advance token [t] names the base [k] at its front. *)
Definition names_base (t k : string) : Prop := exists tl c, k = String c "" /\ t = String c tl.


(** A field of a play as Retrosheet writes it: balanced parentheses, no
    [/] and no [.] outside them, not empty and not a lone line feed. *)
Definition play_field (s : string) : Prop :=
  ~ unbalanced s /\ top_sep_free slash_or_dot 0 s = true /\
  s <> "" /\ s <> String newline "".

(** A play put together from its fields: [event/mod/mod.adv;adv]. *)
Definition compose_play (event : string) (mods advs : list string) : string :=
  event +:+ join "" (map (String "/") mods) +:+
  match advs with
  | [] => ""
  | _ => String "." (join ";" advs)
  end.

(** No [/] or [.] closes the text, alone or before a last line feed. *)
Fixpoint safe_end (s : string) : bool :=
  match s with
  | EmptyString => true
  | String c s' =>
      negb (is_match slash_or_dot (String c "") &&
            (String.eqb s' "" || String.eqb s' (String newline ""))) &&
      safe_end s'
  end.

(** A field with the [/] or [.] that opens it. *)
Definition separated_field (p : string) : Prop :=
  exists c f, p = String c f /\ is_match slash_or_dot (String c "") = true /\ play_field f.

(** The pieces of the segmenter, told without the stripping of the code.
    [without_first_plus] and [without_last_plus] drop the [+] that opens
    the text and the [+] that closes it, a last line feed after it or not;
    [split_on_plus] reads the text with the depth and closes the piece at
    each [+] at depth zero, which it drops; each piece is then broken
    after its closing parentheses. *)
Definition without_first_plus (s : string) : string :=
  match s with
  | String c s' => if Ascii.eqb c "+" then s' else s
  | EmptyString => ""
  end.

Fixpoint without_last_plus (s : string) : string :=
  match s with
  | EmptyString => ""
  | String c s' =>
      if Ascii.eqb c "+" && (String.eqb s' "" || String.eqb s' (String newline ""))
      then s'
      else String c (without_last_plus s')
  end.

Fixpoint split_on_plus (nb : Z) (cur s : string) : list string :=
  match s with
  | EmptyString => [cur]
  | String c s' =>
      if Ascii.eqb c "+" && (nb =? 0)%Z then cur :: split_on_plus nb "" s'
      else split_on_plus (nb + paren_step c) (cur +:+ String c "") s'
  end.

Definition atomic_pieces (event : string) : list string :=
  flat_map break_after_close
           (split_on_plus 0 "" (without_last_plus (without_first_plus event))).

(** * Properties *)

Local Arguments String.append !_ _ : simpl nomatch.

(** ** The error monad *)

Lemma bind_Ok {A B} (m : result A) (k : A -> result B) (b : B) :
  m ≫= k = Ok b <-> exists a, m = Ok a /\ k a = Ok b.
Proof.
  destruct m as [a|e]; simpl; split.
  - intros H. exists a. auto.
  - intros (a' & Ha & Hk). injection Ha as ->. exact Hk.
  - discriminate.
  - intros (a' & Ha & _). discriminate.
Qed.

Lemma mapM_Ok {A B} (f : A -> result B) (l : list A) (k : list B) :
  mapM f l = Ok k <-> Forall2 (fun x y => f x = Ok y) l k.
Proof.
  revert k. induction l as [|x l IH]; intros k; simpl.
  - split.
    + intros H. injection H as <-. constructor.
    + intros H. inversion H. reflexivity.
  - split.
    + intros H. apply bind_Ok in H as (y & Hy & H).
      apply bind_Ok in H as (k' & Hk' & H). injection H as <-.
      constructor; [exact Hy | apply IH, Hk'].
    + intros H. inversion H as [|x' y l' k' Hy Hk']; subst.
      apply IH in Hk'. unfold mbind, result_bind. rewrite Hy.
      unfold mbind, result_bind in Hk'. fold (@mapM result _ _ A B f) in *.
      rewrite Hk'. reflexivity.
Qed.

(** ** The matcher *)

Lemma length_append (a b : string) :
  String.length (a +:+ b) = String.length a + String.length b.
Proof. induction a as [|c a IH]; simpl; [reflexivity | now rewrite IH]. Qed.

Lemma substring_append (a b : string) :
  String.substring 0 (String.length a) (a +:+ b) = a.
Proof.
  induction a as [|c a IH]; simpl.
  - destruct b; reflexivity.
  - now rewrite IH.
Qed.

Lemma taken_append (pre s : string) : taken (pre +:+ s) s = pre.
Proof.
  unfold taken. rewrite length_append.
  replace (String.length pre + String.length s - String.length s)
    with (String.length pre) by lia.
  apply substring_append.
Qed.

(** Every item of a scan was matched at the front of some text. *)
Lemma finditer_from_matched r s :
  forall bol skip f, f ∈ finditer_from r bol skip s ->
  exists b s1 st, match_at r b s1 = Some st /\ f = (taken s1 (rest st), grp1 st).
Proof.
  induction s as [|c s IH]; intros bol skip f Hf.
  - destruct skip; simpl in Hf; [|inversion Hf].
    destruct (match_at r bol "") as [st|] eqn:E; [|inversion Hf].
    apply list_elem_of_singleton in Hf. subst f. eauto.
  - destruct skip as [|k]; simpl in Hf.
    + destruct (match_at r bol (String c s)) as [st|] eqn:E.
      * apply elem_of_cons in Hf as [->|Hf]; [eauto|]. eapply IH, Hf.
      * eapply IH, Hf.
    + eapply IH, Hf.
Qed.

Arguments chr _ _ : simpl never.
Arguments rng _ _ _ : simpl never.
Arguments cor _ _ _ : simpl never.
Arguments cnot _ _ : simpl never.

Lemma elem_of_run_Seq r1 r2 st st' :
  st' ∈ run (Seq r1 r2) st <-> exists st1, st1 ∈ run r1 st /\ st' ∈ run r2 st1.
Proof.
  simpl. rewrite list_elem_of_In, in_flat_map. 
  split; intros (st1 & H1 & H2); exists st1; rewrite ?list_elem_of_In in *; auto.
Qed.

Lemma elem_of_run_Alt r1 r2 st st' :
  st' ∈ run (Alt r1 r2) st <-> st' ∈ run r1 st \/ st' ∈ run r2 st.
Proof. simpl. apply elem_of_app. Qed.

Lemma elem_of_run_Eps st st' : st' ∈ run Eps st <-> st' = st.
Proof. simpl. apply list_elem_of_singleton. Qed.

Lemma elem_of_run_Sym p st st' :
  st' ∈ run (Sym p) st <->
  exists c s', rest st = String c s' /\ p c = true /\ st' = MState false (grp1 st) s'.
Proof.
  simpl. destruct (rest st) as [|c s] eqn:E.
  - split; [intros H; inversion H | intros (c & s' & H & _); discriminate].
  - destruct (p c) eqn:Ep.
    + rewrite list_elem_of_singleton. split.
      * intros ->. exists c, s. auto.
      * intros (c' & s' & H & _ & ->). injection H as -> ->. reflexivity.
    + split; [intros H; inversion H|].
      intros (c' & s' & H & Hp & _). injection H as -> _. congruence.
Qed.

Lemma elem_of_run_Eol st st' :
  st' ∈ run Eol st <-> st' = st /\ (rest st = "" \/ rest st = String newline "").
Proof.
  simpl. destruct (rest st) as [|c [|c' s]] eqn:E.
  - rewrite list_elem_of_singleton. intuition.
  - destruct (Ascii.eqb_spec c newline) as [->|Hc].
    + rewrite list_elem_of_singleton. intuition.
    + split; [intros H; inversion H|]. intros (_ & [H|H]); [discriminate|]. congruence.
  - split; [intros H; inversion H|]. intros (_ & [H|H]); discriminate.
Qed.

Lemma elem_of_run_Bol st st' : st' ∈ run Bol st <-> st' = st /\ at_bol st = true.
Proof.
  simpl. destruct (at_bol st).
  - rewrite list_elem_of_singleton. intuition.
  - split; [intros H; inversion H | intros (_ & H); discriminate].
Qed.

Lemma elem_of_run_Grp r st st' :
  st' ∈ run (Grp r) st <->
  exists st1, st1 ∈ run r st /\
    st' = MState (at_bol st1) (Some (taken (rest st) (rest st1))) (rest st1).
Proof.
  simpl. rewrite list_elem_of_fmap. split; intros (st1 & H1 & H2); eauto.
Qed.

Lemma elem_of_many_from p g s st' :
  st' ∈ many_from p g s <->
  exists pre s', s = pre +:+ s' /\ all_in p pre = true /\ st' = MState false g s'.
Proof.
  revert st'. induction s as [|c s IH]; intros st'; simpl.
  - rewrite list_elem_of_singleton. split.
    + intros ->. exists "", "". auto.
    + intros (pre & s' & H & _ & ->). destruct pre; [|discriminate].
      simpl in H. now rewrite <- H.
  - rewrite elem_of_app, list_elem_of_singleton. split.
    + intros [H| ->].
      * destruct (p c) eqn:Ep; [|inversion H].
        apply IH in H as (pre & s' & -> & Hall & ->). exists (String c pre), s'.
        simpl. rewrite Ep. auto.
      * exists "", (String c s). auto.
    + intros (pre & s' & H & Hall & ->). destruct pre as [|d pre]; simpl in *.
      * right. now rewrite <- H.
      * left. injection H as <- ->. apply andb_true_iff in Hall as [-> Hall].
        apply IH. eauto.
Qed.

Lemma elem_of_run_Many p st st' :
  st' ∈ run (Many p) st <->
  st' = st \/
  exists c pre s', rest st = String c pre +:+ s' /\ p c = true /\ all_in p pre = true /\
                   st' = MState false (grp1 st) s'.
Proof.
  simpl. destruct (rest st) as [|c s] eqn:E.
  - rewrite list_elem_of_singleton. split; [auto|].
    intros [H|(c & pre & s' & H & _)]; [auto | discriminate].
  - rewrite elem_of_app, list_elem_of_singleton. split.
    + intros [H|H]; [right | auto].
      destruct (p c) eqn:Ep; [|inversion H].
      apply elem_of_many_from in H as (pre & s' & -> & Hall & ->). exists c, pre, s'. auto.
    + intros [H|(d & pre & s' & H & Hd & Hall & ->)]; [auto|left].
      simpl in H. injection H as <- ->. rewrite Hd. apply elem_of_many_from. eauto.
Qed.

Lemma is_match_true r s :
  is_match r s = true <-> exists st, st ∈ run r (MState true None s).
Proof.
  unfold is_match, match_at. destruct (run r _) as [|st l]; simpl.
  - split; [discriminate | intros (st & H); inversion H].
  - split; [|reflexivity]. intros _. exists st. left.
Qed.

Lemma match_at_Some r b s st : match_at r b s = Some st -> st ∈ run r (MState b None s).
Proof. unfold match_at. apply head_Some_elem_of. Qed.

Lemma chr_true c d : chr c d = true -> d = c.
Proof. unfold chr. intros H. apply Ascii.eqb_eq in H. congruence. Qed.

Ltac inv_run :=
  repeat match goal with
  | H : _ ∈ run (Cat _) _ |- _ => simpl Cat in H
  | H : _ ∈ run (Lit _) _ |- _ => simpl Lit in H
  | H : _ ∈ run (Chr _) _ |- _ => unfold Chr in H
  | H : _ ∈ run (Opt _) _ |- _ => unfold Opt in H
  | H : _ ∈ run (Many1 _) _ |- _ => unfold Many1 in H
  | H : _ ∈ run (Seq _ _) _ |- _ => apply elem_of_run_Seq in H as (? & ? & ?)
  | H : _ ∈ run (Sym _) _ |- _ => apply elem_of_run_Sym in H as (? & ? & ? & ? & ?)
  | H : _ ∈ run (Alt _ _) _ |- _ => apply elem_of_run_Alt in H as [?|?]
  | H : _ ∈ run Eps _ |- _ => apply elem_of_run_Eps in H
  | H : _ ∈ run Eol _ |- _ => apply elem_of_run_Eol in H as (? & ?)
  | H : _ ∈ run Bol _ |- _ => apply elem_of_run_Bol in H as (? & ?)
  | H : _ ∈ run (Grp _) _ |- _ => apply elem_of_run_Grp in H as (? & ? & ?)
  | H : _ ∈ run (Many _) _ |- _ =>
      apply elem_of_run_Many in H as [?|(? & ? & ? & ? & ? & ? & ?)]
  | H : chr _ _ = true |- _ => apply chr_true in H
  end.

(** ** Character classes *)

Lemma base23H_cases c : base23H c = true -> c = "2"%char \/ c = "3"%char \/ c = "H"%char.
Proof.
  destruct c as [[] [] [] [] [] [] [] []]; vm_compute; intros H;
    try discriminate H; auto.
Qed.

Lemma base13B_cases c :
  base13B c = true -> c = "1"%char \/ c = "2"%char \/ c = "3"%char \/ c = "B"%char.
Proof.
  destruct c as [[] [] [] [] [] [] [] []]; vm_compute; intros H;
    try discriminate H; auto.
Qed.

Lemma base13H_cases c :
  base13H c = true -> c = "1"%char \/ c = "2"%char \/ c = "3"%char \/ c = "H"%char.
Proof.
  destruct c as [[] [] [] [] [] [] [] []]; vm_compute; intros H;
    try discriminate H; auto.
Qed.

(** ** The classifier returns *)

Lemma match_at_re_cs b s st :
  match_at re_cs b s = Some st ->
  exists c, s = String "C" (String "S" (String c (rest st))) /\ base23H c = true.
Proof.
  intros H. apply match_at_Some in H. unfold re_cs in H. inv_run.
  simplify_eq/=. eauto.
Qed.

Lemma findall_matched r s m :
  m ∈ findall r s -> exists b s1 st, match_at r b s1 = Some st /\ m = taken s1 (rest st).
Proof.
  unfold findall. intros H. apply list_elem_of_fmap in H as (f & -> & Hf).
  apply finditer_from_matched in Hf as (b & s1 & st & Hm & ->). eauto.
Qed.

Lemma findall_re_cs s m :
  m ∈ findall re_cs s ->
  exists c, m = String "C" (String "S" (String c "")) /\ base23H c = true.
Proof.
  intros H. apply findall_matched in H as (b & s1 & st & Hm & ->).
  apply match_at_re_cs in Hm as (c & -> & Hc). exists c. split; [|exact Hc].
  apply (taken_append (String "C" (String "S" (String c "")))).
Qed.

Lemma match_at_re_pocs b s st :
  match_at re_pocs b s = Some st ->
  exists c, s = String "P" (String "O" (String "C" (String "S" (String c (rest st)))))
            /\ base23H c = true.
Proof.
  intros H. apply match_at_Some in H. unfold re_pocs in H. inv_run.
  simplify_eq/=. eauto.
Qed.

Lemma findall_re_pocs s m :
  m ∈ findall re_pocs s ->
  exists c, m = String "P" (String "O" (String "C" (String "S" (String c "")))) /\
            base23H c = true.
Proof.
  intros H. apply findall_matched in H as (b & s1 & st & Hm & ->).
  apply match_at_re_pocs in Hm as (c & -> & Hc). exists c. split; [|exact Hc].
  apply (taken_append (String "P" (String "O" (String "C" (String "S" (String c "")))))).
Qed.

Lemma cs_loop_returns rs :
  (forall m, m ∈ rs -> exists c, m = String "C" (String "S" (String c "")) /\ base23H c = true) ->
  forall br out, exists res, cs_loop rs br out = Ok res.
Proof.
  induction rs as [|r rs IH]; intros Hrs br out; simpl; [eauto|].
  destruct (Hrs r) as (c & -> & Hc); [left|].
  assert (exists b, preceding_base (strip "CS" (String "C" (String "S" (String c "")))) br
                    = Some b) as [b ->].
  { apply base23H_cases in Hc as [->|[->| ->]]; vm_compute; eauto. }
  simpl. apply IH. intros m Hm. apply Hrs. now right.
Qed.

Lemma pocs_inner_returns rs :
  (forall m, m ∈ rs ->
     exists c, m = String "P" (String "O" (String "C" (String "S" (String c "")))) /\
               base23H c = true) ->
  forall br out, exists res, pocs_inner rs br out = Ok res.
Proof.
  induction rs as [|r rs IH]; intros Hrs br out; simpl; [eauto|].
  destruct (Hrs r) as (c & -> & Hc); [left|].
  assert (exists b,
    char_at (strip "POCS" (String "P" (String "O" (String "C" (String "S" (String c "")))))) 0
      = Ok b /\ exists b', preceding_base b br = Some b') as (b & -> & b' & Hb').
  { apply base23H_cases in Hc as [->|[->| ->]]; vm_compute; eauto. }
  simpl. rewrite Hb'. simpl. apply IH. intros m Hm. apply Hrs. now right.
Qed.

Lemma pocs_loop_returns s rs :
  forall p br out, exists res, pocs_loop s rs p br out = Ok res.
Proof.
  induction rs as [|r rs IH]; intros p br out; simpl; [eauto|].
  destruct (is_search re_e19 r); [apply IH|].
  destruct (pocs_inner_returns (findall re_pocs s) (findall_re_pocs s) br out)
    as ([br' out'] & ->).
  simpl. apply IH.
Qed.

(** C7.  The sub-event classifier returns a result for every string: no
    step of it raises.  When none of its rules matches, the result is the
    empty description with no player out and no implicit advance. *)
Theorem subeventParser_total (s : string) :
  (exists e, _subeventParser s = Ok e) /\
  (no_rule_matches s -> _subeventParser s = Ok unclassified).
Proof.
  split.
  - unfold _subeventParser.
    repeat match goal with
    | |- context [if is_match ?r s then _ else _] => destruct (is_match r s)
    end; eauto.
    + destruct (map _ _) as [|b l]; [eauto|]. destruct (String.eqb b "B"); eauto.
    + destruct (cs_loop_returns (findall re_cs s) (findall_re_cs s) None [])
        as ([br out] & ->). simpl. eauto.
    + destruct (po_loop _ _ _) as [p out]. eauto.
    + destruct (pocs_loop_returns s (findall_group re_pocs_error s)
                  "Picked Off Base Caught Stealing" None []) as ([p out] & ->).
      simpl. eauto.
  - unfold no_rule_matches, rules. intros H.
    repeat match type of H with
    | Forall _ (_ :: _) => apply Forall_cons in H as [? H]
    end.
    unfold _subeventParser.
    repeat match goal with
    | E : is_match ?r s = false |- context [is_match ?r s] => rewrite E
    end.
    reflexivity.
Qed.

(** C2.  On [PO1], [PO2] and [PO3] the classifier answers Picked Off Base,
    but the player it records as out is the empty string, not the base:
    [findall] on a pattern with a group yields the group's text, which is
    empty when no error follows. *)
Theorem picked_off_records_empty_base :
  Forall (fun s => _subeventParser s = Ok (Subevent.Make "Picked Off Base" [""] []))
         ["PO1"; "PO2"; "PO3"].
Proof. repeat constructor. Qed.

Example picked_off_error :
  _subeventParser "PO1(E3)" = Ok (Subevent.Make "Picked Off Base - Error" [] []).
Proof. reflexivity. Qed.

(** C3.  The one-character string [H] matches no rule: [H[^P]] asks for a
    character after the [H]. *)
Theorem lone_H_unclassified : _subeventParser "H" = Ok unclassified.
Proof. reflexivity. Qed.

Lemma home_run_with_next_char (c : ascii) (s : string) :
  c <> "P"%char ->
  _subeventParser (String "H" (String c s)) = Ok (Subevent.Make "Hit - Home Run" [] ["B-H"]).
Proof.
  intros Hc. unfold _subeventParser.
  repeat match goal with
  | |- context [is_match ?r ?t] =>
      lazymatch r with
      | re_home_run => fail
      | _ => replace (is_match r t) with false by (vm_compute; reflexivity)
      end
  end.
  assert (is_match re_home_run (String "H" (String c s)) = true) as ->; [|reflexivity].
  apply is_match_true. eexists. unfold re_home_run. simpl Cat.
  apply elem_of_run_Seq. eexists. split.
  - apply elem_of_run_Sym. eexists _, _. simpl. split; [reflexivity|]. split; reflexivity.
  - apply elem_of_run_Sym. eexists _, _. simpl. split; [reflexivity|]. split; [|reflexivity].
    unfold cnot, chr. apply negb_true_iff, Ascii.eqb_neq. congruence.
Qed.

(** ** Listing a set *)

Section Listing.

Variable list_of_set : gset string -> list string.
Hypothesis list_of_set_perm : forall X, list_of_set X ≡ₚ elements X.

Lemma elem_of_list_of_set (X : gset string) (x : string) : x ∈ list_of_set X <-> x ∈ X.
Proof. rewrite list_of_set_perm. apply elem_of_elements. Qed.

Lemma NoDup_list_of_set (X : gset string) : NoDup (list_of_set X).
Proof. rewrite list_of_set_perm. apply NoDup_elements. Qed.

Lemma length_list_of_set (X : gset string) : length (list_of_set X) = size X.
Proof. rewrite list_of_set_perm. reflexivity. Qed.

Lemma list_to_set_list_of_set (X : gset string) : list_to_set (list_of_set X) = X.
Proof. apply set_eq. intros x. rewrite elem_of_list_to_set. apply elem_of_list_of_set. Qed.

Lemma list_of_set_singleton (x : string) : list_of_set {[x]} = [x].
Proof.
  apply Permutation_singleton_r. rewrite list_of_set_perm. now rewrite elements_singleton.
Qed.

(** C1.  The play [HR.1-H;B-H] names the advance [B-H] in its advances
    clause; the home run implies the same [B-H]; the final map holds only
    the advance from first base, so the batter's run is lost. *)
Theorem explicit_advance_cancelled_by_implicit :
  _playSplitter "HR.1-H;B-H" = Ok (PlaySplit.Make "HR" [] ["1-H"; "B-H"]) /\
  mapM _subeventParser ["HR"] = Ok [Subevent.Make "Hit - Home Run" [] ["B-H"]] /\
  playerAdvances list_of_set (PlaySplit.Make "HR" [] ["1-H"; "B-H"])
    [Subevent.Make "Hit - Home Run" [] ["B-H"]] = Ok {[ "1" := "H" ]}.
Proof.
  split; [reflexivity|]. split; [reflexivity|].
  unfold playerAdvances.
  change (mentioned _ _) with (Ok (A:=list string) ["B-H"]). simpl.
  rewrite list_to_set_list_of_set.
  match goal with
  | |- context [list_of_set ?X] => assert (X = ({["1-H"]} : gset string)) as ->
  end.
  { change (slice "1-H" 0 3) with "1-H". change (slice "B-H" 0 3) with "B-H".
    set_solver. }
  rewrite list_of_set_singleton. reflexivity.
Qed.


(** *** Advance tokens *)

Lemma all_dot_error_mark pre s :
  all_in dot pre = true -> has_error_mark (pre +:+ String "E" s) = true.
Proof.
  induction pre as [|c pre IH]; simpl; [reflexivity|].
  intros H. apply andb_true_iff in H as [Hc Hpre].
  unfold dot, cnot, chr in Hc. apply negb_true_iff in Hc.
  rewrite Ascii.eqb_sym in Hc. rewrite Hc, (IH Hpre). apply orb_true_r.
Qed.

Lemma error_mark_split s :
  has_error_mark s = true ->
  exists pre tl, s = pre +:+ String "E" tl /\ all_in dot pre = true.
Proof.
  induction s as [|c s IH]; simpl; [discriminate|].
  destruct (Ascii.eqb c newline) eqn:En; [discriminate|].
  destruct (Ascii.eqb_spec c "E") as [->|Hc]; simpl.
  - intros _. exists "", s. auto.
  - intros H. destruct (IH H) as (pre & tl & -> & Hpre).
    exists (String c pre), tl. split; [reflexivity|]. simpl.
    rewrite Hpre. unfold dot, cnot, chr. rewrite Ascii.eqb_sym, En. reflexivity.
Qed.

Lemma is_match_out_attempt_error t :
  is_match re_out_attempt_error t = true <->
  exists c tl, t = String c (String "X" tl) /\ base13B c = true /\ has_error_mark tl = true.
Proof.
  rewrite is_match_true. unfold re_out_attempt_error. split.
  - intros (st & H). inv_run; simplify_eq/=.
    + eexists _, _. split; [reflexivity|]. split; [assumption|]. reflexivity.
    + eexists _, _. split; [reflexivity|]. split; [assumption|].
      match goal with
      | Hc : dot ?c = true, Hp : all_in dot ?pre = true |- _ =>
          apply (all_dot_error_mark (String c pre)); simpl; now rewrite Hc, Hp
      end.
  - intros (c & tl & -> & Hc & Hm).
    apply error_mark_split in Hm as (pre & tl' & -> & Hpre).
    exists (MState false None tl'). simpl Cat.
    apply elem_of_run_Seq. exists (MState false None (String "X" (pre +:+ String "E" tl'))).
    split; [apply elem_of_run_Sym; eauto|].
    apply elem_of_run_Seq. exists (MState false None (pre +:+ String "E" tl')).
    split; [apply elem_of_run_Sym; eexists _, _; eauto|].
    apply elem_of_run_Seq. exists (MState false None (String "E" tl')).
    split; [|apply elem_of_run_Sym; eexists _, _; eauto].
    apply elem_of_run_Many. destruct pre as [|d pre]; [left; reflexivity|right].
    simpl in Hpre. apply andb_true_iff in Hpre as [Hd Hpre].
    exists d, pre, (String "E" tl'). auto.
Qed.

Lemma is_match_out_attempt t :
  is_match re_out_attempt t = true <->
  exists c tl, t = String c (String "X" tl) /\ base13B c = true.
Proof.
  rewrite is_match_true. unfold re_out_attempt. split.
  - intros (st & H). inv_run; simplify_eq/=. eauto.
  - intros (c & tl & -> & Hc). exists (MState false None tl). simpl Cat.
    apply elem_of_run_Seq. exists (MState false None (String "X" tl)).
    split; apply elem_of_run_Sym; eexists _, _; eauto.
Qed.

Lemma is_match_safe t :
  is_match re_safe t = true <->
  exists c tl, t = String c (String "-" tl) /\ base13B c = true.
Proof.
  rewrite is_match_true. unfold re_safe. split.
  - intros (st & H). inv_run; simplify_eq/=. eauto.
  - intros (c & tl & -> & Hc). exists (MState false None tl). simpl Cat.
    apply elem_of_run_Seq. exists (MState false None (String "-" tl)).
    split; apply elem_of_run_Sym; eexists _, _; eauto.
Qed.

Lemma token_cases t : token_case t.
Proof.
  destruct (is_match re_out_attempt_error t) eqn:E1;
    [|destruct (is_match re_out_attempt t) eqn:E2;
      [|destruct (is_match re_safe t) eqn:E3]].
  - pose proof E1 as (c & tl & -> & Hc & Hm)%is_match_out_attempt_error.
    apply (token_error _ (String c "")); [exact E1|reflexivity| |].
    + intros b. split.
      * intros [(c' & tl' & ? & _ & _ & ->)|(c' & tl' & ? & _ & ->)]; congruence.
      * intros ->. left. exists c, tl. auto.
    + intros b (c' & tl' & ? & _ & Hm' & _). congruence.
  - pose proof E2 as (c & tl & -> & Hc)%is_match_out_attempt.
    assert (has_error_mark tl = false) as Hm.
    { destruct (has_error_mark tl) eqn:Hm; [|reflexivity].
      rewrite <- E1. symmetry. apply is_match_out_attempt_error. eauto. }
    apply (token_out _ (String c "")); [exact E1|exact E2|reflexivity| |].
    + intros b [(c' & tl' & ? & _ & Hm' & _)|(c' & tl' & ? & _)]; congruence.
    + intros b. split.
      * intros (c' & tl' & ? & _ & _ & ->). congruence.
      * intros ->. exists c, tl. auto.
  - pose proof E3 as (c & tl & -> & Hc)%is_match_safe.
    apply (token_safe _ (String c "")); [exact E1|exact E2|exact E3|reflexivity| |].
    + intros b. split.
      * intros [(c' & tl' & ? & _ & _ & ->)|(c' & tl' & ? & _ & ->)]; congruence.
      * intros ->. right. exists c, tl. auto.
    + intros b (c' & tl' & ? & _). congruence.
  - apply token_other; [exact E1|exact E2|exact E3| |].
    + intros b [(c & tl & -> & Hc & _)|(c & tl & -> & Hc & _)].
      * assert (is_match re_out_attempt (String c (String "X" tl)) = true)
          by (apply is_match_out_attempt; eauto). congruence.
      * assert (is_match re_safe (String c (String "-" tl)) = true)
          by (apply is_match_safe; eauto). congruence.
    + intros b (c & tl & -> & Hc & _).
      assert (is_match re_out_attempt (String c (String "X" tl)) = true)
        by (apply is_match_out_attempt; eauto). congruence.
Qed.

(** A token that says [P] of exactly the base [c], or of no base, added
    to the tokens read so far. *)
Lemma token_adds (P : string -> string -> Prop) (i c : string) (advs acc : list string) :
  (forall b, P i b <-> b = c) ->
  forall b, (b ∈ acc ++ [c] \/ exists t, t ∈ advs /\ P t b) <->
            (b ∈ acc \/ exists t, t ∈ i :: advs /\ P t b).
Proof.
  intros Hi b. rewrite elem_of_app, list_elem_of_singleton. split.
  - intros [[H|H]|(t & Ht & H)]; [auto| |].
    + right. exists i. split; [left | now apply Hi].
    + right. exists t. split; [now right | exact H].
  - intros [H|(t & [->|Ht]%elem_of_cons & H)]; [auto| |].
    + left. right. now apply Hi.
    + right. eauto.
Qed.

Lemma token_silent (P : string -> string -> Prop) (i : string) (advs acc : list string) :
  (forall b, ~ P i b) ->
  forall b, (b ∈ acc \/ exists t, t ∈ advs /\ P t b) <->
            (b ∈ acc \/ exists t, t ∈ i :: advs /\ P t b).
Proof.
  intros Hi b. split.
  - intros [H|(t & Ht & H)]; [auto|]. right. exists t. split; [now right | exact H].
  - intros [H|(t & [->|Ht]%elem_of_cons & H)]; [auto| |].
    + now apply Hi in H.
    + right. eauto.
Qed.

Lemma outs_loop_spec advs :
  forall n o, exists n' o',
    outs_loop advs n o = Ok (n', o') /\
    (forall b, b ∈ n' <-> b ∈ n \/ exists t, t ∈ advs /\ exempts t b) /\
    (forall b, b ∈ o' <-> b ∈ o \/ exists t, t ∈ advs /\ out_attempt_without_error t b).
Proof.
  induction advs as [|i advs IH]; intros n o; simpl.
  - exists n, o. split; [reflexivity|].
    split; intros b; split; auto; intros [H|(t & Ht & _)]; auto; inversion Ht.
  - destruct (token_cases i) as [c E1 Hc He Ho|c E1 E2 Hc He Ho|c E1 E2 E3 Hc He Ho
                                |E1 E2 E3 He Ho];
      rewrite ?E1, ?E2, ?E3, ?Hc; simpl.
    + destruct (IH (n ++ [c]) o) as (n' & o' & -> & Hn & Hout).
      exists n', o'. split; [reflexivity|]. split; intros b.
      * rewrite Hn. now apply token_adds.
      * rewrite Hout. now apply token_silent.
    + destruct (IH n (o ++ [c])) as (n' & o' & -> & Hn & Hout).
      exists n', o'. split; [reflexivity|]. split; intros b.
      * rewrite Hn. now apply token_silent.
      * rewrite Hout. now apply token_adds.
    + destruct (IH (n ++ [c]) o) as (n' & o' & -> & Hn & Hout).
      exists n', o'. split; [reflexivity|]. split; intros b.
      * rewrite Hn. now apply token_adds.
      * rewrite Hout. now apply token_silent.
    + destruct (IH n o) as (n' & o' & -> & Hn & Hout).
      exists n', o'. split; [reflexivity|]. split; intros b.
      * rewrite Hn. now apply token_silent.
      * rewrite Hout. now apply token_silent.
Qed.

(** *** Players out *)

Lemma playersOut_spec ps subs :
  exists outs, playersOut list_of_set ps subs = Ok outs /\
    NoDup outs /\
    forall b, b ∈ outs <->
      (b ∈ flat_map Subevent.playersOut subs \/
       exists t, t ∈ PlaySplit.advs ps /\ out_attempt_without_error t b) /\
      ~ exists t, t ∈ PlaySplit.advs ps /\ exempts t b.
Proof.
  unfold playersOut.
  destruct (outs_loop_spec (PlaySplit.advs ps) [] []) as (n & o & -> & Hn & Ho).
  simpl. eexists. split; [reflexivity|]. split; [apply NoDup_list_of_set|].
  intros b. rewrite elem_of_list_of_set, elem_of_difference, !elem_of_union.
  rewrite !elem_of_list_to_set, Hn, Ho.
  split.
  - intros [[[H|[H|H]]|H] Hne].
    + set_solver.
    + inversion H.
    + split; [right; exact H|]. intros He. apply Hne. now right.
    + split; [left; exact H|]. intros He. apply Hne. now right.
  - intros [[H|H] Hne].
    + split; [right; exact H|]. intros [He|He]; [inversion He | auto].
    + split; [left; right; right; exact H|]. intros [He|He]; [inversion He | auto].
Qed.

(** C4.  [playersOut] returns for every play, and for every base [b]: if
    an advance token is an out attempt on [b] with an error mark, [b] is
    not among the players out, whatever the sub-events say; if a token is
    a successful advance of [b], [b] is not among them either; if a token
    is an out attempt on [b] without error mark and no token exempts [b],
    then [b] is among them. *)
Theorem playersOut_explicit_tokens (ps : PlaySplit.t) (subs : list Subevent.t) (b : string) :
  exists outs, playersOut list_of_set ps subs = Ok outs /\
    ((exists t, t ∈ PlaySplit.advs ps /\ out_attempt_with_error t b) -> b ∉ outs) /\
    ((exists t, t ∈ PlaySplit.advs ps /\ successful_advance t b) -> b ∉ outs) /\
    ((exists t, t ∈ PlaySplit.advs ps /\ out_attempt_without_error t b) ->
     (forall t, t ∈ PlaySplit.advs ps -> ~ exempts t b) -> b ∈ outs).
Proof.
  destruct (playersOut_spec ps subs) as (outs & Hok & _ & Hin).
  exists outs. split; [exact Hok|]. split; [|split].
  - intros (t & Ht & He) Hb. apply Hin in Hb as [_ Hne]. apply Hne.
    exists t. split; [exact Ht | left; exact He].
  - intros (t & Ht & He) Hb. apply Hin in Hb as [_ Hne]. apply Hne.
    exists t. split; [exact Ht | right; exact He].
  - intros Hout Hne. apply Hin. split; [right; exact Hout|].
    intros (t & Ht & He). exact (Hne t Ht He).
Qed.

(** *** Double plays *)

Lemma basicPlayDesc_two_outs subs :
  starts_with_out subs -> count_outs subs = 2 -> basicPlayDesc subs = Ok "Double Play".
Proof.
  unfold starts_with_out. destruct subs as [|e [|e' l]]; simpl.
  - discriminate.
  - intros _. unfold count_outs. simpl. destruct (String.eqb _ _); discriminate.
  - intros H. injection H as H. rewrite H. simpl. intros ->. reflexivity.
Qed.

(** C5, amended.  When exactly two sub-events are Outs and the first
    sub-event is one of them, the description is Double Play.  The number
    of outs is the size of the set of players out: it is two when the
    sub-events put out exactly two distinct bases [x] and [y], no advance
    token exempts [x] or [y], and every base of an out attempt without
    error mark is [x], [y] or exempted by some token. *)
Theorem double_play_amended (ps : PlaySplit.t) (subs : list Subevent.t) :
  starts_with_out subs -> count_outs subs = 2 ->
  basicPlayDesc subs = Ok "Double Play" /\
  exists outs, playersOut list_of_set ps subs = Ok outs /\
    forall x y, x <> y ->
      (forall b, b ∈ flat_map Subevent.playersOut subs <-> b = x \/ b = y) ->
      (forall t b, t ∈ PlaySplit.advs ps -> exempts t b -> b <> x /\ b <> y) ->
      (forall t b, t ∈ PlaySplit.advs ps -> out_attempt_without_error t b ->
         b = x \/ b = y \/ exists t', t' ∈ PlaySplit.advs ps /\ exempts t' b) ->
      length outs = 2.
Proof.
  intros Hfirst Hcount. split; [now apply basicPlayDesc_two_outs|].
  destruct (playersOut_spec ps subs) as (outs & Hok & Hnd & Hin).
  exists outs. split; [exact Hok|].
  intros x y Hxy Hsub Hex Hout.
  assert (outs ≡ₚ [x; y]) as ->; [|reflexivity].
  apply NoDup_Permutation; [exact Hnd| |].
  - apply NoDup_cons. split; [|apply NoDup_singleton].
    intros H%list_elem_of_singleton. contradiction.
  - intros b. rewrite Hin, Hsub, elem_of_cons, list_elem_of_singleton. split.
    + intros [[H|(t & Ht & H)] Hne]; [exact H|].
      destruct (Hout t b Ht H) as [Hb|[Hb|Hb]]; [auto|auto|contradiction].
    + intros H. split; [left; exact H|].
      intros (t & Ht & He). destruct (Hex t b Ht He) as [Hx Hy]. destruct H; contradiction.
Qed.

(** *** Advances *)

Lemma subeventParser_implicit s e :
  _subeventParser s = Ok e -> Forall advance3 (Subevent.implicitAdvances e).
Proof.
  assert (forall d, base13H d = true -> advance3 (String "B" (String "-" (String d ""))))
    as Hadv by (intros d Hd; exists "B"%char, "-"%char, d; auto).
  unfold _subeventParser.
  repeat match goal with
  | |- context [if is_match ?r s then _ else _] => destruct (is_match r s)
  end;
  try (intros [= <-]; simpl; repeat constructor; apply Hadv; reflexivity).
  - destruct (map _ _) as [|b l]; [|destruct (String.eqb b "B")];
      intros [= <-]; constructor.
  - intros (x & _ & H)%bind_Ok. destruct x. injection H as <-. constructor.
  - destruct (po_loop _ _ _). intros [= <-]. constructor.
  - intros (x & _ & H)%bind_Ok. destruct x. injection H as <-. constructor.
Qed.

Lemma is_match_adv_error t :
  is_match re_adv_error t = true ->
  exists c d tl, t = String c (String "X" (String d tl)) /\
                 base13B c = true /\ base13H d = true.
Proof.
  rewrite is_match_true. unfold re_adv_error.
  intros (st & H). inv_run; simplify_eq/=; eexists _, _, _; eauto.
Qed.

Lemma is_match_adv t :
  is_match re_adv t = true ->
  exists c d tl, t = String c (String "-" (String d tl)) /\
                 base13B c = true /\ base13H d = true.
Proof.
  rewrite is_match_true. unfold re_adv.
  intros (st & H). inv_run; simplify_eq/=; eexists _, _, _; eauto.
Qed.

Lemma slice_three c1 c2 c3 tl :
  slice (String c1 (String c2 (String c3 tl))) 0 3 = String c1 (String c2 (String c3 "")).
Proof. unfold slice. simpl. destruct tl; reflexivity. Qed.

Lemma advs_loop_advance3 advs :
  forall acc, Forall advance3 acc -> Forall advance3 (advs_loop advs acc).
Proof.
  induction advs as [|i advs IH]; intros acc Hacc; simpl; [exact Hacc|].
  destruct (is_match re_adv_error i) eqn:E1; [|destruct (is_match re_adv i) eqn:E2].
  - apply is_match_adv_error in E1 as (c & d & tl & -> & Hc & Hd).
    apply IH, Forall_app. split; [exact Hacc|]. apply Forall_singleton.
    rewrite slice_three. exists c, "X"%char, d. auto.
  - apply is_match_adv in E2 as (c & d & tl & -> & Hc & Hd).
    apply IH, Forall_app. split; [exact Hacc|]. apply Forall_singleton.
    rewrite slice_three. exists c, "-"%char, d. auto.
  - apply IH, Hacc.
Qed.

Lemma advances_dict_bases l :
  Forall advance3 l ->
  forall d m, advances_dict l d = Ok m ->
  (forall k v, d !! k = Some v -> k ∈ ["B"; "1"; "2"; "3"] /\ v ∈ ["1"; "2"; "3"; "H"]) ->
  forall k v, m !! k = Some v -> k ∈ ["B"; "1"; "2"; "3"] /\ v ∈ ["1"; "2"; "3"; "H"].
Proof.
  induction 1 as [|a l (c & mark & e & -> & Hc & He) _ IH]; intros d m; simpl.
  - intros [= <-]. auto.
  - intros Hm Hd. apply (IH _ _ Hm). intros k v.
    rewrite lookup_insert. case_decide as Hk.
    + intros [= <-]. subst k. split.
      * apply base13B_cases in Hc as [->|[->|[->| ->]]];
          repeat first [apply list_elem_of_here | apply list_elem_of_further].
      * apply base13H_cases in He as [->|[->|[->| ->]]];
          repeat first [apply list_elem_of_here | apply list_elem_of_further].
    + apply Hd.
Qed.

(** C10.  Whatever the advance tokens of the play, when the sub-events
    were classified by [_subeventParser] and [playerAdvances] returns a
    map, every key of the map is one of B, 1, 2, 3 and every value one of
    1, 2, 3, H. *)
Theorem advances_within_bases (ps : PlaySplit.t) (ss : list string)
    (subs : list Subevent.t) (m : gmap string string) :
  mapM _subeventParser ss = Ok subs ->
  playerAdvances list_of_set ps subs = Ok m ->
  forall k v, m !! k = Some v ->
    k ∈ ["B"; "1"; "2"; "3"] /\ v ∈ ["1"; "2"; "3"; "H"].
Proof.
  intros Hsubs Hm. apply mapM_Ok in Hsubs.
  unfold playerAdvances in Hm. apply bind_Ok in Hm as (l & _ & Hm).
  eapply advances_dict_bases; [|exact Hm|].
  - apply Forall_forall. intros a Ha.
    apply elem_of_list_of_set, elem_of_difference in Ha as [Ha _].
    apply elem_of_list_to_set, elem_of_app in Ha as [Ha|Ha].
    + revert a Ha. apply Forall_forall, advs_loop_advance3. constructor.
    + apply list_elem_of_In, in_flat_map in Ha as (e & He & Ha).
      apply list_elem_of_In in He, Ha.
      apply list_elem_of_lookup in He as (i & He).
      destruct (Forall2_lookup_r _ _ _ _ _ Hsubs He) as (s & _ & Hs).
      revert a Ha. apply Forall_forall. exact (subeventParser_implicit s e Hs).
  - intros k v. rewrite lookup_empty. discriminate.
Qed.

(** *** The derived columns *)

Lemma runsScored_count (m : gmap string string) :
  runsScored m = length (filter (fun kv => kv.2 = "H") (map_to_list m)).
Proof.
  unfold runsScored. induction (map_to_list m) as [|[k v] l IH]; simpl; [reflexivity|].
  rewrite IH, filter_cons. simpl.
  destruct (String.eqb_spec v "H") as [->|Hv].
  - rewrite decide_True by reflexivity. reflexivity.
  - rewrite decide_False by exact Hv. reflexivity.
Qed.

(** C8.  In a table returned by [enhancePlays], on every row: the number
    of outs is the number of distinct players out, the list of players out
    has no duplicate, the advance map has each key once, and the runs
    scored are the entries of the advance map whose value is H. *)
Theorem derived_play_invariants (plays : list Play.t) (f : Frame.t) (i : nat)
    (outs : list string) (n : nat) (m : gmap string string) (r : nat) :
  enhancePlays list_of_set plays = Ok f ->
  Frame.playersOut f !! i = Some outs ->
  Frame.outsOnPlay f !! i = Some n ->
  Frame.playerAdvances f !! i = Some m ->
  Frame.runsScored f !! i = Some r ->
  n = size (list_to_set outs : gset string) /\
  NoDup outs /\
  NoDup (map_to_list m).*1 /\
  r = length (filter (fun kv => kv.2 = "H") (map_to_list m)).
Proof.
  unfold enhancePlays. intros H.
  apply bind_Ok in H as (c1 & _ & H). apply bind_Ok in H as (c2 & _ & H).
  apply bind_Ok in H as (c3 & _ & H). apply bind_Ok in H as (c4 & _ & H).
  apply bind_Ok in H as (c5 & _ & H). apply bind_Ok in H as (c6 & H6 & H).
  apply bind_Ok in H as (c7 & _ & H). injection H as <-. simpl.
  intros Houts Hn Hm Hr.
  rewrite list_lookup_fmap, Houts in Hn. injection Hn as <-.
  rewrite list_lookup_fmap, Hm in Hr. injection Hr as <-.
  apply mapM_Ok in H6.
  destruct (Forall2_lookup_r _ _ _ _ _ H6 Houts) as ([ps subs] & _ & Hp).
  destruct (playersOut_spec ps subs) as (outs' & Hok & Hnd & _).
  simpl in Hp. rewrite Hok in Hp. injection Hp as ->.
  split; [symmetry; now apply size_list_to_set|]. split; [exact Hnd|].
  split; [apply NoDup_fst_map_to_list | apply runsScored_count].
Qed.

End Listing.

(** C5, as stated, fails on the play [64(1)3.2X3]: its sub-events are two
    Outs, the description is Double Play, and three players are out, the
    third by the advance token [2X3]. *)
Lemma double_play_three_outs :
  ~ two_outs_statement elements
      (PlaySplit.Make "64(1)3" [] ["2X3"])
      [Subevent.Make "Out" ["1"] []; Subevent.Make "Out" ["B"] []].
Proof.
  intros H. destruct H as [_ (outs & Hok & Hlen)]; [reflexivity|reflexivity|].
  vm_compute in Hok. injection Hok as <-. discriminate Hlen.
Qed.

Example double_play_three_outs_play :
  (ps ← _playSplitter "64(1)3.2X3";
   ss ← _subevent_splitter (PlaySplit.event ps);
   subs ← mapM _subeventParser ss;
   Ok (ps, subs)) =
  Ok (PlaySplit.Make "64(1)3" [] ["2X3"],
      [Subevent.Make "Out" ["1"] []; Subevent.Make "Out" ["B"] []]).
Proof. reflexivity. Qed.

(** ** Parenthesis depth and the splitters *)

Lemma prefix_cons n c s : prefix (S n) (String c s) = String c (prefix n s).
Proof. reflexivity. Qed.

Lemma prefix_zero s : prefix 0 s = "".
Proof. destruct s; reflexivity. Qed.

Lemma prefix_empty n : prefix n "" = "".
Proof. destruct n; reflexivity. Qed.

Lemma goes_negative_dips s :
  forall nb, (0 <= nb)%Z ->
    goes_negative nb s = true <-> exists n, (nb + depth (prefix n s) < 0)%Z.
Proof.
  induction s as [|c s IH]; intros nb Hnb; simpl.
  - split; [discriminate|]. intros (n & H). rewrite prefix_empty in H.
    simpl in H. lia.
  - rewrite orb_true_iff, Z.ltb_lt. split.
    + intros [H|H].
      * exists 1. rewrite prefix_cons, prefix_zero. simpl. lia.
      * destruct (Z.lt_ge_cases (nb + paren_step c) 0) as [Hlt|Hge].
        -- exists 1. rewrite prefix_cons, prefix_zero. simpl. lia.
        -- apply (IH _ Hge) in H as (n & H). exists (S n).
           rewrite prefix_cons. simpl. lia.
    + intros ([|n] & H).
      * rewrite prefix_zero in H. simpl in H. lia.
      * rewrite prefix_cons in H. simpl in H.
        destruct (Z.lt_ge_cases (nb + paren_step c) 0) as [Hlt|Hge]; [auto|].
        right. apply (IH _ Hge). exists n. lia.
Qed.

Lemma unbalanced_iff s :
  unbalanced s <-> goes_negative 0 s = true \/ depth s <> 0%Z.
Proof.
  unfold unbalanced, dips. rewrite (goes_negative_dips s 0) by lia.
  split; (intros [(n & H)|H]; [left; exists n; lia | right; exact H]).
Qed.

Lemma depth_append a b : depth (a +:+ b) = (depth a + depth b)%Z.
Proof. induction a as [|c a IH]; simpl; [reflexivity | rewrite IH; lia]. Qed.

Lemma goes_negative_append a b nb :
  goes_negative nb (a +:+ b) = goes_negative nb a || goes_negative (nb + depth a) b.
Proof.
  revert nb. induction a as [|c a IH]; intros nb; simpl.
  - now rewrite Z.add_0_r.
  - rewrite IH, orb_assoc. do 2 f_equal. lia.
Qed.

Lemma paren_step_other c : c <> "("%char -> c <> ")"%char -> paren_step c = 0%Z.
Proof.
  intros H1 H2. unfold paren_step.
  destruct (Ascii.eqb_spec c "("); [contradiction|].
  destruct (Ascii.eqb_spec c ")"); [contradiction|reflexivity].
Qed.

Lemma balanced_depth s :
  balanced s -> depth s = 0%Z /\ forall nb, (0 <= nb)%Z -> goes_negative nb s = false.
Proof.
  induction 1 as [|c s H1 H2 _ [IHd IHn]|s1 s2 _ [IHd1 IHn1] _ [IHd2 IHn2]].
  - split; [reflexivity|]. intros nb _. reflexivity.
  - simpl. rewrite (paren_step_other c H1 H2). split; [lia|].
    intros nb Hnb. rewrite Z.add_0_r, (IHn nb Hnb).
    apply orb_false_iff. split; [apply Z.ltb_ge; lia | reflexivity].
  - split.
    + rewrite depth_append. simpl. change (paren_step "(") with 1%Z.
      change (paren_step ")") with (-1)%Z. lia.
    + intros nb Hnb. rewrite goes_negative_append. simpl.
      change (paren_step "(") with 1%Z. change (paren_step ")") with (-1)%Z.
      rewrite (IHn1 (nb + 1)%Z) by lia. rewrite IHd1.
      replace (nb + (1 + 0) + -1)%Z with nb by lia.
      rewrite (IHn2 nb Hnb).
      repeat (apply orb_false_iff; split); try reflexivity; apply Z.ltb_ge; lia.
Qed.

Lemma balanced_not_unbalanced s : balanced s -> ~ unbalanced s.
Proof.
  intros H. apply balanced_depth in H as [Hd Hn]. rewrite unbalanced_iff.
  rewrite (Hn 0%Z) by lia. intros [?|?]; [discriminate | contradiction].
Qed.

Lemma thinned_depth s s' :
  thinned s s' ->
  depth s' = depth s /\
  forall nb, (0 <= nb)%Z -> goes_negative nb s' = goes_negative nb s.
Proof.
  induction 1 as [|c s s' _ [IHd IHn]|c s s' H1 H2 _ [IHd IHn]]; simpl.
  - auto.
  - rewrite IHd. split; [reflexivity|]. intros nb Hnb.
    destruct (Z.ltb_spec (nb + paren_step c) 0) as [Hlt|Hge]; [reflexivity|].
    simpl. now apply IHn.
  - rewrite (paren_step_other c H1 H2), IHd. split; [lia|].
    intros nb Hnb. rewrite (IHn nb Hnb), Z.add_0_r.
    destruct (Z.ltb_spec nb 0) as [Hlt|Hge]; [lia | reflexivity].
Qed.

Lemma thinned_unbalanced s s' : thinned s s' -> unbalanced s' <-> unbalanced s.
Proof.
  intros H. apply thinned_depth in H as [Hd Hn].
  rewrite !unbalanced_iff, Hd, (Hn 0%Z) by lia. reflexivity.
Qed.

(** The counter of the loops is the depth read so far; the loops raise
    when it goes below zero. *)
Lemma loop_step_nb c (nb : Z) (sep_here : bool) (l : list nat) (i : nat) :
  (let '(nb', l') :=
     if Ascii.eqb c "(" then ((nb + 1)%Z, l)
     else if Ascii.eqb c ")" then ((nb - 1)%Z, l)
     else if sep_here then (nb, l ++ [i]) else (nb, l) in nb') = (nb + paren_step c)%Z.
Proof.
  unfold paren_step. destruct (Ascii.eqb c "("); [reflexivity|].
  destruct (Ascii.eqb c ")"); [reflexivity|]. destruct sep_here; simpl; lia.
Qed.

Lemma sep_loop_spec separators s :
  forall i nb l,
    match sep_loop separators i nb l s with
    | Ok (nb', _) => goes_negative nb s = false /\ nb' = (nb + depth s)%Z
    | Raise e => e = SyntaxError /\ goes_negative nb s = true
    end.
Proof.
  induction s as [|c s IH]; intros i nb l; simpl.
  - split; [reflexivity | lia].
  - pose proof (loop_step_nb c nb
      (is_match separators (String c "") && (nb =? 0)%Z) l i) as Hstep.
    destruct (if Ascii.eqb c "(" then _ else _) as [nb1 l1].
    subst nb1. destruct (Z.ltb_spec (nb + paren_step c) 0) as [Hlt|Hge]; simpl.
    + auto.
    + specialize (IH (S i) (nb + paren_step c)%Z l1).
      destruct (sep_loop _ _ _ _ _) as [[nb' l']|e].
      * destruct IH as [-> ->]. split; [reflexivity | lia].
      * exact IH.
Qed.

Lemma event_loop_spec s :
  forall i nb prev l,
    match event_loop i nb prev l s with
    | Ok (nb', _) => goes_negative nb s = false /\ nb' = (nb + depth s)%Z
    | Raise e => e = SyntaxError /\ goes_negative nb s = true
    end.
Proof.
  induction s as [|c s IH]; intros i nb prev l; simpl.
  - split; [reflexivity | lia].
  - pose proof (loop_step_nb c nb (prev && (nb =? 0)%Z) l i) as Hstep.
    destruct (if Ascii.eqb c "(" then _ else _) as [nb1 l1].
    subst nb1. destruct (Z.ltb_spec (nb + paren_step c) 0) as [Hlt|Hge]; simpl.
    + auto.
    + specialize (IH (S i) (nb + paren_step c)%Z (Ascii.eqb c ")") l1).
      destruct (event_loop _ _ _ _ _) as [[nb' l']|e].
      * destruct IH as [-> ->]. split; [reflexivity | lia].
      * exact IH.
Qed.

Lemma goes_negative_false_depth s :
  forall nb, goes_negative nb s = false -> (0 <= nb)%Z -> (0 <= nb + depth s)%Z.
Proof.
  induction s as [|c s IH]; intros nb; simpl; [lia|].
  intros [H1 H2]%orb_false_iff Hnb. apply Z.ltb_ge in H1.
  specialize (IH _ H2 H1). lia.
Qed.

Lemma event_splitter_spec s :
  match _event_splitter s with
  | Ok _ => ~ unbalanced s
  | Raise e => e = SyntaxError /\ unbalanced s
  end.
Proof.
  unfold _event_splitter. pose proof (event_loop_spec s 0 0%Z false [0]) as H.
  destruct (event_loop _ _ _ _ _) as [[nb l]|e]; simpl.
  - destruct H as [Hn ->]. simpl.
    pose proof (goes_negative_false_depth s 0%Z Hn) as Hge.
    change (0 + depth s)%Z with (depth s) in *. specialize (Hge ltac:(lia)).
    destruct (Z.ltb_spec 0 (depth s)) as [Hlt|Hle]; simpl; rewrite unbalanced_iff, Hn.
    + split; [reflexivity|]. right. lia.
    + intros [?|?]; [discriminate | lia].
  - destruct H as [-> H]. split; [reflexivity|]. apply unbalanced_iff. now left.
Qed.

Lemma match_at_either_end separators bol s st :
  one_char_separator separators ->
  match_at (at_either_end separators) bol s = Some st ->
  exists c, s = String c (rest st) /\ c <> "("%char /\ c <> ")"%char.
Proof.
  intros Hsep H. apply match_at_Some in H. unfold at_either_end in H.
  inv_run;
    match goal with
    | Hr : _ ∈ run _ _ |- _ => apply Hsep in Hr as (c & ? & ? & ?)
    end; subst; simpl in *; subst; simpl; eauto.
Qed.

Lemma sub_either_end_thinned separators s :
  one_char_separator separators ->
  forall bol, thinned s (sub_from (at_either_end separators) "" bol 0 s).
Proof.
  intros Hsep. induction s as [|c s IH]; intros bol; simpl.
  - destruct (match_at _ _ _); simpl; constructor.
  - destruct (match_at _ _ _) as [st|] eqn:E.
    + apply (match_at_either_end _ _ _ _ Hsep) in E as (c' & [= <- Hs] & H1 & H2).
      rewrite <- Hs.
      replace (S (String.length s) - String.length s) with 1 by lia. simpl.
      apply thinned_drop; [exact H1 | exact H2 | apply IH].
    + apply thinned_keep, IH.
Qed.

Lemma slash_or_dot_one_char : one_char_separator slash_or_dot.
Proof.
  intros st st' H. unfold slash_or_dot in H.
  inv_run; subst; simpl; eexists; (split; [eassumption|]); split; discriminate.
Qed.

Lemma plus_sign_one_char : one_char_separator plus_sign.
Proof.
  intros st st' H. unfold plus_sign in H.
  inv_run; subst; simpl; eexists; (split; [eassumption|]); split; discriminate.
Qed.

Lemma split_sep_spec separators s :
  one_char_separator separators ->
  match split_sep_rspct_paren s separators with
  | Ok _ => ~ unbalanced s
  | Raise e => e = SyntaxError /\ unbalanced s
  end.
Proof.
  intros Hsep. unfold split_sep_rspct_paren, sub.
  pose proof (sub_either_end_thinned separators s Hsep true) as Hthin.
  apply thinned_unbalanced in Hthin.
  set (s' := sub_from _ _ _ _ _) in *.
  pose proof (sep_loop_spec separators s' 0 0%Z [0]) as H.
  destruct (sep_loop _ _ _ _ _) as [[nb l]|e]; simpl.
  - destruct H as [Hn ->].
    pose proof (goes_negative_false_depth s' 0%Z Hn) as Hge.
    change (0 + depth s')%Z with (depth s') in *. specialize (Hge ltac:(lia)).
    destruct (Z.ltb_spec 0 (depth s')) as [Hlt|Hle]; simpl;
      rewrite <- Hthin, unbalanced_iff, Hn.
    + split; [reflexivity|]. right. lia.
    + intros [?|?]; [discriminate | lia].
  - destruct H as [-> H]. split; [reflexivity|]. apply Hthin, unbalanced_iff. now left.
Qed.

Lemma spec_raises_iff (f : string -> result (list string)) s :
  match f s with
  | Ok _ => ~ unbalanced s
  | Raise e => e = SyntaxError /\ unbalanced s
  end -> raises_iff_unbalanced f s.
Proof.
  unfold raises_iff_unbalanced. destruct (f s) as [l|e].
  - intros H. split; [split; [discriminate | contradiction] | eauto].
  - intros [-> H]. split; [split; auto | contradiction].
Qed.

(** C6.  Each splitter raises the syntax error exactly on the texts whose
    parenthesis depth is negative after some prefix or is not zero at the
    end, and returns the pieces otherwise; [46(1] raises; on a balanced
    text the depth is never negative and is zero at the end, the loop ends
    with its counter at zero, and nothing is raised. *)
Theorem splitters_raise_iff_unbalanced (s : string) :
  raises_iff_unbalanced (fun s => split_sep_rspct_paren s slash_or_dot) s /\
  raises_iff_unbalanced (fun s => split_sep_rspct_paren s plus_sign) s /\
  raises_iff_unbalanced _event_splitter s /\
  split_sep_rspct_paren "46(1" slash_or_dot = Raise SyntaxError /\
  _event_splitter "46(1" = Raise SyntaxError /\
  (balanced s ->
     (forall n, (0 <= depth (prefix n s))%Z) /\ depth s = 0%Z /\
     (exists l, event_loop 0 0%Z false [0] s = Ok (0%Z, l)) /\
     (exists pieces, _event_splitter s = Ok pieces) /\
     (exists pieces, split_sep_rspct_paren s slash_or_dot = Ok pieces)).
Proof.
  pose proof (spec_raises_iff (fun s => split_sep_rspct_paren s slash_or_dot) s
                (split_sep_spec _ s slash_or_dot_one_char)) as H1.
  pose proof (spec_raises_iff (fun s => split_sep_rspct_paren s plus_sign) s
                (split_sep_spec _ s plus_sign_one_char)) as H2.
  pose proof (spec_raises_iff _event_splitter s (event_splitter_spec s)) as H3.
  split; [exact H1|]. split; [exact H2|]. split; [exact H3|].
  split; [reflexivity|]. split; [reflexivity|].
  intros Hbal. pose proof (balanced_not_unbalanced s Hbal) as Hnot.
  pose proof (balanced_depth s Hbal) as [Hd Hn].
  split; [|split; [exact Hd|split; [|split]]].
  - intros n. destruct (Z.lt_ge_cases (depth (prefix n s)) 0) as [Hlt|Hge]; [|exact Hge].
    exfalso. apply Hnot. left. exists n. exact Hlt.
  - pose proof (event_loop_spec s 0 0%Z false [0]) as H.
    destruct (event_loop _ _ _ _ _) as [[nb l]|e].
    + destruct H as [_ ->]. exists l. rewrite Hd. reflexivity.
    + destruct H as [_ H]. rewrite (Hn 0%Z) in H by lia. discriminate.
  - apply H3, Hnot.
  - apply H1, Hnot.
Qed.

(** ** The pieces of the splitters *)

Lemma substring_zero_zero s : String.substring 0 0 s = "".
Proof. destruct s; reflexivity. Qed.

Lemma append_assoc (a b c : string) : (a +:+ b) +:+ c = a +:+ (b +:+ c).
Proof. induction a as [|x a IH]; simpl; [reflexivity | now rewrite IH]. Qed.

Lemma slice_one done c s :
  slice (done +:+ String c s) (String.length done) (S (String.length done)) = String c "".
Proof.
  unfold slice. replace (S (String.length done) - String.length done) with 1 by lia.
  induction done as [|a done IH]; simpl; [now rewrite substring_zero_zero | exact IH].
Qed.

Lemma substring_snoc done c s :
  forall j k, j + k = String.length done ->
    String.substring j (S k) (done +:+ String c s)
    = String.substring j k (done +:+ String c s) +:+ String c "".
Proof.
  induction done as [|a done IH]; intros j k Hjk; simpl in *.
  - assert (j = 0) as -> by lia. assert (k = 0) as -> by lia.
    simpl. now rewrite substring_zero_zero.
  - destruct j as [|j].
    + destruct k as [|k]; [discriminate|]. simpl. f_equal. apply IH. lia.
    + apply IH. lia.
Qed.

Lemma slice_snoc done c s j :
  j <= String.length done ->
  slice (done +:+ String c s) j (S (String.length done))
  = slice (done +:+ String c s) j (String.length done) +:+ String c "".
Proof.
  intros Hj. unfold slice.
  replace (S (String.length done) - j) with (S (String.length done - j)) by lia.
  apply substring_snoc. lia.
Qed.

Lemma append_snoc_cons done c s : (done +:+ String c "") +:+ s = done +:+ String c s.
Proof. now rewrite append_assoc. Qed.

Lemma length_snoc done c : String.length (done +:+ String c "") = S (String.length done).
Proof. rewrite length_append. simpl. lia. Qed.

Section ChunksFacts.
Context {St : Type} (boundary : St -> ascii -> bool) (next : St -> ascii -> St).

(** The slices between the cuts are the pieces. *)
Lemma chunks_slices s :
  forall st done j, j <= String.length done ->
    map (fun '(a, b) => slice (done +:+ s) a b)
        (pairs_of ((j :: cuts boundary next st (String.length done) s)
                   ++ [String.length (done +:+ s)]))
    = chunks boundary next st (slice (done +:+ s) j (String.length done)) s.
Proof.
  induction s as [|c s IH]; intros st done j Hj.
  - simpl. rewrite length_append. simpl. rewrite Nat.add_0_r. reflexivity.
  - simpl chunks. simpl cuts.
    specialize (IH (next st c) (done +:+ String c "")).
    rewrite append_snoc_cons, length_snoc in IH.
    destruct (boundary st c).
    + simpl. f_equal. rewrite <- (slice_one done c s). apply IH. lia.
    + simpl app at 2. rewrite <- slice_snoc by exact Hj. apply IH. lia.
Qed.

(** The pieces lose nothing of the text. *)
Lemma concat_chunks s :
  forall st cur, fold_right String.append "" (chunks boundary next st cur s) = cur +:+ s.
Proof.
  induction s as [|c s IH]; intros st cur; simpl.
  - reflexivity.
  - destruct (boundary st c); simpl; rewrite IH; [reflexivity|].
    apply append_snoc_cons.
Qed.
End ChunksFacts.

Lemma separator_not_paren separators c :
  one_char_separator separators ->
  is_match separators (String c "") = true -> c <> "("%char /\ c <> ")"%char.
Proof.
  intros Hsep (st & H)%is_match_true. apply Hsep in H as (c' & [= <- _] & H1 & H2). auto.
Qed.

Lemma event_loop_cuts s :
  forall i nb prev l nb' l',
    event_loop i nb prev l s = Ok (nb', l') ->
    l' = l ++ cuts close_boundary close_next (nb, prev) i s.
Proof.
  induction s as [|c s IH]; intros i nb prev l nb' l'; simpl.
  - intros [= _ <-]. now rewrite app_nil_r.
  - unfold close_boundary, close_next, paren_step. simpl.
    destruct (Ascii.eqb c "(") eqn:E1; [|destruct (Ascii.eqb c ")") eqn:E2]; simpl.
    + rewrite andb_false_r. simpl.
      destruct (nb + 1 <? 0)%Z; [discriminate|]. apply IH.
    + rewrite andb_true_r.
      destruct (Z.ltb_spec (nb - 1) 0) as [Hlt|Hge]; [discriminate|].
      replace (nb =? 0)%Z with false by (symmetry; apply Z.eqb_neq; lia).
      rewrite andb_false_r. simpl. replace (nb + -1)%Z with (nb - 1)%Z by lia. apply IH.
    + rewrite andb_true_r, Z.add_0_r.
      destruct (prev && (nb =? 0)%Z); simpl.
      * destruct (nb <? 0)%Z; [discriminate|]. intros H. apply IH in H as ->.
        now rewrite <- app_assoc.
      * destruct (nb <? 0)%Z; [discriminate|]. apply IH.
Qed.

Lemma sep_loop_cuts separators s :
  one_char_separator separators ->
  forall i nb l nb' l',
    sep_loop separators i nb l s = Ok (nb', l') ->
    l' = l ++ cuts (sep_boundary separators) sep_next nb i s.
Proof.
  intros Hsep. induction s as [|c s IH]; intros i nb l nb' l'; simpl.
  - intros [= _ <-]. now rewrite app_nil_r.
  - unfold sep_boundary, sep_next, paren_step.
    destruct (is_match separators (String c "")) eqn:Em.
    + destruct (separator_not_paren _ _ Hsep Em) as [H1 H2].
      apply Ascii.eqb_neq in H1, H2. rewrite H1, H2, Z.add_0_r. simpl.
      destruct (nb =? 0)%Z; simpl.
      * destruct (nb <? 0)%Z; [discriminate|]. intros H. apply IH in H as ->.
        now rewrite <- app_assoc.
      * destruct (nb <? 0)%Z; [discriminate|]. apply IH.
    + simpl.
      destruct (Ascii.eqb c "("); [|destruct (Ascii.eqb c ")")]; simpl.
      * destruct (nb + 1 <? 0)%Z; [discriminate|]. apply IH.
      * replace (nb + -1)%Z with (nb - 1)%Z by lia.
        destruct (nb - 1 <? 0)%Z; [discriminate|]. apply IH.
      * rewrite Z.add_0_r. destruct (nb <? 0)%Z; [discriminate|]. apply IH.
Qed.

Lemma slice_zero_zero s : slice s 0 0 = "".
Proof. unfold slice. apply substring_zero_zero. Qed.

Lemma event_splitter_pieces s :
  _event_splitter s =
  if goes_negative 0 s || (0 <? depth s)%Z then Raise SyntaxError
  else Ok (break_after_close s).
Proof.
  unfold _event_splitter.
  pose proof (event_loop_spec s 0 0%Z false [0]) as H.
  pose proof (event_loop_cuts s 0 0%Z false [0]) as Hcuts.
  destruct (event_loop _ _ _ _ _) as [[nb l]|e]; simpl.
  - destruct H as [-> ->]. change (0 + depth s)%Z with (depth s). simpl.
    destruct (0 <? depth s)%Z; [reflexivity|]. f_equal.
    rewrite (Hcuts _ _ eq_refl). unfold break_after_close.
    rewrite <- (slice_zero_zero s). apply (chunks_slices _ _ s _ "" 0). simpl. lia.
  - destruct H as [-> ->]. reflexivity.
Qed.

Lemma split_sep_pieces separators s :
  one_char_separator separators ->
  let s' := sub (at_either_end separators) "" s in
  split_sep_rspct_paren s separators =
  if goes_negative 0 s' || (0 <? depth s')%Z then Raise SyntaxError
  else Ok (break_before separators s').
Proof.
  intros Hsep s'. unfold split_sep_rspct_paren. fold s'.
  pose proof (sep_loop_spec separators s' 0 0%Z [0]) as H.
  pose proof (sep_loop_cuts separators s' Hsep 0 0%Z [0]) as Hcuts.
  destruct (sep_loop _ _ _ _ _) as [[nb l]|e]; simpl.
  - destruct H as [-> ->]. change (0 + depth s')%Z with (depth s'). simpl.
    destruct (0 <? depth s')%Z; [reflexivity|]. f_equal.
    rewrite (Hcuts _ _ eq_refl). unfold break_before.
    rewrite <- (slice_zero_zero s'). apply (chunks_slices _ _ s' _ "" 0). simpl. lia.
  - destruct H as [-> ->]. reflexivity.
Qed.

(** The pieces cut before separators at depth zero are balanced when the
    text is. *)
Lemma break_before_balanced separators s :
  one_char_separator separators ->
  forall nb cur,
    depth cur = nb -> goes_negative 0 cur = false ->
    goes_negative nb s = false -> (nb + depth s = 0)%Z ->
    Forall (fun p => goes_negative 0 p = false /\ depth p = 0%Z)
           (chunks (sep_boundary separators) sep_next nb cur s).
Proof.
  intros Hsep. induction s as [|c s IH]; intros nb cur Hcur Hneg Hs Hd; simpl in *.
  - apply Forall_singleton. split; [exact Hneg | lia].
  - apply orb_false_iff in Hs as [Hc Hs]. apply Z.ltb_ge in Hc.
    unfold sep_boundary at 1.
    destruct (is_match separators (String c "")) eqn:Em;
      [destruct (Z.eqb_spec nb 0) as [->|Hnz]|]; simpl.
    + destruct (separator_not_paren _ _ Hsep Em) as [H1 H2].
      pose proof (paren_step_other c H1 H2) as Hstep.
      constructor; [auto|]. apply IH.
      * simpl. unfold sep_next. lia.
      * simpl. rewrite Hstep. reflexivity.
      * exact Hs.
      * unfold sep_next. lia.
    + apply IH.
      * rewrite depth_append. simpl. unfold sep_next. lia.
      * rewrite goes_negative_append, Hneg. simpl. rewrite Hcur.
        apply orb_false_iff. split; [apply Z.ltb_ge; lia | reflexivity].
      * exact Hs.
      * unfold sep_next. lia.
    + apply IH.
      * rewrite depth_append. simpl. unfold sep_next. lia.
      * rewrite goes_negative_append, Hneg. simpl. rewrite Hcur.
        apply orb_false_iff. split; [apply Z.ltb_ge; lia | reflexivity].
      * exact Hs.
      * unfold sep_next. lia.
Qed.

Lemma mapM_event_splitter l :
  Forall (fun p => goes_negative 0 p = false /\ depth p = 0%Z) l ->
  mapM _event_splitter l = Ok (map break_after_close l).
Proof.
  induction 1 as [|p l [Hn Hd] _ IH]; simpl; [reflexivity|].
  rewrite event_splitter_pieces, Hn, Hd. simpl.
  unfold mbind, result_bind in *. fold (@mapM result _ _ _ _ _event_splitter) in *.
  rewrite IH. reflexivity.
Qed.

(** The segmenter follows its stages: on every event string it either
    raises the syntax error, when the parentheses are unbalanced, or
    returns the pieces of [segment]. *)
Lemma subevent_splitter_segment (event : string) :
  _subevent_splitter event =
    (if goes_negative 0 event || (0 <? depth event)%Z then Raise SyntaxError
     else Ok (segment event)).
Proof.
  unfold _subevent_splitter, segment.
  rewrite (split_sep_pieces plus_sign event plus_sign_one_char).
  pose proof (sub_either_end_thinned plus_sign event plus_sign_one_char true) as Hthin.
  apply thinned_depth in Hthin as [Hd Hn]. fold (sub (at_either_end plus_sign) "" event) in *.
  set (s' := sub (at_either_end plus_sign) "" event) in *.
  rewrite Hd, (Hn 0%Z) by lia.
  destruct (goes_negative 0 event) eqn:Hneg; [reflexivity|].
  destruct (Z.ltb_spec 0 (depth event)) as [Hlt|Hle]; [reflexivity|]. simpl.
  assert (depth s' = 0%Z) as Hzero.
  { rewrite <- (Hn 0%Z) in Hneg by lia.
    pose proof (goes_negative_false_depth s' 0%Z Hneg). lia. }
  rewrite mapM_event_splitter.
  - simpl. now rewrite flat_map_concat_map.
  - apply (break_before_balanced plus_sign s' plus_sign_one_char 0%Z "");
      [reflexivity | reflexivity | now rewrite (Hn 0%Z) by lia | lia].
Qed.

(** ** The embedding on the examples of the design notes *)

Example playSplitter_single :
  _playSplitter "S9.2-H" = Ok (PlaySplit.Make "S9" [] ["2-H"]).
Proof. reflexivity. Qed.

Example playSplitter_modifiers :
  _playSplitter "64(1)3/GDP/G6.2-3;1-2"
  = Ok (PlaySplit.Make "64(1)3" ["GDP"; "G6"] ["2-3"; "1-2"]).
Proof. reflexivity. Qed.

Example subeventParser_strikeout :
  _subeventParser "K" = Ok (Subevent.Make "Strikeout" ["B"] []).
Proof. reflexivity. Qed.

Example subeventParser_force_out_with_error :
  _subeventParser "46(1)(E6)" = Ok (Subevent.Make "Error" [] []).
Proof. reflexivity. Qed.

Example break_after_close_example :
  break_after_close "46(1)(E6)63" = ["46(1)(E6)"; "63"].
Proof. reflexivity. Qed.

Example segment_plus : segment "K+WP" = ["K"; "WP"].
Proof. reflexivity. Qed.

Example sample_frame_columns :
  Frame.basicPlayDesc sample_frame
    = ["Hit - Home Run"; "Double Play"; "Picked Off Base"; "Hit - Single"] /\
  Frame.playersOut sample_frame = [[]; ["1"; "B"]; [""]; []] /\
  Frame.outsOnPlay sample_frame = [0; 2; 1; 0] /\
  Frame.runsScored sample_frame = [1; 0; 0; 1].
Proof. repeat split; reflexivity. Qed.

(** ** The properties at sample plays *)

Lemma elements_lists_itself : forall X : gset string, elements X ≡ₚ elements X.
Proof. intros X. reflexivity. Defined.

Lemma explicit_advance_cancelled_witness :
  (forall X : gset string, elements X ≡ₚ elements X) /\
  playerAdvances elements (PlaySplit.Make "HR" [] ["1-H"; "B-H"])
    [Subevent.Make "Hit - Home Run" [] ["B-H"]] = Ok {[ "1" := "H" ]}.
Proof.
  split; [exact elements_lists_itself|].
  exact (proj2 (proj2 (explicit_advance_cancelled_by_implicit elements elements_lists_itself))).
Defined.

Lemma playersOut_explicit_tokens_witness :
  (forall X : gset string, elements X ≡ₚ elements X) /\
  exists outs,
    playersOut elements (PlaySplit.Make "CS3" [] ["2XH(E5)"])
      [Subevent.Make "Runner Caught Stealing" ["2"] []] = Ok outs /\
    "2" ∉ outs.
Proof.
  split; [exact elements_lists_itself|].
  destruct (playersOut_explicit_tokens elements elements_lists_itself
              (PlaySplit.Make "CS3" [] ["2XH(E5)"])
              [Subevent.Make "Runner Caught Stealing" ["2"] []] "2")
    as (outs & Hok & Herr & _).
  exists outs. split; [exact Hok|]. apply Herr.
  exists "2XH(E5)". split; [left|].
  exists "2"%char, "H(E5)". repeat split; reflexivity.
Defined.

Lemma double_play_amended_witness :
  (forall X : gset string, elements X ≡ₚ elements X) /\
  starts_with_out [Subevent.Make "Out" ["1"] []; Subevent.Make "Out" ["B"] []] /\
  count_outs [Subevent.Make "Out" ["1"] []; Subevent.Make "Out" ["B"] []] = 2 /\
  basicPlayDesc [Subevent.Make "Out" ["1"] []; Subevent.Make "Out" ["B"] []]
    = Ok "Double Play" /\
  exists outs,
    playersOut elements (PlaySplit.Make "64(1)3" ["GDP"] ["2-3"])
      [Subevent.Make "Out" ["1"] []; Subevent.Make "Out" ["B"] []] = Ok outs /\
    length outs = 2.
Proof.
  split; [exact elements_lists_itself|]. split; [reflexivity|]. split; [reflexivity|].
  destruct (double_play_amended elements elements_lists_itself
              (PlaySplit.Make "64(1)3" ["GDP"] ["2-3"])
              [Subevent.Make "Out" ["1"] []; Subevent.Make "Out" ["B"] []]
              eq_refl eq_refl) as (Hdesc & outs & Hok & Hlen).
  split; [exact Hdesc|]. exists outs. split; [exact Hok|].
  apply (Hlen "1" "B").
  - discriminate.
  - intros b. simpl. rewrite elem_of_cons, list_elem_of_singleton. reflexivity.
  - intros t b Ht%list_elem_of_singleton He. subst t.
    destruct He as [(c & tl & Heq & _)|(c & tl & Heq & _ & ->)].
    + discriminate Heq.
    + injection Heq as <- _. split; discriminate.
  - intros t b Ht%list_elem_of_singleton (c & tl & Heq & _). subst t.
    discriminate Heq.
Defined.

Lemma splitters_raise_iff_unbalanced_witness :
  balanced "46(1)(E6)63" /\
  (forall n, (0 <= depth (prefix n "46(1)(E6)63"))%Z) /\
  depth "46(1)(E6)63" = 0%Z /\
  (exists l, event_loop 0 0%Z false [0] "46(1)(E6)63" = Ok (0%Z, l)) /\
  (exists pieces, _event_splitter "46(1)(E6)63" = Ok pieces) /\
  (exists pieces, split_sep_rspct_paren "46(1)(E6)63" slash_or_dot = Ok pieces).
Proof.
  assert (balanced "46(1)(E6)63") as Hbal.
  { apply balanced_char; [discriminate|discriminate|].
    apply balanced_char; [discriminate|discriminate|].
    apply (balanced_paren "1" "(E6)63").
    - apply balanced_char; [discriminate|discriminate|]. apply balanced_empty.
    - apply (balanced_paren "E6" "63").
      + repeat (apply balanced_char; [discriminate|discriminate|]). apply balanced_empty.
      + repeat (apply balanced_char; [discriminate|discriminate|]). apply balanced_empty. }
  split; [exact Hbal|].
  exact (proj2 (proj2 (proj2 (proj2 (proj2
           (splitters_raise_iff_unbalanced "46(1)(E6)63"))))) Hbal).
Defined.

Lemma subeventParser_total_witness :
  no_rule_matches "XYZ" /\ _subeventParser "XYZ" = Ok unclassified.
Proof.
  assert (no_rule_matches "XYZ") as H by (repeat constructor).
  split; [exact H|]. exact (proj2 (subeventParser_total "XYZ") H).
Defined.

Lemma derived_play_invariants_witness :
  (forall X : gset string, elements X ≡ₚ elements X) /\
  enhancePlays elements sample_plays = Ok sample_frame /\
  Frame.playersOut sample_frame !! 1 = Some ["1"; "B"] /\
  Frame.outsOnPlay sample_frame !! 1 = Some 2 /\
  Frame.playerAdvances sample_frame !! 1 = Some {[ "2" := "3" ]} /\
  Frame.runsScored sample_frame !! 1 = Some 0 /\
  2 = size (list_to_set ["1"; "B"] : gset string) /\
  NoDup ["1"; "B"] /\
  NoDup (map_to_list ({[ "2" := "3" ]} : gmap string string)).*1 /\
  0 = length (filter (fun kv => kv.2 = "H")
                     (map_to_list ({[ "2" := "3" ]} : gmap string string))).
Proof.
  split; [exact elements_lists_itself|].
  assert (enhancePlays elements sample_plays = Ok sample_frame) as H0
    by (vm_compute; reflexivity).
  assert (Frame.playersOut sample_frame !! 1 = Some ["1"; "B"]) as H1 by reflexivity.
  assert (Frame.outsOnPlay sample_frame !! 1 = Some 2) as H2 by reflexivity.
  assert (Frame.playerAdvances sample_frame !! 1 = Some {[ "2" := "3" ]}) as H3
    by (vm_compute; reflexivity).
  assert (Frame.runsScored sample_frame !! 1 = Some 0) as H4 by reflexivity.
  repeat (split; [assumption|]).
  exact (derived_play_invariants elements elements_lists_itself sample_plays sample_frame 1
           ["1"; "B"] 2 {[ "2" := "3" ]} 0 H0 H1 H2 H3 H4).
Defined.

Lemma advances_within_bases_witness :
  (forall X : gset string, elements X ≡ₚ elements X) /\
  mapM _subeventParser ["S9"] = Ok [Subevent.Make "Hit - Single" [] ["B-1"]] /\
  playerAdvances elements (PlaySplit.Make "S9" [] ["2-H"])
    [Subevent.Make "Hit - Single" [] ["B-1"]] = Ok {[ "2" := "H"; "B" := "1" ]} /\
  ({[ "2" := "H"; "B" := "1" ]} : gmap string string) !! "2" = Some "H" /\
  "2" ∈ ["B"; "1"; "2"; "3"] /\ "H" ∈ ["1"; "2"; "3"; "H"].
Proof.
  split; [exact elements_lists_itself|].
  assert (mapM _subeventParser ["S9"] = Ok [Subevent.Make "Hit - Single" [] ["B-1"]])
    as H1 by reflexivity.
  assert (playerAdvances elements (PlaySplit.Make "S9" [] ["2-H"])
            [Subevent.Make "Hit - Single" [] ["B-1"]] = Ok {[ "2" := "H"; "B" := "1" ]})
    as H2 by (vm_compute; reflexivity).
  assert (({[ "2" := "H"; "B" := "1" ]} : gmap string string) !! "2" = Some "H")
    as H3 by (vm_compute; reflexivity).
  repeat (split; [assumption|]).
  exact (advances_within_bases elements elements_lists_itself (PlaySplit.Make "S9" [] ["2-H"])
           ["S9"] [Subevent.Make "Hit - Single" [] ["B-1"]] _ H1 H2 "2" "H" H3).
Defined.


(** * Further properties *)

(** ** The pieces of the splitters, continued *)

Lemma join_empty_sep l : join "" l = fold_right String.append "" l.
Proof.
  induction l as [|x [|y l] IH]; simpl in *; [reflexivity| |].
  - clear IH. induction x as [|c x IHx]; simpl; [reflexivity | now rewrite <- IHx].
  - now rewrite IH.
Qed.

Lemma chunks_not_nil {St : Type} (boundary : St -> ascii -> bool) (next : St -> ascii -> St) s :
  forall st cur, chunks boundary next st cur s <> [].
Proof.
  induction s as [|c s IH]; intros st cur; simpl; [discriminate|].
  destruct (boundary st c); [discriminate | apply IH].
Qed.

Lemma append_nil_r (s : string) : s +:+ "" = s.
Proof. induction s as [|c s IH]; simpl; [reflexivity | now rewrite IH]. Qed.

(** The pieces cut after closing parentheses: the first one continues the
    piece being read; all are balanced; each later one opens with a
    character that is no parenthesis; each but the last ends with a closing
    parenthesis. *)
Lemma close_chunks_shape s :
  forall nb prev cur,
    goes_negative nb s = false -> (nb + depth s = 0)%Z ->
    depth cur = nb -> goes_negative 0 cur = false ->
    (prev = true -> exists pre, cur = pre +:+ ")") ->
    exists suffix rest,
      chunks close_boundary close_next (nb, prev) cur s = (cur +:+ suffix) :: rest /\
      Forall (fun p => goes_negative 0 p = false /\ depth p = 0%Z) ((cur +:+ suffix) :: rest) /\
      Forall (fun p => exists c tl, p = String c tl /\ c <> "("%char /\ c <> ")"%char) rest /\
      (rest <> [] -> exists pre, cur +:+ suffix = pre +:+ ")") /\
      Forall (fun p => exists pre, p = pre +:+ ")") (removelast rest).
Proof.
  induction s as [|c s IH]; intros nb prev cur Hs Hd Hcur Hneg Hprev.
  - exists "", []. rewrite append_nil_r. split; [reflexivity|]. simpl in Hd.
    split; [|split; [|split]].
    + apply Forall_singleton. split; [exact Hneg | lia].
    + constructor.
    + intros H. contradiction.
    + constructor.
  - cbn [goes_negative depth] in Hs, Hd.
    apply orb_false_iff in Hs as [Hc Hs]. apply Z.ltb_ge in Hc.
    cbn [chunks].
    change (close_next (nb, prev) c) with ((nb + paren_step c)%Z, Ascii.eqb c ")").
    change (close_boundary (nb, prev) c)
      with (prev && (nb =? 0)%Z && negb (Ascii.eqb c "(")).
    destruct (prev && (nb =? 0)%Z && negb (Ascii.eqb c "(")) eqn:Eb.
    + apply andb_true_iff in Eb as [[Hp Hz%Z.eqb_eq]%andb_true_iff Hopen].
      apply negb_true_iff, Ascii.eqb_neq in Hopen.
      assert (c <> ")"%char) as Hclose.
      { intros ->. change (paren_step ")") with (-1)%Z in Hc. lia. }
      pose proof (paren_step_other c Hopen Hclose) as Hstep.
      destruct (IH (nb + paren_step c)%Z (Ascii.eqb c ")") (String c "")) as
        (suffix & rest & Heq & Hbal & Hstart & Hlast & Hend).
      * exact Hs.
      * lia.
      * cbn [depth]. lia.
      * cbn [goes_negative]. rewrite Hstep. reflexivity.
      * intros He%Ascii.eqb_eq. contradiction.
      * exists "", ((String c "" +:+ suffix) :: rest). rewrite append_nil_r, Heq.
        split; [reflexivity|]. split; [|split; [|split]].
        -- constructor; [split; [exact Hneg | lia] | exact Hbal].
        -- constructor; [|exact Hstart]. exists c, suffix. auto.
        -- intros _. apply Hprev, Hp.
        -- destruct rest as [|r rest]; [constructor|].
           change (removelast (?a :: r :: rest)) with (a :: removelast (r :: rest)).
           constructor; [apply Hlast; discriminate | exact Hend].
    + destruct (IH (nb + paren_step c)%Z (Ascii.eqb c ")") (cur +:+ String c "")) as
        (suffix & rest & Heq & Hbal & Hstart & Hlast & Hend).
      * exact Hs.
      * lia.
      * rewrite depth_append. cbn [depth]. lia.
      * rewrite goes_negative_append, Hneg. cbn [goes_negative orb]. rewrite Hcur.
        apply orb_false_iff. split; [apply Z.ltb_ge; lia | reflexivity].
      * intros He%Ascii.eqb_eq. subst c. exists cur. reflexivity.
      * rewrite append_snoc_cons in *. exists (String c suffix), rest. rewrite Heq. auto.
Qed.

Lemma event_splitter_balanced sentence pieces :
  _event_splitter sentence = Ok pieces ->
  Forall (fun p => ~ unbalanced p) pieces.
Proof.
  rewrite event_splitter_pieces.
  destruct (goes_negative 0 sentence) eqn:Hneg; [discriminate|].
  destruct (Z.ltb_spec 0 (depth sentence)) as [Hlt|Hle]; [discriminate|]. simpl.
  intros [= <-]. unfold break_after_close.
  pose proof (goes_negative_false_depth sentence 0%Z Hneg ltac:(lia)) as Hge.
  destruct (close_chunks_shape sentence 0%Z false "") as
    (suffix & rest & Heq & Hbal & _);
    [exact Hneg | lia | reflexivity | reflexivity | discriminate |].
  rewrite Heq. eapply Forall_impl; [exact Hbal|]. intros p [Hn Hd].
  rewrite unbalanced_iff, Hn, Hd. intros [?|?]; [discriminate | contradiction].
Qed.

(** X1.  When [_event_splitter] returns, joining its pieces gives back
    the sentence: nothing is lost and nothing is added. *)
Theorem event_splitter_join (sentence : string) (pieces : list string) :
  _event_splitter sentence = Ok pieces -> join "" pieces = sentence.
Proof.
  rewrite event_splitter_pieces. destruct (_ || _); [discriminate|].
  intros [= <-]. rewrite join_empty_sep. unfold break_after_close.
  now rewrite concat_chunks.
Qed.

(** X2.  When [_event_splitter] returns its pieces: every piece has
    balanced parentheses; every piece but the first opens with a character
    that is no parenthesis; every piece but the last ends with a closing
    parenthesis; and no piece is empty unless the sentence is. *)
Theorem event_splitter_shape (sentence : string) (pieces : list string) :
  _event_splitter sentence = Ok pieces ->
  Forall (fun p => ~ unbalanced p) pieces /\
  Forall (fun p => exists c tl, p = String c tl /\ c <> "("%char /\ c <> ")"%char)
         (tail pieces) /\
  Forall (fun p => exists pre, p = pre +:+ ")") (removelast pieces) /\
  (sentence <> "" -> Forall (fun p => p <> "") pieces).
Proof.
  rewrite event_splitter_pieces.
  destruct (goes_negative 0 sentence) eqn:Hneg; [discriminate|].
  destruct (Z.ltb_spec 0 (depth sentence)) as [Hlt|Hle]; [discriminate|]. simpl.
  intros [= <-]. unfold break_after_close.
  pose proof (goes_negative_false_depth sentence 0%Z Hneg ltac:(lia)) as Hge.
  destruct (close_chunks_shape sentence 0%Z false "") as
    (suffix & rest & Heq & Hbal & Hstart & Hlast & Hend);
    [exact Hneg | lia | reflexivity | reflexivity | discriminate |].
  rewrite Heq. change ("" +:+ suffix) with suffix in *. split; [|split; [|split]].
  - eapply Forall_impl; [exact Hbal|]. intros p [Hn Hd].
    rewrite unbalanced_iff, Hn, Hd. intros [?|?]; [discriminate | contradiction].
  - exact Hstart.
  - destruct rest as [|r rest]; [constructor|].
    change (removelast (?a :: r :: rest)) with (a :: removelast (r :: rest)).
    constructor; [apply Hlast; discriminate | exact Hend].
  - intros Hne. constructor.
    + intros ->.
      pose proof (concat_chunks close_boundary close_next sentence (0%Z, false) "") as Hc.
      rewrite Heq in Hc. simpl in Hc.
      destruct rest as [|r rest].
      * simpl in Hc. congruence.
      * destruct (Hlast ltac:(discriminate)) as (pre & Hpre).
        destruct pre; discriminate Hpre.
    + eapply Forall_impl; [exact Hstart|]. intros p (c & tl & -> & _). discriminate.
Qed.

(** The pieces cut before separators: the first continues the piece being
    read up to the next separator at depth zero; each later piece opens
    with a separator and holds no other separator at depth zero. *)
Lemma sep_chunks_shape separators s :
  one_char_separator separators ->
  forall nb cur,
    exists suffix rest,
      chunks (sep_boundary separators) sep_next nb cur s = (cur +:+ suffix) :: rest /\
      top_sep_free separators nb suffix = true /\
      Forall (fun p => exists c tl, p = String c tl /\ is_match separators (String c "") = true /\
                                    top_sep_free separators 0 tl = true) rest.
Proof.
  intros Hsep. induction s as [|c s IH]; intros nb cur.
  - exists "", []. rewrite append_nil_r. repeat split. constructor.
  - cbn [chunks]. destruct (sep_boundary separators nb c) eqn:Eb.
    + destruct (IH (sep_next nb c) (String c "")) as (suffix & rest & -> & Hfree & Hrest).
      unfold sep_boundary in Eb. apply andb_true_iff in Eb as [Em Hz%Z.eqb_eq].
      destruct (separator_not_paren _ _ Hsep Em) as [H1 H2].
      unfold sep_next in Hfree. rewrite Hz, (paren_step_other c H1 H2) in Hfree.
      exists "", ((String c "" +:+ suffix) :: rest). rewrite append_nil_r.
      split; [reflexivity|]. split; [reflexivity|].
      constructor; [|exact Hrest]. exists c, suffix. auto.
    + destruct (IH (sep_next nb c) (cur +:+ String c "")) as (suffix & rest & -> & Hfree & Hrest).
      exists (String c suffix), rest. rewrite append_snoc_cons.
      split; [reflexivity|]. split; [|exact Hrest].
      cbn [top_sep_free]. rewrite Eb, Hfree. reflexivity.
Qed.

(** X3.  When [split_sep_rspct_paren] returns, joining its pieces gives
    back the sentence as it is after the separator at its start and the
    one at its end were removed, and that sentence is the given one less
    some characters that are no parentheses. *)
Theorem split_sep_join (sentence : string) (separators : regex) (pieces : list string) :
  one_char_separator separators ->
  split_sep_rspct_paren sentence separators = Ok pieces ->
  join "" pieces = sub (at_either_end separators) "" sentence /\
  thinned sentence (sub (at_either_end separators) "" sentence).
Proof.
  intros Hsep. rewrite (split_sep_pieces separators sentence Hsep). cbv zeta.
  destruct (_ || _); [discriminate|]. intros [= <-].
  split; [|apply (sub_either_end_thinned separators sentence Hsep)].
  rewrite join_empty_sep. unfold break_before. now rewrite concat_chunks.
Qed.

Lemma split_sep_pieces_shape sentence separators pieces :
  one_char_separator separators ->
  split_sep_rspct_paren sentence separators = Ok pieces ->
  Forall (fun p => ~ unbalanced p) pieces /\
  exists first rest,
    pieces = first :: rest /\
    top_sep_free separators 0 first = true /\
    Forall (fun p => exists c tl, p = String c tl /\ is_match separators (String c "") = true /\
                                  top_sep_free separators 0 tl = true) rest.
Proof.
  intros Hsep. rewrite (split_sep_pieces separators sentence Hsep). cbv zeta.
  set (s' := sub (at_either_end separators) "" sentence).
  destruct (goes_negative 0 s') eqn:Hneg; [discriminate|].
  destruct (Z.ltb_spec 0 (depth s')) as [Hlt|Hle]; [discriminate|]. simpl.
  intros [= <-]. unfold break_before.
  pose proof (goes_negative_false_depth s' 0%Z Hneg ltac:(lia)) as Hge.
  split.
  - eapply Forall_impl.
    + apply (break_before_balanced separators s' Hsep 0%Z "");
        [reflexivity | reflexivity | exact Hneg | lia].
    + intros p [Hn Hd]. rewrite unbalanced_iff, Hn, Hd.
      intros [?|?]; [discriminate | contradiction].
  - destruct (sep_chunks_shape separators s' Hsep 0%Z "") as (suffix & rest & -> & Hfree & Hrest).
    exists suffix, rest. auto.
Qed.

(** X4.  When [split_sep_rspct_paren] returns its pieces: every piece has
    balanced parentheses; the first piece holds no separator at depth
    zero; every later piece opens with a separator and holds no other
    separator at depth zero. *)
Theorem split_sep_shape (sentence : string) (separators : regex) (pieces : list string) :
  one_char_separator separators ->
  split_sep_rspct_paren sentence separators = Ok pieces ->
  Forall (fun p => ~ unbalanced p) pieces /\
  exists first rest,
    pieces = first :: rest /\
    top_sep_free separators 0 first = true /\
    Forall (fun p => exists c tl, p = String c tl /\ is_match separators (String c "") = true /\
                                  top_sep_free separators 0 tl = true) rest.
Proof. apply split_sep_pieces_shape. Qed.

(** ** Stripping characters *)

Lemma lstrip_head chars s c tl : lstrip chars s = String c tl -> in_chars chars c = false.
Proof.
  induction s as [|d s IH]; simpl; [discriminate|].
  destruct (in_chars chars d) eqn:E; [exact IH|]. intros [= <- _]. exact E.
Qed.

Lemma rstrip_head chars s c tl :
  rstrip chars s = String c tl -> exists tl', s = String c tl'.
Proof.
  destruct s as [|d s]; simpl; [discriminate|].
  destruct (rstrip chars s); [destruct (in_chars chars d); [discriminate|]|];
    intros [= <- _]; eauto.
Qed.

Lemma rstrip_last chars s pre c :
  rstrip chars s = pre +:+ String c "" -> in_chars chars c = false.
Proof.
  revert pre. induction s as [|d s IH]; intros pre; simpl.
  - destruct pre; discriminate.
  - destruct (rstrip chars s) as [|e t] eqn:E.
    + destruct (in_chars chars d) eqn:Ed; [destruct pre; discriminate|].
      destruct pre as [|x pre]; simpl; [intros [= <-]; exact Ed|].
      destruct pre; discriminate.
    + destruct pre as [|x pre]; simpl; [discriminate|].
      intros [= _ H]. exact (IH pre H).
Qed.

Lemma lstrip_thinned chars s :
  in_chars chars "(" = false -> in_chars chars ")" = false -> thinned s (lstrip chars s).
Proof.
  intros H1 H2. induction s as [|d s IH]; simpl; [constructor|].
  destruct (in_chars chars d) eqn:E.
  - apply thinned_drop; [congruence | congruence | exact IH].
  - clear IH. induction (String d s) as [|x t IHt]; constructor; exact IHt.
Qed.

Lemma rstrip_thinned chars s :
  in_chars chars "(" = false -> in_chars chars ")" = false -> thinned s (rstrip chars s).
Proof.
  intros H1 H2. induction s as [|d s IH]; simpl; [constructor|].
  destruct (rstrip chars s) as [|e t] eqn:E.
  - destruct (in_chars chars d) eqn:Ed.
    + apply thinned_drop; [congruence | congruence | exact IH].
    + apply thinned_keep, IH.
  - apply thinned_keep, IH.
Qed.

Lemma thinned_trans a b c : thinned a b -> thinned b c -> thinned a c.
Proof.
  intros Hab. revert c. induction Hab as [|x s s' _ IH|x s s' H1 H2 _ IH]; intros c Hbc.
  - exact Hbc.
  - inversion Hbc; subst.
    + apply thinned_keep, IH. assumption.
    + apply thinned_drop; [assumption | assumption | apply IH; assumption].
  - apply thinned_drop; [exact H1 | exact H2 | apply IH, Hbc].
Qed.

Lemma strip_thinned chars s :
  in_chars chars "(" = false -> in_chars chars ")" = false -> thinned s (strip chars s).
Proof.
  intros H1 H2. unfold strip.
  eapply thinned_trans; [apply lstrip_thinned | apply rstrip_thinned]; assumption.
Qed.

Lemma strip_ends chars s :
  (forall c tl, strip chars s = String c tl -> in_chars chars c = false) /\
  (forall pre c, strip chars s = pre +:+ String c "" -> in_chars chars c = false).
Proof.
  unfold strip. split.
  - intros c tl H. apply rstrip_head in H as (tl' & H). exact (lstrip_head _ _ _ _ H).
  - intros pre c H. exact (rstrip_last _ _ _ _ H).
Qed.

Lemma subevent_splitter_clean (event : string) (pieces : list string) :
  _subevent_splitter event = Ok pieces ->
  Forall (fun p => (forall tl, p <> String "+" tl) /\
                   (forall pre, p <> pre +:+ "+") /\
                   ~ unbalanced p) pieces.
Proof.
  unfold _subevent_splitter. intros (splits & Hsplits & H)%bind_Ok.
  apply bind_Ok in H as (pss & Hpss & [= <-]).
  apply Forall_forall. intros p (q & -> & Hq)%list_elem_of_fmap.
  destruct (strip_ends "+" q) as [Hhead Hlast]. split; [|split].
  - intros tl H. apply Hhead in H. discriminate.
  - intros pre H. apply Hlast in H. discriminate.
  - apply list_elem_of_In, in_concat in Hq as (ps & Hps & Hq).
    apply list_elem_of_In in Hps, Hq.
    apply mapM_Ok in Hpss.
    apply list_elem_of_lookup in Hps as (i & Hi).
    destruct (Forall2_lookup_r _ _ _ _ _ Hpss Hi) as (chunk & _ & Hchunk).
    pose proof (event_splitter_balanced chunk ps Hchunk) as Hbal.
    rewrite Forall_forall in Hbal. specialize (Hbal q Hq).
    rewrite (thinned_unbalanced q (strip "+" q)); [exact Hbal|].
    apply strip_thinned; reflexivity.
Qed.

(** X5.  When [_subevent_splitter] returns its pieces, no piece opens or
    ends with a [+], and every piece has balanced parentheses. *)
Theorem subevent_splitter_pieces_clean (event : string) (pieces : list string) :
  _subevent_splitter event = Ok pieces ->
  Forall (fun p => (forall tl, p <> String "+" tl) /\
                   (forall pre, p <> pre +:+ "+") /\
                   ~ unbalanced p) pieces.
Proof. exact (subevent_splitter_clean event pieces). Qed.

(** ** The play splitter *)

Lemma match_at_leading_slash_later s : match_at (Seq Bol (Chr "/")) false s = None.
Proof. reflexivity. Qed.

Lemma sub_from_leading_slash_later s : sub_from (Seq Bol (Chr "/")) "" false 0 s = s.
Proof.
  induction s as [|c s IH]; simpl; [reflexivity|]. now rewrite IH.
Qed.

Lemma sub_leading_slash s :
  sub (Seq Bol (Chr "/")) "" s =
  match s with
  | String c tl => if Ascii.eqb c "/" then tl else s
  | EmptyString => ""
  end.
Proof.
  destruct s as [|c tl]; [reflexivity|]. unfold sub. cbn [sub_from].
  unfold match_at. cbn [run at_bol rest flat_map]. unfold Chr. cbn [run rest grp1].
  unfold chr. rewrite (Ascii.eqb_sym "/" c).
  destruct (Ascii.eqb c "/"); cbn [app head rest].
  - replace (String.length (String c tl) - String.length tl) with 1 by (simpl; lia).
    simpl. apply sub_from_leading_slash_later.
  - simpl. now rewrite sub_from_leading_slash_later.
Qed.

Lemma is_match_slash_or_dot c :
  is_match slash_or_dot (String c "") = Ascii.eqb c "/" || Ascii.eqb c ".".
Proof.
  unfold is_match, match_at, slash_or_dot, Chr. cbn [run rest grp1]. unfold chr.
  rewrite (Ascii.eqb_sym "/" c), (Ascii.eqb_sym "." c).
  destruct (Ascii.eqb c "/"), (Ascii.eqb c "."); reflexivity.
Qed.

Lemma elem_of_removelast {A} (l : list A) x : x ∈ removelast l -> x ∈ l.
Proof.
  induction l as [|a [|b l] IH]; simpl; [auto | intros H; inversion H |].
  intros [->|H]%elem_of_cons; [left | right; apply IH, H].
Qed.

(** X6.  [_playSplitter] raises the syntax error exactly on the plays with
    unbalanced parentheses and raises nothing else.  When it returns, the
    event has balanced parentheses and no [/] or [.] at depth zero, and no
    modifier opens with [/]. *)
Theorem playSplitter_returns (play : string) :
  match _playSplitter play with
  | Ok ps =>
      ~ unbalanced play /\
      ~ unbalanced (PlaySplit.event ps) /\
      top_sep_free slash_or_dot 0 (PlaySplit.event ps) = true /\
      Forall (fun m => forall tl, m <> String "/" tl) (PlaySplit.mods ps)
  | Raise e => e = SyntaxError /\ unbalanced play
  end.
Proof.
  unfold _playSplitter.
  pose proof (split_sep_spec slash_or_dot play slash_or_dot_one_char) as Hspec.
  pose proof (split_sep_pieces_shape play slash_or_dot) as Hshape.
  destruct (split_sep_rspct_paren play slash_or_dot) as [l|e]; [|exact Hspec].
  destruct (Hshape l slash_or_dot_one_char eq_refl)
    as (Hbal & p0 & rest & -> & Hfree & Hrest).
  cbn [mbind result_bind first]. unfold final.
  destruct (last (p0 :: rest)) as [lst|] eqn:Hlast;
    [|apply last_None in Hlast; discriminate].
  cbn [mbind result_bind].
  assert (Forall (fun m => forall tl, sub (Seq Bol (Chr "/")) "" m <> String "/" tl) rest)
    as Hmods.
  { eapply Forall_impl; [exact Hrest|]. intros p (c & tl & -> & Hc & Hp) tl'.
    rewrite sub_leading_slash. destruct (Ascii.eqb_spec c "/") as [->|Hne].
    - intros ->. cbn [top_sep_free] in Hp. unfold sep_boundary in Hp.
      rewrite is_match_slash_or_dot in Hp. discriminate Hp.
    - intros [= -> _]. contradiction. }
  assert (forall l', (forall x, x ∈ l' -> x ∈ rest) ->
            Forall (fun m => forall tl, m <> String "/" tl)
                   (map (sub (Seq Bol (Chr "/")) "") l')) as Hsub.
  { intros l' Hl'. apply Forall_forall. intros m (p & -> & Hp)%list_elem_of_fmap.
    rewrite Forall_forall in Hmods. apply Hmods, Hl', Hp. }
  destruct (is_match (Chr ".") lst); cbn [tail PlaySplit.event PlaySplit.mods];
    (split; [exact Hspec|]); (split; [now inversion Hbal|]); (split; [exact Hfree|]);
    apply Hsub.
  - intros x Hx. apply elem_of_removelast in Hx. exact Hx.
  - auto.
Qed.

(** ** The classifier, rule by rule *)

Lemma is_match_re_sb s : is_match re_sb (String "S" (String "B" s)) = true.
Proof.
  apply is_match_true. exists (MState false None s). unfold re_sb. cbn [Cat Lit].
  apply elem_of_run_Seq. exists (MState false None s). split.
  - apply elem_of_run_Seq. exists (MState false None (String "B" s)).
    split; apply elem_of_run_Sym; eexists _, _; eauto.
  - unfold Opt. apply elem_of_run_Alt. right. apply elem_of_run_Eps. reflexivity.
Qed.

(** X7.  A sub-event that opens with one of the literals FC, NP, K, HP,
    DGR, WP, IW, PB, SB, DI, BK, OA, FLE is classified by that literal
    alone, whatever follows it: no earlier rule of the chain takes it. *)
Theorem literal_prefix_decides :
  Forall (fun r => forall s, _subeventParser (r.1 +:+ s) = Ok r.2) prefix_rules.
Proof.
  unfold prefix_rules.
  repeat (apply List.Forall_cons); [.. | apply List.Forall_nil];
    intros s; cbn [fst snd String.append];
    try (vm_compute; reflexivity);
    try (destruct s; vm_compute; reflexivity).
  (* SB: the optional group reads into the rest of the text *)
  unfold _subeventParser. rewrite is_match_re_sb.
  destruct s as [|c s];
    repeat match goal with
    | |- context [is_match ?r ?t] =>
        replace (is_match r t) with false by (vm_compute; reflexivity)
    end; reflexivity.
Qed.

Lemma digit19_not_paren c : digit19 c = true -> c <> "("%char /\ c <> ")"%char.
Proof.
  destruct c as [[] [] [] [] [] [] [] []]; vm_compute; intros H;
    try discriminate H; split; discriminate.
Qed.

Lemma run_many1_all p g ds s b :
  ds <> "" -> all_in p ds = true ->
  MState false g s ∈ run (Many1 p) (MState b g (ds +:+ s)).
Proof.
  destruct ds as [|c ds]; [contradiction|]. intros _ Hall. cbn [all_in] in Hall.
  apply andb_true_iff in Hall as [Hc Hds]. unfold Many1.
  apply elem_of_run_Seq. exists (MState false g (ds +:+ s)). split.
  - apply elem_of_run_Sym. exists c, (ds +:+ s). auto.
  - apply elem_of_run_Many. destruct ds as [|d ds]; [left; reflexivity|right].
    cbn [all_in] in Hds. apply andb_true_iff in Hds as [Hd Hds].
    exists d, ds, s. auto.
Qed.

Lemma is_match_re_out_digits ds :
  ds <> "" -> all_in digit19 ds = true -> is_match re_out ds = true.
Proof.
  intros Hne Hall. apply is_match_true. exists (MState false None "").
  unfold re_out. cbn [Cat]. apply elem_of_run_Seq. exists (MState false None "").
  split; [rewrite <- (append_nil_r ds) at 1; now apply run_many1_all|].
  apply elem_of_run_Seq. exists (MState false None "").
  split; [apply elem_of_run_Alt; right; now apply elem_of_run_Eps|].
  apply elem_of_run_Eol. auto.
Qed.

Lemma is_match_re_out_base ds b :
  ds <> "" -> all_in digit19 ds = true -> base13B b = true ->
  is_match re_out (ds +:+ String "(" (String b ")")) = true.
Proof.
  intros Hne Hall Hb. apply is_match_true.
  exists (MState false (Some (String "(" (String b ")"))) "").
  unfold re_out. cbn [Cat]. apply elem_of_run_Seq.
  exists (MState false None (String "(" (String b ")"))).
  split; [now apply run_many1_all|].
  apply elem_of_run_Seq. exists (MState false (Some (String "(" (String b ")"))) "").
  split; [|apply elem_of_run_Eol; auto].
  apply elem_of_run_Alt. left. apply elem_of_run_Grp.
  exists (MState false None ""). split; [|reflexivity].
  unfold re_paren_base. cbn [Cat]. apply elem_of_run_Seq.
  exists (MState false None (String b ")")). split; [apply elem_of_run_Sym; eexists _, _; eauto|].
  apply elem_of_run_Seq. exists (MState false None ")").
  split; apply elem_of_run_Sym; eexists _, _; eauto.
Qed.

Lemma match_at_paren_base_other bol c s :
  c <> "("%char -> match_at re_paren_base bol (String c s) = None.
Proof.
  intros Hc. unfold match_at, re_paren_base, Chr. cbn [Cat run rest flat_map].
  unfold chr at 1. rewrite Ascii.eqb_sym. apply Ascii.eqb_neq in Hc. rewrite Hc. reflexivity.
Qed.

Lemma match_at_paren_base_bol b1 b2 s :
  match_at re_paren_base b1 s = match_at re_paren_base b2 s.
Proof. destruct s; reflexivity. Qed.

Lemma finditer_paren_base_bol s :
  forall skip b1 b2,
    finditer_from re_paren_base b1 skip s = finditer_from re_paren_base b2 skip s.
Proof.
  induction s as [|c s IH]; intros skip b1 b2.
  - destruct skip; [|reflexivity]. cbn [finditer_from].
    now rewrite (match_at_paren_base_bol b1 b2).
  - destruct skip; [|reflexivity]. cbn [finditer_from].
    now rewrite (match_at_paren_base_bol b1 b2).
Qed.

Lemma finditer_paren_base_digits ds t :
  all_in digit19 ds = true ->
  forall bol, finditer_from re_paren_base bol 0 (ds +:+ t)
              = finditer_from re_paren_base bol 0 t.
Proof.
  induction ds as [|c ds IH]; intros Hall bol; [reflexivity|].
  cbn [all_in] in Hall. apply andb_true_iff in Hall as [Hc Hds].
  cbn [String.append finditer_from].
  rewrite match_at_paren_base_other by (apply digit19_not_paren, Hc).
  rewrite (finditer_paren_base_bol _ 0 false bol). now apply IH.
Qed.

(** X8.  A non-empty run of fielder digits 1-9 is an Out of the batter;
    the run followed by a base in parentheses is an Out of the runner on
    that base (of the batter for [(B)]). *)
Theorem fielders_put_out (ds : string) :
  ds <> "" -> all_in digit19 ds = true ->
  _subeventParser ds = Ok (Subevent.Make "Out" ["B"] []) /\
  forall b, base13B b = true ->
    _subeventParser (ds +:+ String "(" (String b ")"))
    = Ok (Subevent.Make "Out" [String b ""] []).
Proof.
  intros Hne Hall. split.
  - unfold _subeventParser. rewrite (is_match_re_out_digits ds Hne Hall).
    unfold findall. rewrite <- (append_nil_r ds).
    rewrite (finditer_paren_base_digits ds "" Hall). reflexivity.
  - intros b Hb. unfold _subeventParser. rewrite (is_match_re_out_base ds b Hne Hall Hb).
    unfold findall. rewrite (finditer_paren_base_digits ds _ Hall).
    apply base13B_cases in Hb as [->|[->|[->| ->]]]; reflexivity.
Qed.

Lemma is_match_re_hit letter ds :
  all_in digit19 ds = true -> is_match (re_hit letter) (String letter ds) = true.
Proof.
  intros Hall. apply is_match_true. exists (MState false None "").
  unfold re_hit. cbn [Cat]. apply elem_of_run_Seq. exists (MState false None ds).
  split; [apply elem_of_run_Sym; exists letter, ds; unfold chr; rewrite Ascii.eqb_refl; auto|].
  apply elem_of_run_Seq. exists (MState false None "").
  split; [|apply elem_of_run_Eol; auto].
  apply elem_of_run_Many. destruct ds as [|d ds]; [left; reflexivity|right].
  cbn [all_in] in Hall. apply andb_true_iff in Hall as [Hd Hds].
  exists d, ds, "". cbn [rest]. rewrite append_nil_r. auto.
Qed.

(** X9.  The letters S, D and T followed by fielder digits 1-9 only (or
    by nothing) are a single, a double and a triple, with the batter's
    advance to first, second and third base. *)
Theorem hits_with_fielders (ds : string) :
  all_in digit19 ds = true ->
  _subeventParser (String "S" ds) = Ok (Subevent.Make "Hit - Single" [] ["B-1"]) /\
  _subeventParser (String "D" ds) = Ok (Subevent.Make "Hit - Double" [] ["B-2"]) /\
  _subeventParser (String "T" ds) = Ok (Subevent.Make "Hit - Triple" [] ["B-3"]).
Proof.
  intros Hall. unfold _subeventParser.
  rewrite !(is_match_re_hit _ ds Hall).
  repeat split;
    repeat match goal with
    | |- context [is_match ?r ?t] =>
        replace (is_match r t) with false by (vm_compute; reflexivity)
    end; reflexivity.
Qed.

Lemma cs_loop_extends rs :
  forall br out res, cs_loop rs br out = Ok res -> exists more, res.2 = out ++ more.
Proof.
  induction rs as [|r rs IH]; intros br out res; simpl.
  - intros [= <-]. exists []. now rewrite app_nil_r.
  - destruct (preceding_base _ br) as [b|]; simpl; [|discriminate].
    intros H. apply IH in H as (more & ->). exists (b :: more).
    now rewrite <- app_assoc.
Qed.

Lemma finditer_re_cs_shape bol skip s f :
  f ∈ finditer_from re_cs bol skip s ->
  exists c, f.1 = String "C" (String "S" (String c "")) /\ base23H c = true.
Proof.
  intros H. apply finditer_from_matched in H as (b & s1 & st & Hm & ->).
  apply match_at_re_cs in Hm as (c & -> & Hc). exists c. split; [|exact Hc].
  apply (taken_append (String "C" (String "S" (String c "")))).
Qed.

(** X10.  A sub-event that opens with CS2, CS3 or CSH is a Runner Caught
    Stealing whose first player out is the runner from the base before
    (first, second, third), whatever follows, an error note included. *)
Theorem caught_stealing_out (c : ascii) (s : string) :
  base23H c = true ->
  exists outs,
    _subeventParser (String "C" (String "S" (String c s)))
    = Ok (Subevent.Make "Runner Caught Stealing" (base_before c :: outs) []).
Proof.
  intros Hc. unfold _subeventParser.
  assert (is_match re_cs (String "C" (String "S" (String c s))) = true) as Hm.
  { apply is_match_true. exists (MState false None s). unfold re_cs. cbn [Cat Lit].
    apply elem_of_run_Seq. exists (MState false None (String c s)). split.
    - apply elem_of_run_Seq. exists (MState false None (String "S" (String c s))).
      split; apply elem_of_run_Sym; eexists _, _; eauto.
    - apply elem_of_run_Sym. eexists _, _; eauto. }
  rewrite Hm.
  repeat match goal with
  | |- context [is_match ?r ?t] =>
      lazymatch r with
      | re_cs => fail
      | _ => replace (is_match r t) with false by (vm_compute; reflexivity)
      end
  end.
  cbn match.
  assert (exists rs, findall re_cs (String "C" (String "S" (String c s)))
                     = String "C" (String "S" (String c "")) :: rs /\
                     forall m, m ∈ rs ->
                       exists d, m = String "C" (String "S" (String d "")) /\ base23H d = true)
    as (rs & -> & Hrs).
  { unfold findall. cbn [finditer_from].
    destruct (match_at re_cs true _) as [st|] eqn:E.
    - pose proof E as (d & [= <- Hrest] & _)%match_at_re_cs.
      rewrite <- Hrest.
      pose proof (taken_append (String "C" (String "S" (String c ""))) s) as Ht.
      cbn [String.append] in Ht. rewrite Ht.
      cbn [map fst]. eexists. split; [reflexivity|].
      intros m (f & -> & Hf)%list_elem_of_fmap.
      exact (finditer_re_cs_shape _ _ _ _ Hf).
    - unfold is_match in Hm. rewrite E in Hm. discriminate. }
  cbn [cs_loop].
  assert (preceding_base (strip "CS" (String "C" (String "S" (String c "")))) None
          = Some (base_before c)) as ->.
  { apply base23H_cases in Hc as [->|[->| ->]]; reflexivity. }
  cbn [append_br mbind result_bind app].
  destruct (cs_loop_returns rs Hrs (Some (base_before c)) [base_before c])
    as ([br out] & Hloop).
  rewrite Hloop. apply cs_loop_extends in Hloop as (more & Hout). simpl in Hout.
  subst out. exists more. reflexivity.
Qed.

(** X11.  A classified sub-event carries at most one implicit advance,
    always of the batter (B-1, B-2, B-3 or B-H), and never both an implicit
    advance and a player out. *)
Theorem subevent_one_effect (s : string) (e : Subevent.t) :
  _subeventParser s = Ok e ->
  Subevent.implicitAdvances e ∈ [[]; ["B-1"]; ["B-2"]; ["B-3"]; ["B-H"]] /\
  (Subevent.implicitAdvances e <> [] -> Subevent.playersOut e = []).
Proof.
  unfold _subeventParser.
  repeat match goal with
  | |- context [if is_match ?r s then _ else _] => destruct (is_match r s)
  end;
  try (intros [= <-]; cbn [Subevent.implicitAdvances Subevent.playersOut];
       split; [repeat first [apply list_elem_of_here | apply list_elem_of_further]
              | intros; try reflexivity; try contradiction]).
  - destruct (map _ _) as [|b l]; [|destruct (String.eqb b "B")];
      intros [= <-]; (split; [left | intros H; contradiction]).
  - intros (x & _ & H)%bind_Ok. destruct x. injection H as <-.
    split; [left | intros H; contradiction].
  - destruct (po_loop _ _ _). intros [= <-]. split; [left | intros H; contradiction].
  - intros (x & _ & H)%bind_Ok. destruct x. injection H as <-.
    split; [left | intros H; contradiction].
Qed.

(** ** Descriptions *)

Lemma out_desc_raise n e : out_desc n = Raise e -> e = UnboundLocalError /\ (n = 0 \/ 3 < n).
Proof.
  destruct n as [|[|[|[|n]]]]; simpl; try discriminate;
    intros [= <-]; split; auto; right; lia.
Qed.

Lemma out_desc_ok n : 1 <= n <= 3 -> exists d, out_desc n = Ok d.
Proof. destruct n as [|[|[|[|n]]]]; simpl; intros H; try lia; eauto. Qed.

(** X12.  [basicPlayDesc] fails in two cases only: with the value error
    on an empty list of sub-events, and with an unassigned description
    when there are several sub-events, the first is an Out, and more than
    three of them are Outs. *)
Theorem basicPlayDesc_failures (subs : list Subevent.t) :
  (basicPlayDesc subs = Raise ValueError <-> subs = []) /\
  (basicPlayDesc subs = Raise UnboundLocalError <->
     2 <= length subs /\ starts_with_out subs /\ 3 < count_outs subs) /\
  (forall e, basicPlayDesc subs = Raise e -> e = ValueError \/ e = UnboundLocalError).
Proof.
  unfold starts_with_out. destruct subs as [|e [|e' l]].
  - simpl. split; [tauto|]. split; [|intros e [= <-]; auto].
    split; [discriminate | intros [H _]; lia].
  - simpl. split; [split; discriminate|]. split; [|discriminate].
    split; [discriminate | intros [H _]; lia].
  - cbn [basicPlayDesc head fmap option_fmap option_map length].
    destruct (String.eqb_spec (Subevent.basicPlay e) "Out") as [Hout|Hout].
    + assert (1 <= count_outs (e :: e' :: l)) as Hge.
      { unfold count_outs. cbn [map sum_list]. rewrite Hout. simpl. lia. }
      split; [split; [|discriminate]|split].
      * intros H. apply out_desc_raise in H as [H _]. discriminate.
      * split.
        -- intros H. apply out_desc_raise in H as [_ [H|H]]; [lia|].
           split; [lia|]. split; [now rewrite Hout | exact H].
        -- intros (_ & _ & H).
           destruct (count_outs (e :: e' :: l)) as [|[|[|[|n]]]]; try lia. reflexivity.
      * intros x H. apply out_desc_raise in H as [-> _]. auto.
    + split; [split; discriminate|]. split; [|discriminate].
      split; [discriminate|]. intros (_ & [= H] & _). contradiction.
Qed.

(** X13.  [fullPlayDesc] fails exactly when [basicPlayDesc] fails, with
    the same exception; it equals [basicPlayDesc] for a single sub-event
    and when the first sub-event is an Out; otherwise the basic description
    is the first component of the full one, followed by the separator. *)
Theorem fullPlayDesc_extends_basic (subs : list Subevent.t) :
  (forall e, fullPlayDesc subs = Raise e <-> basicPlayDesc subs = Raise e) /\
  (length subs <= 1 \/ starts_with_out subs -> fullPlayDesc subs = basicPlayDesc subs) /\
  (2 <= length subs -> ~ starts_with_out subs ->
   forall d, basicPlayDesc subs = Ok d ->
     exists more, fullPlayDesc subs = Ok (d +:+ " - " +:+ more)).
Proof.
  unfold starts_with_out. destruct subs as [|e [|e' l]].
  - simpl. split; [tauto|]. split; [auto|]. intros H; lia.
  - simpl. split; [tauto|]. split; [auto|]. intros H; lia.
  - cbn [basicPlayDesc fullPlayDesc head fmap option_fmap option_map length].
    destruct (String.eqb_spec (Subevent.basicPlay e) "Out") as [Hout|Hout].
    + split; [tauto|]. split; [auto|]. intros _ H. rewrite Hout in H. contradiction.
    + split; [split; discriminate|]. split.
      * intros [H|[= H]]; [lia | contradiction].
      * intros _ _ d [= <-]. cbn [map join]. eexists. reflexivity.
Qed.

(** ** Advances, continued *)

Lemma is_match_adv_iff t :
  is_match re_adv t = true <->
  exists c d tl, t = String c (String "-" (String d tl)) /\
                 base13B c = true /\ base13H d = true.
Proof.
  split; [apply is_match_adv|]. intros (c & d & tl & -> & Hc & Hd).
  apply is_match_true. exists (MState false None tl). unfold re_adv. cbn [Cat].
  apply elem_of_run_Seq. exists (MState false None (String "-" (String d tl))).
  split; [apply elem_of_run_Sym; eexists _, _; eauto|].
  apply elem_of_run_Seq. exists (MState false None (String d tl)).
  split; apply elem_of_run_Sym; eexists _, _; eauto.
Qed.

Lemma is_match_adv_error_iff t :
  is_match re_adv_error t = true <->
  exists c d tl, t = String c (String "X" (String d tl)) /\
                 base13B c = true /\ base13H d = true /\ has_error_mark tl = true.
Proof.
  rewrite is_match_true. unfold re_adv_error. split.
  - intros (st & H). inv_run; simplify_eq/=.
    + eexists _, _, _. split; [reflexivity|]. auto.
    + eexists _, _, _. split; [reflexivity|]. split; [assumption|]. split; [assumption|].
      match goal with
      | Hc : dot ?c = true, Hp : all_in dot ?pre = true |- _ =>
          apply (all_dot_error_mark (String c pre)); simpl; now rewrite Hc, Hp
      end.
  - intros (c & d & tl & -> & Hc & Hd & Hm).
    apply error_mark_split in Hm as (pre & tl' & -> & Hpre).
    exists (MState false None tl'). cbn [Cat].
    apply elem_of_run_Seq.
    exists (MState false None (String "X" (String d (pre +:+ String "E" tl')))).
    split; [apply elem_of_run_Sym; eauto|].
    apply elem_of_run_Seq. exists (MState false None (String d (pre +:+ String "E" tl'))).
    split; [apply elem_of_run_Sym; eexists _, _; eauto|].
    apply elem_of_run_Seq. exists (MState false None (pre +:+ String "E" tl')).
    split; [apply elem_of_run_Sym; eexists _, _; eauto|].
    apply elem_of_run_Seq. exists (MState false None (String "E" tl')).
    split; [|apply elem_of_run_Sym; eexists _, _; eauto].
    apply elem_of_run_Many. destruct pre as [|x pre]; [left; reflexivity|right].
    simpl in Hpre. apply andb_true_iff in Hpre as [Hx Hpre].
    exists x, pre, (String "E" tl'). auto.
Qed.

(** What the loop of [playerAdvances] keeps of the tokens. *)
Lemma advs_loop_elem advs :
  forall acc x,
    x ∈ advs_loop advs acc <->
    x ∈ acc \/ exists t k v c mark d,
      t ∈ advs /\ explicit_advance t k v /\
      k = String c "" /\ v = String d "" /\ x = String c (String mark (String d "")) /\
      exists tl, t = String c (String mark (String d tl)).
Proof.
  induction advs as [|i advs IH]; intros acc x; cbn [advs_loop].
  - split; [auto|]. intros [H|(t & k & v & c & mark & d & Ht & _)]; [exact H | inversion Ht].
  - assert (forall P : string -> Prop,
             (exists t, t ∈ i :: advs /\ P t) <-> P i \/ exists t, t ∈ advs /\ P t) as Hcons.
    { intros P. split.
      - intros (t & [->|Ht]%elem_of_cons & H); eauto.
      - intros [H|(t & Ht & H)]; [exists i; split; [left|exact H] | exists t; split; [now right|exact H]]. }
    set (Q := fun t => exists k v c mark d,
                explicit_advance t k v /\
                k = String c "" /\ v = String d "" /\
                x = String c (String mark (String d "")) /\
                exists tl, t = String c (String mark (String d tl))).
    assert ((exists t k v c mark d,
               t ∈ i :: advs /\ explicit_advance t k v /\
               k = String c "" /\ v = String d "" /\
               x = String c (String mark (String d "")) /\
               exists tl, t = String c (String mark (String d tl)))
            <-> Q i \/ exists t, t ∈ advs /\ Q t) as ->.
    { rewrite <- (Hcons Q). unfold Q. split.
      - intros (t & k & v & c & mark & d & Ht & H). exists t. split; [exact Ht|]. eauto 10.
      - intros (t & Ht & k & v & c & mark & d & H). exists t, k, v, c, mark, d. auto. }
    assert ((exists t, t ∈ advs /\ Q t) <->
            exists t k v c mark d,
               t ∈ advs /\ explicit_advance t k v /\
               k = String c "" /\ v = String d "" /\
               x = String c (String mark (String d "")) /\
               exists tl, t = String c (String mark (String d tl))) as HQ.
    { unfold Q. split.
      - intros (t & Ht & k & v & c & mark & d & H). exists t, k, v, c, mark, d. auto.
      - intros (t & k & v & c & mark & d & Ht & H). exists t. split; [exact Ht|]. eauto 10. }
    destruct (is_match re_adv_error i) eqn:E1; [|destruct (is_match re_adv i) eqn:E2].
    + apply is_match_adv_error_iff in E1 as (c & d & tl & -> & Hc & Hd & Hm).
      rewrite IH, elem_of_app, list_elem_of_singleton, slice_three, <- HQ.
      assert (Q (String c (String "X" (String d tl))) <->
              x = String c (String "X" (String d ""))) as HQi.
      { unfold Q. split.
        - intros (k & v & c' & mark & d' & _ & _ & _ & -> & tl' & [= <- <- <- _]). reflexivity.
        - intros ->. exists (String c ""), (String d ""), c, "X"%char, d.
          split; [exists c, d, tl; auto 10|]. eauto 10. }
      rewrite HQi. tauto.
    + apply is_match_adv_iff in E2 as (c & d & tl & -> & Hc & Hd).
      rewrite IH, elem_of_app, list_elem_of_singleton, slice_three, <- HQ.
      assert (Q (String c (String "-" (String d tl))) <->
              x = String c (String "-" (String d ""))) as HQi.
      { unfold Q. split.
        - intros (k & v & c' & mark & d' & _ & _ & _ & -> & tl' & [= <- <- <- _]). reflexivity.
        - intros ->. exists (String c ""), (String d ""), c, "-"%char, d.
          split; [exists c, d, tl; auto 10|]. eauto 10. }
      rewrite HQi. tauto.
    + rewrite IH, <- HQ.
      assert (~ Q i) as HQi.
      { unfold Q. intros (k & v & c' & mark & d' & (c & d & tl & Hc & Hd & -> & -> & Hor)
                          & _ & _ & _ & _).
        destruct Hor as [->|[-> Hm]].
        - assert (is_match re_adv (String c (String "-" (String d tl))) = true)
            by (apply is_match_adv_iff; eauto 10). congruence.
        - assert (is_match re_adv_error (String c (String "X" (String d tl))) = true)
            by (apply is_match_adv_error_iff; eauto 10). congruence. }
      tauto.
Qed.

Lemma char_at_zero_cons c tl : char_at (String c tl) 0 = Ok (String c "").
Proof. reflexivity. Qed.

Lemma same_base_ok c tl advs :
  "" ∉ advs ->
  exists l, same_base (String c tl) advs = Ok l /\
    forall x, x ∈ l <-> x = String c tl /\ exists j tl', j ∈ advs /\ j = String c tl'.
Proof.
  induction advs as [|j advs IH]; intros Hne.
  - exists []. split; [reflexivity|]. intros x. split; [intros H; inversion H|].
    intros (_ & j & tl' & H & _). inversion H.
  - destruct IH as (l & Hl & Hin); [intros H; apply Hne; now right|].
    destruct j as [|d tlj]; [exfalso; apply Hne; left|].
    cbn [same_base]. rewrite !char_at_zero_cons. cbn [mbind result_bind]. rewrite Hl.
    cbn [mbind result_bind]. eexists. split; [reflexivity|]. intros x.
    destruct (String.eqb_spec (String c "") (String d "")) as [[= <-]|Hcd].
    + rewrite elem_of_cons, Hin. split.
      * intros [->|[-> (j & tl' & Hj & ->)]].
        -- split; [reflexivity|]. exists (String c tlj), tlj. split; [left | reflexivity].
        -- split; [reflexivity|]. exists (String c tl'), tl'. split; [now right | reflexivity].
      * intros [-> _]. now left.
    + rewrite Hin. split.
      * intros [-> (j & tl' & Hj & ->)]. split; [reflexivity|].
        exists (String c tl'), tl'. split; [now right | reflexivity].
      * intros [-> (j & tl' & [->|Hj]%elem_of_cons & Hjeq)].
        -- injection Hjeq as <- _. contradiction.
        -- split; [reflexivity|]. eauto.
Qed.

Lemma same_base_raise c tl advs :
  "" ∈ advs -> same_base (String c tl) advs = Raise IndexError.
Proof.
  induction advs as [|j advs IH]; intros Hin; [inversion Hin|].
  destruct j as [|d tlj]; [reflexivity|].
  apply elem_of_cons in Hin as [Hin|Hin]; [discriminate|].
  cbn [same_base]. rewrite !char_at_zero_cons. cbn [mbind result_bind].
  rewrite (IH Hin). reflexivity.
Qed.

Lemma mentioned_ok imp advs :
  Forall (fun a => a <> "") imp -> "" ∉ advs ->
  exists l, mentioned imp advs = Ok l /\
    forall x, x ∈ l <-> x ∈ imp /\ exists j c tl tl', j ∈ advs /\ j = String c tl' /\ x = String c tl.
Proof.
  intros Himp Hne. induction Himp as [|a imp Ha _ IH].
  - exists []. split; [reflexivity|]. intros x. split; [intros H; inversion H|].
    intros (H & _). inversion H.
  - destruct IH as (l2 & Hl2 & Hin2). destruct a as [|c tl]; [contradiction|].
    destruct (same_base_ok c tl advs Hne) as (l1 & Hl1 & Hin1).
    cbn [mentioned]. rewrite Hl1. cbn [mbind result_bind]. rewrite Hl2.
    cbn [mbind result_bind]. eexists. split; [reflexivity|]. intros x.
    rewrite elem_of_app, Hin1, Hin2, elem_of_cons. split.
    + intros [[-> (j & tl' & Hj & ->)]|[Hx H]].
      * split; [now left|]. exists (String c tl'), c, tl, tl'. auto.
      * split; [now right | exact H].
    + intros [[->|Hx] (j & d & tlx & tl' & Hj & -> & Heq)].
      * injection Heq as <- <-. left. split; [reflexivity|]. eauto.
      * right. split; [exact Hx|]. exists (String d tl'), d, tlx, tl'. auto.
Qed.

Lemma mentioned_raise imp advs :
  Forall (fun a => a <> "") imp -> imp <> [] -> "" ∈ advs ->
  mentioned imp advs = Raise IndexError.
Proof.
  intros Himp Hne Hin. destruct Himp as [|a imp Ha _]; [contradiction|].
  destruct a as [|c tl]; [contradiction|].
  cbn [mentioned]. rewrite (same_base_raise c tl advs Hin). reflexivity.
Qed.

Lemma mentioned_nil advs : mentioned [] advs = Ok [].
Proof. reflexivity. Qed.

Lemma advances_dict_returns l :
  Forall advance3 l -> forall d, exists m, advances_dict l d = Ok m.
Proof.
  induction 1 as [|a l (c & mark & e & -> & _) _ IH]; intros d; simpl; [eauto | apply IH].
Qed.

Lemma advance3_nonempty a : advance3 a -> a <> "".
Proof. intros (c & mark & d & -> & _). discriminate. Qed.

Lemma same_base_elem i advs l :
  same_base i advs = Ok l ->
  forall x, x ∈ l <->
    x = i /\ exists j a, j ∈ advs /\ char_at i 0 = Ok a /\ char_at j 0 = Ok a.
Proof.
  revert l. induction advs as [|j advs IH]; intros l; cbn [same_base].
  - intros [= <-] x. split; [intros H; inversion H|]. intros (_ & j & a & H & _). inversion H.
  - intros (a & Ha & H)%bind_Ok. apply bind_Ok in H as (b & Hb & H).
    apply bind_Ok in H as (l' & Hl' & [= <-]). specialize (IH l' Hl'). intros x.
    destruct (String.eqb_spec a b) as [<-|Hab].
    + rewrite elem_of_cons, IH. split.
      * intros [->|[-> (j' & a' & Hj' & H1 & H2)]].
        -- split; [reflexivity|]. exists j, a. split; [left | auto].
        -- split; [reflexivity|]. exists j', a'. split; [now right | auto].
      * intros [-> _]. now left.
    + rewrite IH. split.
      * intros [-> (j' & a' & Hj' & H1 & H2)]. split; [reflexivity|].
        exists j', a'. split; [now right | auto].
      * intros [-> (j' & a' & [->|Hj']%elem_of_cons & H1 & H2)].
        -- congruence.
        -- split; [reflexivity|]. eauto.
Qed.

Lemma mentioned_elem imp advs l :
  mentioned imp advs = Ok l ->
  forall x, x ∈ l <->
    x ∈ imp /\ exists j a, j ∈ advs /\ char_at x 0 = Ok a /\ char_at j 0 = Ok a.
Proof.
  revert l. induction imp as [|i imp IH]; intros l; cbn [mentioned].
  - intros [= <-] x. split; [intros H; inversion H | intros [H _]; inversion H].
  - intros (l1 & Hl1 & H)%bind_Ok. apply bind_Ok in H as (l2 & Hl2 & [= <-]).
    intros x. rewrite elem_of_app, (same_base_elem _ _ _ Hl1), (IH _ Hl2), elem_of_cons.
    split.
    + intros [[-> H]|[Hx H]]; [split; [now left | exact H] | split; [now right | exact H]].
    + intros [[->|Hx] H]; [left; auto | right; auto].
Qed.

Lemma advances_dict_sound l :
  forall d m, advances_dict l d = Ok m ->
  forall k v, m !! k = Some v ->
    d !! k = Some v \/ exists x, x ∈ l /\ char_at x 0 = Ok k /\ char_at x 2 = Ok v.
Proof.
  induction l as [|i l IH]; intros d m; cbn [advances_dict].
  - intros [= <-] k v H. now left.
  - intros (k' & Hk' & H)%bind_Ok. apply bind_Ok in H as (v' & Hv' & H).
    intros k v Hm. destruct (IH _ _ H k v Hm) as [Hd|(x & Hx & H0 & H2)].
    + rewrite lookup_insert in Hd. case_decide as Hk.
      * injection Hd as <-. subst k'. right. exists i. split; [left | auto].
      * now left.
    + right. exists x. split; [now right | auto].
Qed.

Lemma advances_dict_complete l :
  forall d m, advances_dict l d = Ok m ->
  forall k v,
    (d !! k = Some v \/ exists x, x ∈ l /\ char_at x 0 = Ok k /\ char_at x 2 = Ok v) ->
    (forall x, x ∈ l -> char_at x 0 = Ok k -> char_at x 2 = Ok v) ->
    m !! k = Some v.
Proof.
  induction l as [|i l IH]; intros d m; cbn [advances_dict].
  - intros [= <-] k v [H|(x & Hx & _)] _; [exact H | inversion Hx].
  - intros (k' & Hk' & H)%bind_Ok. apply bind_Ok in H as (v' & Hv' & H).
    intros k v Hor Hall. apply (IH _ _ H k v).
    + destruct (decide (k' = k)) as [->|Hne].
      * left. rewrite lookup_insert_eq. f_equal.
        assert (Ok v' = Ok v) as [= ->]; [|reflexivity].
        rewrite <- Hv'. apply Hall; [left | exact Hk'].
      * destruct Hor as [Hd|(x & [->|Hx]%elem_of_cons & H0 & H2)].
        -- left. rewrite lookup_insert_ne by exact Hne. exact Hd.
        -- congruence.
        -- right. eauto.
    + intros x Hx. apply Hall. now right.
Qed.

Lemma implicit_advance3 ss subs :
  mapM _subeventParser ss = Ok subs ->
  Forall advance3 (flat_map Subevent.implicitAdvances subs).
Proof.
  intros Hsubs%mapM_Ok. apply Forall_forall. intros a Ha.
  apply list_elem_of_In, in_flat_map in Ha as (e & He & Ha).
  apply list_elem_of_In in He, Ha.
  apply list_elem_of_lookup in He as (i & He).
  destruct (Forall2_lookup_r _ _ _ _ _ Hsubs He) as (s & _ & Hs).
  revert a Ha. apply Forall_forall. exact (subeventParser_implicit s e Hs).
Qed.

Section AdvancesFacts.

Variable list_of_set : gset string -> list string.
Hypothesis list_of_set_perm : forall X, list_of_set X ≡ₚ elements X.

Lemma final_advs_advance3 (ps : PlaySplit.t) (ss : list string)
    (subs : list Subevent.t) (l : list string) :
  mapM _subeventParser ss = Ok subs ->
  Forall advance3
    (list_of_set (list_to_set (advs_loop (PlaySplit.advs ps) []
                               ++ flat_map Subevent.implicitAdvances subs)
                  ∖ list_to_set (list_of_set (list_to_set l)))).
Proof.
  intros Hsubs. apply Forall_forall. intros a Ha.
  apply (elem_of_list_of_set list_of_set list_of_set_perm), elem_of_difference in Ha
    as [Ha _].
  apply elem_of_list_to_set, elem_of_app in Ha as [Ha|Ha].
  - revert a Ha. apply Forall_forall, advs_loop_advance3. constructor.
  - revert a Ha. apply Forall_forall. exact (implicit_advance3 ss subs Hsubs).
Qed.

(** X14.  With sub-events classified by [_subeventParser],
    [playerAdvances] fails in one case only, with an index error: some
    sub-event implies an advance and the advances clause holds an empty
    token (as after a [;] at its end). *)
Theorem playerAdvances_failure (ps : PlaySplit.t) (ss : list string)
    (subs : list Subevent.t) :
  mapM _subeventParser ss = Ok subs ->
  match playerAdvances list_of_set ps subs with
  | Ok _ => flat_map Subevent.implicitAdvances subs = [] \/ "" ∉ PlaySplit.advs ps
  | Raise e => e = IndexError /\ flat_map Subevent.implicitAdvances subs <> [] /\
               "" ∈ PlaySplit.advs ps
  end.
Proof.
  intros Hsubs. pose proof (implicit_advance3 ss subs Hsubs) as Himp.
  unfold playerAdvances.
  remember (flat_map Subevent.implicitAdvances subs) as imp eqn:Eimp. clear Eimp.
  set (advs := PlaySplit.advs ps).
  assert (forall l, exists m,
            advances_dict (list_of_set (list_to_set (advs_loop advs [] ++ imp)
                                        ∖ list_to_set (list_of_set (list_to_set l)))) ∅
            = Ok m) as Hdict.
  { intros l. apply advances_dict_returns, Forall_forall. intros a Ha.
    apply (elem_of_list_of_set list_of_set list_of_set_perm), elem_of_difference in Ha as [Ha _].
    apply elem_of_list_to_set, elem_of_app in Ha as [Ha|Ha].
    - revert a Ha. apply Forall_forall, advs_loop_advance3. constructor.
    - revert a Ha. apply Forall_forall. exact Himp. }
  assert (Forall (fun a => a <> "") imp) as Hne
    by (eapply Forall_impl; [exact Himp | apply advance3_nonempty]).
  destruct imp as [|a imp'].
  - rewrite mentioned_nil. cbn [mbind result_bind].
    destruct (Hdict []) as (m & ->). now left.
  - destruct (decide ("" ∈ advs)) as [Hin|Hnin].
    + rewrite (mentioned_raise (a :: imp') advs Hne ltac:(discriminate) Hin).
      cbn [mbind result_bind]. split; [reflexivity|]. split; [discriminate | exact Hin].
    + destruct (mentioned_ok (a :: imp') advs Hne Hnin) as (l & -> & _).
      cbn [mbind result_bind]. destruct (Hdict l) as (m & ->). now right.
Qed.

(** X15.  Every entry [k -> v] of the map returned by [playerAdvances]
    has one of two origins: an advance token [k-v...], or [kXv...] with an
    error mark after it; or an implicit advance from [k] to [v] of a
    sub-event, and then no advance token opens with [k]. *)
Theorem playerAdvances_sound (ps : PlaySplit.t) (subs : list Subevent.t)
    (m : gmap string string) (k v : string) :
  playerAdvances list_of_set ps subs = Ok m ->
  m !! k = Some v ->
  (exists t, t ∈ PlaySplit.advs ps /\ explicit_advance t k v) \/
  (exists a, a ∈ flat_map Subevent.implicitAdvances subs /\
             char_at a 0 = Ok k /\ char_at a 2 = Ok v /\
             forall t, t ∈ PlaySplit.advs ps -> ~ names_base t k).
Proof.
  unfold playerAdvances. intros (l & Hl & Hm)%bind_Ok Hk.
  destruct (advances_dict_sound _ _ _ Hm k v Hk) as [Hd|(x & Hx & H0 & H2)].
  { rewrite lookup_empty in Hd. discriminate. }
  apply (elem_of_list_of_set list_of_set list_of_set_perm), elem_of_difference in Hx
    as [Hx Hria].
  rewrite elem_of_list_to_set, (elem_of_list_of_set list_of_set list_of_set_perm),
    elem_of_list_to_set in Hria.
  apply elem_of_list_to_set, elem_of_app in Hx as [Hx|Hx].
  - left. apply advs_loop_elem in Hx as [Hx|Hx]; [inversion Hx|].
    destruct Hx as (t & k' & v' & c & mark & d & Ht & He & -> & -> & -> & _).
    injection H0 as <-. injection H2 as <-. eauto.
  - right. exists x. repeat split; auto.
    intros t Ht (tl & c & -> & ->). apply Hria.
    apply (mentioned_elem _ _ _ Hl). split; [exact Hx|].
    exists (String c tl), (String c ""). auto.
Qed.

(** X16.  An advance token [k-v...] (or [kXv...] with an error mark) is
    recorded as [k -> v] in the map returned by [playerAdvances] as soon as
    its first three characters are not an implicit advance of a sub-event
    and no other token of that kind moves the runner on [k] elsewhere. *)
Theorem playerAdvances_complete (ps : PlaySplit.t) (subs : list Subevent.t)
    (m : gmap string string) (t k v : string) :
  playerAdvances list_of_set ps subs = Ok m ->
  t ∈ PlaySplit.advs ps ->
  explicit_advance t k v ->
  slice t 0 3 ∉ flat_map Subevent.implicitAdvances subs ->
  (forall t' v', t' ∈ PlaySplit.advs ps -> explicit_advance t' k v' -> v' = v) ->
  m !! k = Some v.
Proof.
  unfold playerAdvances. intros (l & Hl & Hm)%bind_Ok Ht He Himp Hone.
  pose proof He as (c & d & tl & Hc & Hd & -> & -> & Hshape).
  assert (exists mark, t = String c (String mark (String d tl))) as (mark & Et)
    by (destruct Hshape as [->|[-> _]]; eauto).
  rewrite Et, slice_three in Himp.
  assert (forall y, y ∈ l -> y ∈ flat_map Subevent.implicitAdvances subs) as Hsub
    by (intros y Hy; apply (mentioned_elem _ _ _ Hl) in Hy; tauto).
  apply (advances_dict_complete _ _ _ Hm).
  - right. exists (String c (String mark (String d ""))).
    split; [|split; reflexivity].
    apply (elem_of_list_of_set list_of_set list_of_set_perm), elem_of_difference. split.
    + apply elem_of_list_to_set, elem_of_app. left. apply advs_loop_elem. right.
      exists t, (String c ""), (String d ""), c, mark, d.
      repeat split; auto. exists tl. exact Et.
    + rewrite elem_of_list_to_set, (elem_of_list_of_set list_of_set list_of_set_perm),
        elem_of_list_to_set. intros Hy. apply Himp, Hsub, Hy.
  - intros y Hy H0.
    apply (elem_of_list_of_set list_of_set list_of_set_perm), elem_of_difference in Hy
      as [Hy Hria].
    rewrite elem_of_list_to_set, (elem_of_list_of_set list_of_set list_of_set_perm),
      elem_of_list_to_set in Hria.
    apply elem_of_list_to_set, elem_of_app in Hy as [Hy|Hy].
    + apply advs_loop_elem in Hy as [Hy|Hy]; [inversion Hy|].
      destruct Hy as (t' & k' & v' & c' & mark' & d' & Ht' & He' & -> & -> & -> & _).
      injection H0 as ->. rewrite (Hone _ _ Ht' He'). reflexivity.
    + exfalso. apply Hria. apply (mentioned_elem _ _ _ Hl). split; [exact Hy|].
      exists t, (String c ""). split; [exact Ht|]. split; [exact H0|].
      rewrite Et. reflexivity.
Qed.

(** X17.  With sub-events classified by [_subeventParser], the map
    returned by [playerAdvances] has at most four entries, and the runs
    counted by [runsScored] are at most the entries of the map: no play
    scores more than four runs. *)
Theorem runsScored_at_most_four (ps : PlaySplit.t) (ss : list string)
    (subs : list Subevent.t) (m : gmap string string) :
  mapM _subeventParser ss = Ok subs ->
  playerAdvances list_of_set ps subs = Ok m ->
  runsScored m <= size m /\ size m <= 4.
Proof.
  intros Hsubs Hm. split.
  - rewrite runsScored_count, <- (length_map_to_list m). apply length_filter.
  - assert (dom m ⊆ (list_to_set ["B"; "1"; "2"; "3"] : gset string)) as Hdom.
    { intros k [v Hk]%elem_of_dom.
      unfold playerAdvances in Hm. apply bind_Ok in Hm as (l & _ & Hm).
      assert (k ∈ ["B"; "1"; "2"; "3"]) as Hin.
      { eapply (advances_dict_bases _ (final_advs_advance3 ps ss subs l Hsubs) _ _ Hm);
          [|exact Hk].
        intros k' v'. rewrite lookup_empty. discriminate. }
      apply elem_of_list_to_set, Hin. }
    rewrite <- size_dom. apply subseteq_size in Hdom.
    etransitivity; [exact Hdom|]. vm_compute. lia.
Qed.

(** *** The table *)

Lemma mapM_Ok_lookup {A B} (f : A -> result B) (l : list A) (k : list B) :
  mapM f l = Ok k ->
  length k = length l /\
  forall i x, l !! i = Some x -> exists y, k !! i = Some y /\ f x = Ok y.
Proof.
  intros H%mapM_Ok. split; [symmetry; exact (Forall2_length _ _ _ H)|].
  intros i x Hx. destruct (Forall2_lookup_l _ _ _ _ _ H Hx) as (y & Hy & Hf). eauto.
Qed.

(** X18.  A table returned by [enhancePlays] keeps the rows of type
    [play], in their order, and no others; every column has one entry per
    kept row; and the entries of row [i] are computed from the play of row
    [i] alone: its split, the sub-events of the split's event, their
    classification, the two descriptions, the players out with their
    count, and the advances with the runs counted in them. *)
Theorem enhancePlays_rows (plays : list Play.t) (f : Frame.t) :
  enhancePlays list_of_set plays = Ok f ->
  Frame.plays f = filter (fun r => Play.Type_ r = "play") plays /\
  (let n := length (Frame.plays f) in
   length (Frame.playSplit f) = n /\ length (Frame.subevents f) = n /\
   length (Frame.subeventParsed f) = n /\ length (Frame.basicPlayDesc f) = n /\
   length (Frame.fullPlayDesc f) = n /\ length (Frame.playersOut f) = n /\
   length (Frame.outsOnPlay f) = n /\ length (Frame.playerAdvances f) = n /\
   length (Frame.runsScored f) = n) /\
  forall i r, Frame.plays f !! i = Some r ->
    exists ps se sp bd fd po pa,
      (_playSplitter (Play.Play r) = Ok ps /\ Frame.playSplit f !! i = Some ps) /\
      (_subevent_splitter (PlaySplit.event ps) = Ok se /\ Frame.subevents f !! i = Some se) /\
      (mapM _subeventParser se = Ok sp /\ Frame.subeventParsed f !! i = Some sp) /\
      (basicPlayDesc sp = Ok bd /\ Frame.basicPlayDesc f !! i = Some bd) /\
      (fullPlayDesc sp = Ok fd /\ Frame.fullPlayDesc f !! i = Some fd) /\
      (playersOut list_of_set ps sp = Ok po /\ Frame.playersOut f !! i = Some po) /\
      Frame.outsOnPlay f !! i = Some (length po) /\
      (playerAdvances list_of_set ps sp = Ok pa /\ Frame.playerAdvances f !! i = Some pa) /\
      Frame.runsScored f !! i = Some (runsScored pa).
Proof.
  unfold enhancePlays. intros H.
  apply bind_Ok in H as (c1 & [L1 H1]%mapM_Ok_lookup & H).
  apply bind_Ok in H as (c2 & [L2 H2]%mapM_Ok_lookup & H).
  apply bind_Ok in H as (c3 & [L3 H3]%mapM_Ok_lookup & H).
  apply bind_Ok in H as (c4 & [L4 H4]%mapM_Ok_lookup & H).
  apply bind_Ok in H as (c5 & [L5 H5]%mapM_Ok_lookup & H).
  apply bind_Ok in H as (c6 & [L6 H6]%mapM_Ok_lookup & H).
  apply bind_Ok in H as (c7 & [L7 H7]%mapM_Ok_lookup & H).
  injection H as <-. cbn [Frame.plays Frame.playSplit Frame.subevents Frame.subeventParsed
    Frame.basicPlayDesc Frame.fullPlayDesc Frame.playersOut Frame.outsOnPlay
    Frame.playerAdvances Frame.runsScored].
  rewrite length_zip in L6, L7.
  split; [reflexivity|]. split.
  { cbv zeta. rewrite !length_map. repeat split; lia. }
  intros i r Hr.
  destruct (H1 i r Hr) as (ps & Hps & E1).
  destruct (H2 i ps Hps) as (se & Hse & E2).
  destruct (H3 i se Hse) as (sp & Hsp & E3).
  destruct (H4 i sp Hsp) as (bd & Hbd & E4).
  destruct (H5 i sp Hsp) as (fd & Hfd & E5).
  assert (zip c1 c3 !! i = Some (ps, sp)) as Hz.
  { rewrite lookup_zip_with, Hps. cbn. rewrite Hsp. reflexivity. }
  destruct (H6 i _ Hz) as (po & Hpo & E6).
  destruct (H7 i _ Hz) as (pa & Hpa & E7).
  exists ps, se, sp, bd, fd, po, pa.
  rewrite !list_lookup_fmap, Hpo, Hpa. cbn in E6, E7. auto 20.
Qed.

End AdvancesFacts.

(** ** A play put together from its fields *)

Lemma top_sep_free_append separators a :
  forall nb b,
    top_sep_free separators nb (a +:+ b) =
    top_sep_free separators nb a && top_sep_free separators (nb + depth a) b.
Proof.
  induction a as [|c a IH]; intros nb b; cbn [String.append top_sep_free depth].
  - now rewrite Z.add_0_r.
  - rewrite IH, andb_assoc. unfold sep_next. do 2 f_equal. lia.
Qed.

Lemma chunks_free separators p :
  forall nb cur s,
    top_sep_free separators nb p = true ->
    chunks (sep_boundary separators) sep_next nb cur (p +:+ s) =
    chunks (sep_boundary separators) sep_next (nb + depth p)%Z (cur +:+ p) s.
Proof.
  induction p as [|c p IH]; intros nb cur s; cbn [String.append top_sep_free depth chunks].
  - intros _. now rewrite Z.add_0_r, append_nil_r.
  - intros [Hb Hp]%andb_true_iff. apply negb_true_iff in Hb. rewrite Hb.
    rewrite (IH _ _ _ Hp). unfold sep_next. f_equal; [lia|].
    rewrite append_assoc. reflexivity.
Qed.

Lemma chunks_pieces separators :
  one_char_separator separators ->
  forall ps p0 cur,
    top_sep_free separators 0 p0 = true -> depth p0 = 0%Z ->
    Forall (fun p => exists c tl, p = String c tl /\
                       is_match separators (String c "") = true /\
                       top_sep_free separators 0 tl = true /\ depth tl = 0%Z) ps ->
    chunks (sep_boundary separators) sep_next 0%Z cur (p0 +:+ fold_right String.append "" ps)
    = (cur +:+ p0) :: ps.
Proof.
  intros Hsep. induction ps as [|p ps IH]; intros p0 cur Hfree Hd Hrest.
  - cbn [fold_right]. rewrite append_nil_r.
    rewrite <- (append_nil_r p0) at 1. rewrite (chunks_free _ _ _ _ _ Hfree). reflexivity.
  - apply Forall_cons in Hrest as [(c & tl & -> & Hc & Htl & Hdtl) Hrest].
    cbn [fold_right]. rewrite (chunks_free _ _ _ _ _ Hfree), Hd.
    cbn [String.append chunks Z.add]. unfold sep_boundary at 1. rewrite Hc. cbn [andb Z.eqb].
    f_equal. destruct (separator_not_paren _ _ Hsep Hc) as [H1 H2].
    replace (sep_next (0 + 0) c) with 0%Z
      by (unfold sep_next; rewrite (paren_step_other c H1 H2); reflexivity).
    rewrite (IH tl (String c "") Htl Hdtl Hrest). reflexivity.
Qed.

Lemma match_at_either_end_none bol c s :
  (bol = false \/ is_match slash_or_dot (String c "") = false) ->
  is_match slash_or_dot (String c "") &&
    (String.eqb s "" || String.eqb s (String newline "")) = false ->
  match_at (at_either_end slash_or_dot) bol (String c s) = None.
Proof.
  intros Hbol Hend. destruct (match_at _ _ _) as [st|] eqn:E; [exfalso | reflexivity].
  apply match_at_Some in E. unfold at_either_end in E.
  assert (forall st0 st1, rest st0 = String c s -> st1 ∈ run slash_or_dot st0 ->
            is_match slash_or_dot (String c "") = true /\ rest st1 = s) as Hsep.
  { intros st0 st1 H0 H. unfold slash_or_dot in H. rewrite is_match_slash_or_dot.
    unfold Chr in H.
    apply elem_of_run_Alt in H as [H|H];
      apply elem_of_run_Sym in H as (c' & s' & Hr & Hp & ->);
      rewrite H0 in Hr; injection Hr as <- <-; apply chr_true in Hp; subst c;
      split; reflexivity. }
  apply elem_of_run_Alt in E as [E|E];
    apply elem_of_run_Grp in E as (st1 & E & _);
    apply elem_of_run_Seq in E as (st2 & E2 & E).
  - apply elem_of_run_Bol in E2 as [-> Hb]. cbn [at_bol] in Hb.
    apply elem_of_run_Grp in E as (st3 & E & _).
    apply Hsep in E as [Hm _]; [|reflexivity].
    destruct Hbol; congruence.
  - apply elem_of_run_Grp in E2 as (st3 & E2 & ->).
    apply Hsep in E2 as [Hm Hr]; [|reflexivity].
    apply elem_of_run_Eol in E as [_ He]. cbn [rest] in He. rewrite Hr in He.
    rewrite Hm in Hend. cbn [andb] in Hend. apply orb_false_iff in Hend as [Ha Hb].
    apply String.eqb_neq in Ha, Hb. destruct He; contradiction.
Qed.

Lemma sub_from_either_end_id s :
  safe_end s = true -> sub_from (at_either_end slash_or_dot) "" false 0 s = s.
Proof.
  induction s as [|c s IH]; [reflexivity|]. cbn [safe_end sub_from].
  intros [Hc Hs]%andb_true_iff. apply negb_true_iff in Hc.
  rewrite (match_at_either_end_none false c s (or_introl eq_refl) Hc), (IH Hs). reflexivity.
Qed.

Lemma sub_either_end_id c s :
  is_match slash_or_dot (String c "") = false -> safe_end (String c s) = true ->
  sub (at_either_end slash_or_dot) "" (String c s) = String c s.
Proof.
  intros Hc. unfold sub. cbn [safe_end sub_from]. rewrite Hc. cbn [andb negb].
  intros Hs. rewrite (match_at_either_end_none true c s (or_intror Hc)), (sub_from_either_end_id s Hs);
    [reflexivity | now rewrite Hc].
Qed.

Lemma safe_end_append a b :
  b <> "" -> b <> String newline "" -> safe_end (a +:+ b) = safe_end b.
Proof.
  intros H1 H2. induction a as [|c a IH]; [reflexivity|].
  cbn [String.append safe_end]. rewrite IH.
  replace (String.eqb (a +:+ b) "") with false.
  2:{ symmetry. apply String.eqb_neq. destruct a; [exact H1 | discriminate]. }
  replace (String.eqb (a +:+ b) (String newline "")) with false.
  2:{ symmetry. apply String.eqb_neq. destruct a as [|x a]; [exact H2|].
      cbn [String.append]. intros [= _ H]. destruct a; [contradiction | discriminate]. }
  now rewrite andb_false_r.
Qed.

Lemma safe_end_free s :
  forall nb, top_sep_free slash_or_dot nb s = true -> (nb + depth s = 0)%Z ->
             safe_end s = true.
Proof.
  induction s as [|c s IH]; intros nb; [reflexivity|]. cbn [top_sep_free safe_end depth].
  intros [Hb Hs]%andb_true_iff Hd. apply negb_true_iff in Hb.
  rewrite (IH _ Hs) by (unfold sep_next; lia). rewrite andb_true_r. apply negb_true_iff.
  destruct (is_match slash_or_dot (String c "")) eqn:Hm; [|reflexivity]. cbn [andb].
  destruct (separator_not_paren _ _ slash_or_dot_one_char Hm) as [H1 H2].
  rewrite (paren_step_other c H1 H2) in Hd.
  unfold sep_boundary in Hb. rewrite Hm in Hb. cbn [andb] in Hb. apply Z.eqb_neq in Hb.
  apply orb_false_iff. split; apply String.eqb_neq; intros ->; cbn in Hd; lia.
Qed.

Lemma split_from_semicolon s :
  forall bol cur,
    split_from (Chr ";") bol 0 cur (String ";" s) = cur :: split_from (Chr ";") false 0 "" s.
Proof.
  intros bol cur. cbn [split_from]. unfold match_at, Chr. cbn [run rest].
  change (chr ";" ";") with true. cbn [head rest String.length].
  replace (S (String.length s) - String.length s) with 1 by lia. reflexivity.
Qed.

Lemma split_from_token t :
  all_in (cnot (chr ";")) t = true ->
  forall bol cur s,
    split_from (Chr ";") bol 0 cur (t +:+ s) =
    split_from (Chr ";") (bol && String.eqb t "") 0 (cur +:+ t) s.
Proof.
  induction t as [|c t IH]; intros Ht bol cur s.
  - cbn [String.append]. now rewrite append_nil_r, andb_true_r.
  - cbn [all_in] in Ht. apply andb_true_iff in Ht as [Hc Ht].
    cbn [String.append split_from]. unfold match_at, Chr. cbn [run rest].
    unfold cnot in Hc. apply negb_true_iff in Hc. rewrite Hc. cbn [head].
    rewrite (IH Ht). cbn [andb]. rewrite andb_false_r, append_assoc. reflexivity.
Qed.

Lemma split_join_semicolon advs :
  forall bol cur t,
    Forall (fun t => all_in (cnot (chr ";")) t = true) (t :: advs) ->
    split_from (Chr ";") bol 0 cur (join ";" (t :: advs)) = (cur +:+ t) :: advs.
Proof.
  induction advs as [|a advs IH]; intros bol cur t [Ht Hadvs]%Forall_cons.
  - cbn [join]. rewrite <- (append_nil_r t) at 1. rewrite (split_from_token t Ht).
    destruct (bol && String.eqb t ""); reflexivity.
  - change (join ";" (t :: a :: advs)) with (t +:+ ";" +:+ join ";" (a :: advs)).
    rewrite (split_from_token t Ht). cbn [String.append].
    rewrite split_from_semicolon. f_equal.
    rewrite (IH false "" a Hadvs). reflexivity.
Qed.

Lemma rstrip_dot_free s :
  forall nb, top_sep_free slash_or_dot nb s = true -> (nb + depth s = 0)%Z ->
             rstrip "." s = s.
Proof.
  induction s as [|c s IH]; intros nb; [reflexivity|]. cbn [top_sep_free depth rstrip].
  intros [Hb Hs]%andb_true_iff Hd. apply negb_true_iff in Hb.
  rewrite (IH _ Hs) by (unfold sep_next; lia).
  destruct s as [|d s]; [|reflexivity].
  cbn [in_chars]. destruct (Ascii.eqb_spec c ".") as [->|Hc]; [exfalso | reflexivity].
  cbn in Hd. unfold sep_boundary in Hb. rewrite is_match_slash_or_dot in Hb.
  cbn in Hb. apply Z.eqb_neq in Hb. lia.
Qed.

Lemma strip_dot_clause a :
  top_sep_free slash_or_dot 0 a = true -> depth a = 0%Z ->
  strip "." (String "." a) = a.
Proof.
  intros Hfree Hd. unfold strip. cbn [lstrip in_chars]. rewrite Ascii.eqb_refl. cbn [orb].
  replace (lstrip "." a) with a; [exact (rstrip_dot_free a 0%Z Hfree ltac:(lia))|].
  destruct a as [|c a]; [reflexivity|]. cbn [lstrip in_chars top_sep_free] in *.
  apply andb_true_iff in Hfree as [Hb _]. apply negb_true_iff in Hb.
  unfold sep_boundary in Hb. rewrite is_match_slash_or_dot in Hb. cbn [Z.eqb] in Hb.
  rewrite andb_true_r in Hb. apply orb_false_iff in Hb as [_ ->]. reflexivity.
Qed.

Lemma foldr_append_app l1 l2 :
  fold_right String.append "" (l1 ++ l2) =
  fold_right String.append "" l1 +:+ fold_right String.append "" l2.
Proof.
  induction l1 as [|x l1 IH]; cbn [app fold_right]; [reflexivity|].
  now rewrite IH, append_assoc.
Qed.

Lemma play_field_facts s :
  play_field s ->
  goes_negative 0 s = false /\ depth s = 0%Z /\ top_sep_free slash_or_dot 0 s = true /\
  s <> "" /\ s <> String newline "".
Proof.
  intros (Hb & Hf & H1 & H2). rewrite unbalanced_iff in Hb.
  destruct (goes_negative 0 s); [exfalso; apply Hb; now left|].
  destruct (Z.eq_dec (depth s) 0) as [Hd|Hd]; [auto | exfalso; apply Hb; now right].
Qed.

Lemma pieces_balanced ps :
  forall p0,
    goes_negative 0 p0 = false -> depth p0 = 0%Z ->
    Forall separated_field ps ->
    goes_negative 0 (p0 +:+ fold_right String.append "" ps) = false /\
    depth (p0 +:+ fold_right String.append "" ps) = 0%Z.
Proof.
  induction ps as [|p ps IH]; intros p0 Hn Hd Hps; cbn [fold_right].
  - rewrite append_nil_r. auto.
  - apply Forall_cons in Hps as [(c & f & -> & Hc & Hf) Hps].
    apply play_field_facts in Hf as (Hfn & Hfd & _).
    destruct (separator_not_paren _ _ slash_or_dot_one_char Hc) as [H1 H2].
    assert (goes_negative 0 (String c f) = false /\ depth (String c f) = 0%Z) as [Hcn Hcd].
    { cbn [goes_negative depth]. rewrite (paren_step_other c H1 H2). cbn. auto. }
    destruct (IH (String c f) Hcn Hcd Hps) as [Hn' Hd'].
    rewrite goes_negative_append, depth_append, Hn, Hd. change (0 + 0)%Z with 0%Z.
    rewrite Hn', Hd'. auto.
Qed.

Lemma foldr_last_field ps :
  ps <> [] -> Forall separated_field ps ->
  exists pre f, fold_right String.append "" ps = pre +:+ f /\ play_field f.
Proof.
  induction ps as [|p [|q ps] IH]; intros Hne Hps; [contradiction | |].
  - apply Forall_cons in Hps as [(c & f & -> & _ & Hf) _].
    exists (String c ""), f. cbn [fold_right String.append]. now rewrite append_nil_r.
  - apply Forall_cons in Hps as [_ Hps].
    destruct (IH ltac:(discriminate) Hps) as (pre & f & E & Hf).
    exists (p +:+ pre), f. split; [|exact Hf].
    change (fold_right String.append "" (p :: q :: ps))
      with (p +:+ fold_right String.append "" (q :: ps)).
    now rewrite E, append_assoc.
Qed.

Lemma split_sep_compose event ps :
  play_field event -> Forall separated_field ps ->
  split_sep_rspct_paren (event +:+ fold_right String.append "" ps) slash_or_dot
  = Ok (event :: ps).
Proof.
  intros He Hps. pose proof (play_field_facts _ He) as (Hn & Hd & Hfree & Hne & Hnl).
  rewrite (split_sep_pieces slash_or_dot _ slash_or_dot_one_char). cbv zeta.
  set (text := event +:+ fold_right String.append "" ps).
  assert (sub (at_either_end slash_or_dot) "" text = text) as ->.
  { assert (safe_end text = true) as Hsafe.
    { destruct ps as [|p ps'] eqn:Eps.
      - unfold text. cbn [fold_right]. rewrite append_nil_r.
        exact (safe_end_free event 0%Z Hfree ltac:(lia)).
      - destruct (foldr_last_field (p :: ps') ltac:(discriminate) Hps) as (pre & f & E & Hf).
        apply play_field_facts in Hf as (_ & Hfd & Hff & Hf1 & Hf2).
        unfold text. rewrite E, <- append_assoc, (safe_end_append _ f Hf1 Hf2).
        exact (safe_end_free f 0%Z Hff ltac:(lia)). }
    destruct event as [|c e]; [contradiction|].
    unfold text in *. cbn [String.append] in *. apply sub_either_end_id; [|exact Hsafe].
    cbn [top_sep_free] in Hfree. apply andb_true_iff in Hfree as [Hb _].
    apply negb_true_iff in Hb. unfold sep_boundary in Hb. cbn [Z.eqb] in Hb.
    now rewrite andb_true_r in Hb. }
  subst text. destruct (pieces_balanced ps event Hn Hd Hps) as [-> ->].
  cbn [orb Z.ltb Z.compare]. f_equal. unfold break_before.
  rewrite (chunks_pieces slash_or_dot slash_or_dot_one_char ps event "" Hfree Hd).
  - reflexivity.
  - eapply Forall_impl; [exact Hps|]. intros p (c & f & -> & Hc & Hf).
    apply play_field_facts in Hf as (_ & Hfd & Hff & _). eauto 10.
Qed.

Lemma join_semicolon_field advs :
  forall t, Forall play_field (t :: advs) -> play_field (join ";" (t :: advs)).
Proof.
  induction advs as [|a advs IH]; intros t [Ht Hadvs]%Forall_cons; [exact Ht|].
  change (join ";" (t :: a :: advs)) with (t +:+ String ";" (join ";" (a :: advs))).
  specialize (IH a Hadvs). set (J := join ";" (a :: advs)) in *. clearbody J.
  apply play_field_facts in Ht as (Hn & Hd & Hf & Hne & _).
  apply play_field_facts in IH as (Hn' & Hd' & Hf' & _).
  repeat split.
  - rewrite unbalanced_iff, goes_negative_append, depth_append, Hn, Hd.
    cbn [goes_negative depth]. change (paren_step ";") with 0%Z.
    change (0 + 0 + 0)%Z with 0%Z. rewrite Hn', Hd'. cbn. intros [H|H]; [discriminate | lia].
  - rewrite top_sep_free_append, Hf, Hd. cbn [top_sep_free andb].
    change (sep_boundary slash_or_dot (0 + 0) ";") with false.
    change (sep_next (0 + 0) ";") with 0%Z. exact Hf'.
  - destruct t; [contradiction | discriminate].
  - destruct t as [|c [|d t]]; [contradiction | discriminate | discriminate].
Qed.

Lemma is_match_dot_field s :
  top_sep_free slash_or_dot 0 s = true -> is_match (Chr ".") s = false.
Proof.
  destruct s as [|c s]; [reflexivity|]. cbn [top_sep_free].
  intros [Hb _]%andb_true_iff. apply negb_true_iff in Hb.
  unfold sep_boundary in Hb. rewrite is_match_slash_or_dot in Hb. cbn [Z.eqb] in Hb.
  rewrite andb_true_r in Hb. apply orb_false_iff in Hb as [_ Hc].
  unfold is_match, match_at, Chr. cbn [run rest]. unfold chr.
  rewrite Ascii.eqb_sym, Hc. reflexivity.
Qed.

Lemma map_strip_leading_slash mods :
  map (sub (Seq Bol (Chr "/")) "") (map (String "/") mods) = mods.
Proof.
  induction mods as [|m mods IH]; [reflexivity|]. cbn [map].
  rewrite IH, sub_leading_slash. reflexivity.
Qed.

Lemma separated_mods mods :
  Forall play_field mods -> Forall separated_field (map (String "/") mods).
Proof.
  intros H. apply Forall_fmap. eapply Forall_impl; [exact H|].
  intros m Hm. exists "/"%char, m. repeat split; try apply Hm.
Qed.

(** X19.  Round trip of [_playSplitter]: a play written as an event, then
    each modifier after a [/], then, when there are advances, a [.] and
    the advances joined by [;], is split back into that event, those
    modifiers and those advances.  Every field has balanced parentheses,
    no [/] or [.] outside them, and is neither empty nor a lone line feed;
    no advance holds a [;]. *)
Theorem playSplitter_round_trip (event : string) (mods advs : list string) :
  play_field event ->
  Forall play_field mods ->
  Forall (fun t => play_field t /\ all_in (cnot (chr ";")) t = true) advs ->
  _playSplitter (compose_play event mods advs) = Ok (PlaySplit.Make event mods advs).
Proof.
  intros He Hmods Hadvs. unfold compose_play, _playSplitter.
  pose proof (separated_mods mods Hmods) as Hps. rewrite join_empty_sep.
  destruct advs as [|t advs].
  - rewrite append_nil_r, (split_sep_compose event _ He Hps).
    cbn [mbind result_bind first]. unfold final.
    destruct (last (event :: map (String "/") mods)) as [lst|] eqn:Hlast;
      [|apply last_None in Hlast; discriminate].
    cbn [mbind result_bind].
    assert (is_match (Chr ".") lst = false) as ->.
    { apply last_Some_elem_of, elem_of_cons in Hlast as [->|Hin].
      - apply is_match_dot_field, He.
      - apply list_elem_of_fmap in Hin as (m & -> & _). reflexivity. }
    cbn [tail]. now rewrite map_strip_leading_slash.
  - set (clause := join ";" (t :: advs)).
    assert (play_field clause) as Hclause.
    { apply join_semicolon_field. eapply Forall_impl; [exact Hadvs|]. now intros x [Hx _]. }
    assert (Forall separated_field (map (String "/") mods ++ [String "." clause])) as Hall.
    { apply Forall_app. split; [exact Hps|]. apply Forall_singleton.
      exists "."%char, clause. repeat split; try apply Hclause. }
    replace (fold_right String.append "" (map (String "/") mods) +:+ String "." clause)
      with (fold_right String.append "" (map (String "/") mods ++ [String "." clause])).
    2:{ rewrite foldr_append_app. cbn [fold_right]. now rewrite append_nil_r. }
    rewrite (split_sep_compose event _ He Hall).
    cbn [mbind result_bind first]. unfold final.
    rewrite app_comm_cons, last_snoc. cbn [mbind result_bind].
    change (is_match (Chr ".") (String "." clause)) with true. cbn iota.
    rewrite <- app_comm_cons. cbn [tail]. rewrite removelast_last, map_strip_leading_slash.
    apply play_field_facts in Hclause as (_ & Hd & Hf & _).
    rewrite (strip_dot_clause clause Hf Hd). unfold split, clause.
    rewrite split_join_semicolon; [reflexivity|].
    eapply Forall_impl; [exact Hadvs|]. now intros x [_ Hx].
Qed.

(** ** The rows of a game file *)

Lemma run_Lit w :
  forall st st', st' ∈ run (Lit w) st <->
    exists r, rest st = w +:+ r /\
      st' = match w with EmptyString => st | _ => MState false (grp1 st) r end.
Proof.
  induction w as [|c w IH]; intros st st'.
  - cbn [Lit]. rewrite elem_of_run_Eps. split.
    + intros ->. exists (rest st). auto.
    + intros (r & _ & ->). reflexivity.
  - destruct w as [|d w].
    + cbn [Lit]. unfold Chr. rewrite elem_of_run_Sym. split.
      * intros (c' & s' & Hr & Hc%chr_true & ->). subst c'. exists s'. auto.
      * intros (r & Hr & ->). exists c, r. repeat split; [exact Hr|].
        unfold chr. apply Ascii.eqb_refl.
    + change (Lit (String c (String d w))) with (Seq (Chr c) (Lit (String d w))).
      rewrite elem_of_run_Seq. unfold Chr. split.
      * intros (st1 & (c' & s' & Hr & Hc%chr_true & ->)%elem_of_run_Sym & H2). subst c'.
        apply IH in H2 as (r & Hr2 & ->). cbn [rest grp1] in *. subst s'.
        exists r. auto.
      * intros (r & Hr & ->). exists (MState false (grp1 st) (String d w +:+ r)). split.
        -- apply elem_of_run_Sym. exists c, (String d w +:+ r).
           repeat split; [exact Hr|]. unfold chr. apply Ascii.eqb_refl.
        -- apply IH. exists r. auto.
Qed.

Lemma is_match_Lit w j : is_match (Lit w) j = true <-> exists r, j = w +:+ r.
Proof.
  rewrite is_match_true. split.
  - intros (st & (r & Hr & _)%run_Lit). exists r. exact Hr.
  - intros (r & ->). eexists. apply run_Lit. exists r. split; reflexivity.
Qed.

Lemma play_or_com_cases j :
  is_match re_play_or_com j = true ->
  is_match (Lit "play,") j = true \/ is_match (Lit "com,") j = true.
Proof.
  intros (st & H)%is_match_true. unfold re_play_or_com in H.
  apply elem_of_run_Seq in H as (st1 & H1 & H2).
  apply elem_of_run_Grp in H1 as (st2 & H1 & ->).
  unfold Chr in H2. apply elem_of_run_Sym in H2 as (c & s' & Hr & Hc%chr_true & _).
  subst c. cbn [rest] in Hr.
  apply elem_of_run_Alt in H1 as [H1|H1];
    apply elem_of_run_Grp in H1 as (st3 & H1 & ->);
    apply run_Lit in H1 as (r & Hj & ->); cbn [rest] in *; subst r;
    [left | right]; apply is_match_Lit; exists s'; exact Hj.
Qed.

Lemma str_split_from_cons sep s : forall cur, exists x l, str_split_from sep cur s = x :: l.
Proof.
  induction s as [|c s IH]; intros cur; cbn [str_split_from]; [eauto|].
  destruct (Ascii.eqb c sep); [eauto | apply IH].
Qed.

Lemma play_line_fields j :
  is_match (Lit "play,") j = true -> exists x l, str_split "," j = "play" :: x :: l.
Proof.
  intros (r & ->)%is_match_Lit.
  destruct (str_split_from_cons "," r "") as (x & l & E). exists x, l.
  change (str_split "," ("play," +:+ r)) with ("play" :: str_split_from "," "" r).
  now rewrite E.
Qed.

Lemma com_line_fields j :
  is_match (Lit "com,") j = true -> exists x l, str_split "," j = "com" :: x :: l.
Proof.
  intros (r & ->)%is_match_Lit.
  destruct (str_split_from_cons "," r "") as (x & l & E). exists x, l.
  change (str_split "," ("com," +:+ r)) with ("com" :: str_split_from "," "" r).
  now rewrite E.
Qed.

Lemma mid_lookup {A} (P : list A) x R : (P ++ x :: R) !! length P = Some x.
Proof. now apply list_lookup_middle. Qed.

Lemma mid_insert {A} (P : list A) x y R : <[length P := y]> (P ++ x :: R) = P ++ y :: R.
Proof. induction P as [|p P IH]; [reflexivity|]. cbn [app length]. cbn. f_equal. exact IH. Qed.

Lemma py_pos_nat len n : n < len -> py_pos len (Z.of_nat n) = Some n.
Proof.
  intros H. unfold py_pos.
  destruct (Z.ltb_spec (Z.of_nat n) 0) as [H0|_]; [lia|].
  destruct (Z.ltb_spec (Z.of_nat n) (Z.of_nat len)) as [_|H1]; [|lia].
  now rewrite Nat2Z.id.
Qed.

Lemma keep_plays_app a b :
  keep_plays (a ++ b) = ra ← keep_plays a; rb ← keep_plays b; Some (ra ++ rb).
Proof.
  induction a as [|x a IH]; cbn [app keep_plays].
  - cbn. destruct (keep_plays b); reflexivity.
  - destruct (item_get x 0) as [h|]; [|reflexivity]. cbn. rewrite IH.
    destruct (keep_plays a) as [ra|]; [|reflexivity]. cbn.
    destruct (keep_plays b) as [rb|]; [|reflexivity]. cbn.
    destruct (String.eqb h "play"); reflexivity.
Qed.

Lemma keep_plays_coms coms :
  Forall (fun r => r !! 0 = Some "com") coms -> keep_plays (map Fields coms) = Some [].
Proof.
  induction 1 as [|r coms Hr _ IH]; [reflexivity|].
  cbn [map keep_plays item_get]. rewrite Hr, IH. reflexivity.
Qed.

Lemma loop_step_play n P j R t :
  is_match (Lit "play,") j = true ->
  playsAndComments_loop (S n) (length P) t (P ++ Line j :: R) =
  playsAndComments_loop n (S (length P)) 1 (P ++ Fields (str_split "," j ++ [""]) :: R).
Proof.
  intros Hp. cbn [playsAndComments_loop]. rewrite mid_lookup. cbn [mbind option_bind].
  rewrite Hp, mid_insert. reflexivity.
Qed.

Lemma loop_step_com n P j R t k target :
  is_match (Lit "play,") j = false -> is_match (Lit "com,") j = true ->
  (0 <= t)%Z ->
  let com_row := ["com"; ""; ""; ""; ""; ""; ""; comment_text j] in
  py_pos (length (P ++ Fields com_row :: R)) (Z.of_nat (length P) - t) = Some k ->
  (P ++ Fields com_row :: R) !! k = Some (Fields target) ->
  playsAndComments_loop (S n) (length P) t (P ++ Line j :: R) =
  if Nat.ltb 7 (length target)
  then playsAndComments_loop n (S (length P)) (t + 1)
         (<[k := Fields (add_comment target (comment_text j))]> (P ++ Fields com_row :: R))
  else None.
Proof.
  intros Hp Hc Ht com_row Hk Htarget. cbn [playsAndComments_loop].
  rewrite mid_lookup. cbn [mbind option_bind]. rewrite Hp, Hc.
  destruct (com_line_fields j Hc) as (x & l & E).
  assert (comment_text j = strip "$ " (strip (String quote "") x)) as Etext
    by (unfold comment_text; rewrite E; reflexivity).
  rewrite E. cbn [lookup list_lookup mbind option_bind]. rewrite mid_insert.
  change (["com"] ++ replicate 6 "" ++ [strip "$ " (strip (String quote "") x)])
    with ["com"; ""; ""; ""; ""; ""; ""; strip "$ " (strip (String quote "") x)].
  rewrite <- Etext. fold com_row.
  destruct (Z.leb_spec 0 t) as [_|Hlt]; [|lia].
  rewrite Hk. cbn [mbind option_bind]. rewrite Htarget. cbn [mbind option_bind item_get].
  destruct (Nat.ltb_spec 7 (length target)) as [Hlen|Hlen].
  - destruct (lookup_lt_is_Some_2 target 7 Hlen) as (a & Ha). rewrite Ha.
    cbn [mbind option_bind]. rewrite mid_lookup. cbn [mbind option_bind item_get item_set].
    change (com_row !! 7) with (Some (comment_text j)). cbn [mbind option_bind].
    destruct (Nat.ltb_spec 7 (length target)) as [_|Hge]; [|lia].
    cbn [mbind option_bind]. unfold add_comment. rewrite Ha. reflexivity.
  - rewrite (lookup_ge_None_2 target 7 Hlen). reflexivity.
Qed.

Lemma loop_open todo :
  forall d1 rows row coms,
    Forall (fun j => is_match re_play_or_com j = true) todo ->
    keep_plays (map Fields d1) = Some (map Fields rows) ->
    row !! 0 = Some "play" ->
    Forall (fun r => r !! 0 = Some "com") coms ->
    playsAndComments_loop (length todo)
      (length (map Fields d1 ++ Fields row :: map Fields coms)) (Z.of_nat (S (length coms)))
      ((map Fields d1 ++ Fields row :: map Fields coms) ++ map Line todo) ≫= keep_plays
    = map Fields <$> rows_from rows row todo.
Proof.
  induction todo as [|j todo IH]; intros d1 rows row coms Hall Hkeep Hrow Hcoms.
  - cbn [length playsAndComments_loop map rows_from mbind option_bind fmap option_fmap
         option_map].
    rewrite app_nil_r, keep_plays_app, Hkeep. cbn [mbind option_bind keep_plays item_get].
    rewrite Hrow, (keep_plays_coms coms Hcoms). cbn. rewrite map_app. reflexivity.
  - apply Forall_cons in Hall as [Hj Hall]. cbn [length map rows_from].
    destruct (is_match (Lit "play,") j) eqn:Hp.
    + rewrite (loop_step_play _ _ _ _ _ Hp).
      destruct (play_line_fields j Hp) as (x & l & E).
      specialize (IH (d1 ++ row :: coms) (rows ++ [row]) (str_split "," j ++ [""]) []
                    Hall).
      cbn [map length] in IH.
      replace (length (map Fields (d1 ++ row :: coms) ++ [Fields (str_split "," j ++ [""])]))
        with (S (length (map Fields d1 ++ Fields row :: map Fields coms))) in IH
        by (rewrite !length_app, !length_map, !length_app; cbn [length];
            rewrite !length_map; lia).
      replace (map Fields (d1 ++ row :: coms) ++ [Fields (str_split "," j ++ [""])])
        with ((map Fields d1 ++ Fields row :: map Fields coms) ++ [Fields (str_split "," j ++ [""])]) in IH
        by (now rewrite map_app).
      rewrite <- app_assoc in IH. cbn [app] in IH. apply IH.
      * rewrite map_app, keep_plays_app, Hkeep. cbn [mbind option_bind map keep_plays item_get].
        rewrite Hrow, (keep_plays_coms coms Hcoms). cbn. rewrite map_app. reflexivity.
      * rewrite E. reflexivity.
      * constructor.
    + destruct (play_or_com_cases j Hj) as [Hp'|Hc]; [congruence|].
      set (com_row := ["com"; ""; ""; ""; ""; ""; ""; comment_text j]).
      assert (length (map Fields d1) = length d1) as Ld1 by apply length_map.
      rewrite (loop_step_com _ _ j _ (Z.of_nat (S (length coms))) (length d1) row Hp Hc
               ltac:(lia)).
      * destruct (Nat.ltb 7 (length row)) eqn:Hlen; [|reflexivity].
        fold com_row. rewrite <- app_assoc. cbn [app]. rewrite <- Ld1.
        rewrite mid_insert.
        specialize (IH d1 rows (add_comment row (comment_text j)) (coms ++ [com_row]) Hall
                      Hkeep).
        replace (length (map Fields d1 ++ Fields (add_comment row (comment_text j))
                         :: map Fields (coms ++ [com_row])))
          with (S (length (map Fields d1 ++ Fields row :: map Fields coms))) in IH
          by (rewrite !length_app; cbn [length]; rewrite !length_map, !length_app;
              cbn [length]; lia).
        replace (Z.of_nat (S (length (coms ++ [com_row]))))
          with (Z.of_nat (S (length coms)) + 1)%Z in IH
          by (rewrite length_app; cbn [length]; lia).
        rewrite map_app, <- !app_assoc in IH. cbn [app map] in IH.
        rewrite <- app_assoc in IH. cbn [app] in IH. apply IH.
        -- unfold add_comment. rewrite list_lookup_insert_ne by discriminate. exact Hrow.
        -- apply Forall_app. split; [exact Hcoms|]. now repeat constructor.
      * fold com_row.
        replace (Z.of_nat (length (map Fields d1 ++ Fields row :: map Fields coms))
                 - Z.of_nat (S (length coms)))%Z with (Z.of_nat (length d1))
          by (rewrite length_app; cbn [length]; rewrite !length_map; lia).
        apply py_pos_nat.
        rewrite !length_app. cbn [length]. rewrite !length_map. lia.
      * fold com_row. rewrite <- app_assoc. cbn [app]. rewrite <- Ld1. apply mid_lookup.
Qed.

Lemma add_comment_com row c :
  length row = 8 /\ row !! 0 = Some "com" ->
  length (add_comment row c) = 8 /\ add_comment row c !! 0 = Some "com".
Proof.
  intros [H1 H2]. unfold add_comment. rewrite length_insert.
  rewrite list_lookup_insert_ne by discriminate. auto.
Qed.

Lemma loop_start todo :
  forall coms,
    Forall (fun j => is_match re_play_or_com j = true) todo ->
    Forall (fun r => length r = 8 /\ r !! 0 = Some "com") coms ->
    playsAndComments_loop (length todo) (length (map Fields coms)) (Z.of_nat (length coms))
      (map Fields coms ++ map Line todo) ≫= keep_plays
    = map Fields <$> rows_of todo.
Proof.
  induction todo as [|j todo IH]; intros coms Hall Hcoms.
  - cbn [length playsAndComments_loop map rows_of mbind option_bind]. rewrite app_nil_r.
    rewrite keep_plays_coms; [reflexivity|].
    eapply Forall_impl; [exact Hcoms|]. now intros r [_ H].
  - apply Forall_cons in Hall as [Hj Hall]. cbn [length map rows_of].
    destruct (is_match (Lit "play,") j) eqn:Hp.
    + rewrite (loop_step_play _ _ _ _ _ Hp).
      destruct (play_line_fields j Hp) as (x & l & E).
      pose proof (loop_open todo coms [] (str_split "," j ++ [""]) [] Hall) as H.
      cbn [map length] in H.
      replace (length (map Fields coms ++ [Fields (str_split "," j ++ [""])]))
        with (S (length (map Fields coms))) in H by (rewrite length_app; cbn [length]; lia).
      rewrite <- app_assoc in H. cbn [app] in H. apply H.
      * apply keep_plays_coms. eapply Forall_impl; [exact Hcoms|]. now intros r [_ Hr].
      * rewrite E. reflexivity.
      * constructor.
    + destruct (play_or_com_cases j Hj) as [Hp'|Hc]; [congruence|].
      set (com_row := ["com"; ""; ""; ""; ""; ""; ""; comment_text j]).
      assert (length com_row = 8 /\ com_row !! 0 = Some "com") as Hcr by (split; reflexivity).
      assert (exists target cs,
                 coms ++ [com_row] = target :: cs /\
                 (length target = 8 /\ target !! 0 = Some "com")) as (target & cs & Ecs & Ht).
      { destruct coms as [|r coms']; [exists com_row, []; auto|].
        apply Forall_cons in Hcoms as [Hr _]. exists r, (coms' ++ [com_row]). auto. }
      assert (map Fields coms ++ Fields com_row :: map Line todo
              = Fields target :: map Fields cs ++ map Line todo) as Epac.
      { change (Fields com_row :: map Line todo) with (map Fields [com_row] ++ map Line todo).
        rewrite app_assoc, <- map_app, Ecs. reflexivity. }
      rewrite (loop_step_com _ _ j _ (Z.of_nat (length coms)) 0 target Hp Hc ltac:(lia)).
      * destruct Ht as [Ht8 Ht0]. rewrite Ht8. cbn [Nat.ltb Nat.leb].
        fold com_row. rewrite Epac. cbn [insert list_insert].
        specialize (IH (add_comment target (comment_text j) :: cs) Hall).
        assert (length cs = length coms) as Lcs.
        { apply (f_equal length) in Ecs. rewrite length_app in Ecs. cbn [length] in Ecs. lia. }
        cbn [map length app] in IH. rewrite length_map in IH. rewrite length_map.
        rewrite Lcs in IH.
        replace (Z.of_nat (S (length coms))) with (Z.of_nat (length coms) + 1)%Z in IH by lia.
        apply IH. constructor; [apply add_comment_com; auto|].
        assert (Forall (fun r => length r = 8 /\ r !! 0 = Some "com") (coms ++ [com_row])) as HF
          by (apply Forall_app; split; [exact Hcoms | now repeat constructor]).
        rewrite Ecs in HF. now apply Forall_cons in HF as [_ HF].
      * fold com_row. rewrite length_map, Z.sub_diag. apply (py_pos_nat _ 0).
        rewrite length_app. cbn [length]. lia.
      * fold com_row. rewrite Epac. reflexivity.
Qed.

Lemma plays_rows_rows_of lst : plays_rows lst = map Fields <$> rows_of (play_lines lst).
Proof.
  unfold plays_rows, play_lines.
  set (lines := filter (fun j => is_match re_play_or_com j = true) lst).
  assert (Forall (fun j => is_match re_play_or_com j = true) lines) as Hall.
  { apply Forall_forall. intros j Hj. now apply list_elem_of_filter in Hj as [Hj _]. }
  exact (loop_start lines [] Hall (Forall_nil_2 _)).
Qed.

(** X20.  The rows that [RetrosheetEventFormatter] makes for the table of
    plays, read off its loop over plays and comments: each play line gives
    one row, its fields and an empty comment; the text of each comment
    line is added, after a space and stripped of spaces at the ends, to
    the comment of the nearest play line before it; comment lines before
    the first play line leave no trace; and the loop fails where a comment
    follows a play line whose row has no eighth cell. *)
Theorem plays_rows_by_line (lst : list string) :
  plays_rows lst = map Fields <$> rows_of (play_lines lst).
Proof. exact (plays_rows_rows_of lst). Qed.

Lemma length_add_comment row c : length (add_comment row c) = length row.
Proof. unfold add_comment. apply length_insert. Qed.

Lemma rows_from_None l :
  forall rows cur,
    rows_from rows cur l = None <->
    (length cur <= 7 /\ exists c l', l = c :: l' /\ is_match (Lit "play,") c = false) \/
    (exists pre p c post,
        l = pre ++ p :: c :: post /\ is_match (Lit "play,") p = true /\
        is_match (Lit "play,") c = false /\ length (str_split "," p) < 7).
Proof.
  induction l as [|j l IH]; intros rows cur; cbn [rows_from].
  - split; [discriminate|].
    intros [(_ & c & l' & E & _)|(pre & p & c & post & E & _)]; [discriminate|].
    destruct pre; discriminate.
  - destruct (is_match (Lit "play,") j) eqn:Hp.
    + rewrite IH. split.
      * intros [(Hlen & c & l' & -> & Hc)|(pre & p & c & post & -> & H)].
        -- right. exists [], j, c, l'. rewrite length_app in Hlen. cbn [length] in Hlen.
           repeat split; auto. lia.
        -- right. exists (j :: pre), p, c, post. auto.
      * intros [(_ & c & l' & [= <- _] & Hc)|(pre & p & c & post & E & Hpp & Hc & Hlen)];
          [congruence|].
        destruct pre as [|x pre]; injection E as <- ->.
        -- left. rewrite length_app. cbn [length]. split; [lia | eauto].
        -- right. exists pre, p, c, post. auto.
    + destruct (Nat.ltb_spec 7 (length cur)) as [Hlen|Hlen].
      * rewrite IH, length_add_comment. split.
        -- intros [(Hle & _)|(pre & p & c & post & -> & H)]; [lia|].
           right. exists (j :: pre), p, c, post. auto.
        -- intros [(Hle & _)|(pre & p & c & post & E & Hpp & Hc & Hl)]; [lia|].
           destruct pre as [|x pre]; injection E as <- ->; [congruence|].
           right. exists pre, p, c, post. auto.
      * split; [|reflexivity]. intros _. left. split; [exact Hlen | eauto].
Qed.

Lemma rows_of_None l :
  rows_of l = None <->
  exists pre p c post,
    l = pre ++ p :: c :: post /\ is_match (Lit "play,") p = true /\
    is_match (Lit "play,") c = false /\ length (str_split "," p) < 7.
Proof.
  induction l as [|j l IH]; cbn [rows_of].
  - split; [discriminate|]. intros (pre & p & c & post & E & _). destruct pre; discriminate.
  - destruct (is_match (Lit "play,") j) eqn:Hp.
    + rewrite rows_from_None. split.
      * intros [(Hlen & c & l' & -> & Hc)|(pre & p & c & post & -> & H)].
        -- exists [], j, c, l'. rewrite length_app in Hlen. cbn [length] in Hlen.
           repeat split; auto. lia.
        -- exists (j :: pre), p, c, post. auto.
      * intros (pre & p & c & post & E & Hpp & Hc & Hlen).
        destruct pre as [|x pre]; injection E as <- ->.
        -- left. rewrite length_app. cbn [length]. split; [lia | eauto].
        -- right. exists pre, p, c, post. auto.
    + rewrite IH. split.
      * intros (pre & p & c & post & -> & H). exists (j :: pre), p, c, post. auto.
      * intros (pre & p & c & post & E & Hpp & Hc & Hl).
        destruct pre as [|x pre]; injection E as <- ->; [congruence|].
        exists pre, p, c, post. auto.
Qed.

(** X21.  The loop over plays and comments fails in one case only: a play
    line with fewer than seven fields, so that its row has no eighth cell,
    is followed at once by a comment line. *)
Theorem plays_rows_failure (lst : list string) :
  plays_rows lst = None <->
  exists pre p c post,
    play_lines lst = pre ++ p :: c :: post /\
    is_match (Lit "play,") p = true /\ is_match (Lit "play,") c = false /\
    length (str_split "," p) < 7.
Proof.
  rewrite plays_rows_rows_of, fmap_None. apply rows_of_None.
Qed.

Lemma rows_from_prefix l :
  forall rows cur out,
    rows_from rows cur l = Some out ->
    exists out', rows_from [] cur l = Some out' /\ out = rows ++ out'.
Proof.
  induction l as [|j l IH]; intros rows cur out; cbn [rows_from].
  - intros [= <-]. eauto.
  - destruct (is_match (Lit "play,") j).
    + intros H. destruct (IH _ _ _ H) as (o1 & H1 & ->).
      destruct (rows_from ([] ++ [cur]) (str_split "," j ++ [""]) l) as [o2|] eqn:H2.
      * destruct (IH _ _ _ H2) as (o3 & H3 & ->). rewrite H3 in H1. injection H1 as <-.
        exists ([cur] ++ o3). split; [reflexivity|]. now rewrite <- app_assoc.
      * apply rows_from_None in H2. assert (rows_from [] (str_split "," j ++ [""]) l = None)
          as H0 by (apply rows_from_None; exact H2). congruence.
    + destruct (Nat.ltb 7 (length cur)); [apply IH | discriminate].
Qed.

Lemma rows_from_comments coms :
  forall rows cur post out,
    Forall (fun c => is_match (Lit "play,") c = false) coms ->
    rows_from rows cur (coms ++ post) = Some out ->
    rows_from rows (fold_left add_comment (map comment_text coms) cur) post = Some out.
Proof.
  induction coms as [|c coms IH]; intros rows cur post out Hcoms; [auto|].
  apply Forall_cons in Hcoms as [Hc Hcoms]. cbn [app rows_from map fold_left]. rewrite Hc.
  destruct (Nat.ltb 7 (length cur)); [apply IH, Hcoms | discriminate].
Qed.

Lemma rows_from_play pre :
  forall rows cur p post,
    is_match (Lit "play,") p = true ->
    rows_from rows cur (pre ++ p :: post) =
    out ← rows_from rows cur pre; rows_from out (str_split "," p ++ [""]) post.
Proof.
  induction pre as [|j pre IH]; intros rows cur p post Hp; cbn [app rows_from].
  - rewrite Hp. reflexivity.
  - destruct (is_match (Lit "play,") j); [apply IH, Hp|].
    destruct (Nat.ltb 7 (length cur)); [apply IH, Hp | reflexivity].
Qed.

Lemma rows_of_play pre :
  forall p post,
    is_match (Lit "play,") p = true ->
    rows_of (pre ++ p :: post) =
    out ← rows_of pre; rows_from out (str_split "," p ++ [""]) post.
Proof.
  induction pre as [|j pre IH]; intros p post Hp; cbn [app rows_of].
  - rewrite Hp. reflexivity.
  - destruct (is_match (Lit "play,") j); [apply rows_from_play, Hp | apply IH, Hp].
Qed.

Lemma rows_from_length l :
  forall rows cur out,
    rows_from rows cur l = Some out ->
    length out =
    length rows + 1 + length (filter (fun j => is_match (Lit "play,") j = true) l).
Proof.
  induction l as [|j l IH]; intros rows cur out; cbn [rows_from].
  - intros [= <-]. rewrite length_app. cbn. lia.
  - rewrite filter_cons. destruct (is_match (Lit "play,") j) eqn:Hp.
    + rewrite decide_True by reflexivity. intros H%IH.
      rewrite length_app in H. cbn [length] in *. lia.
    + rewrite decide_False by discriminate.
      destruct (Nat.ltb 7 (length cur)); [apply IH | discriminate].
Qed.

Lemma rows_of_length l :
  forall out, rows_of l = Some out ->
              length out = length (filter (fun j => is_match (Lit "play,") j = true) l).
Proof.
  induction l as [|j l IH]; intros out; cbn [rows_of].
  - now intros [= <-].
  - rewrite filter_cons. destruct (is_match (Lit "play,") j) eqn:Hp.
    + rewrite decide_True by reflexivity. intros H%rows_from_length. cbn [length] in *. lia.
    + rewrite decide_False by discriminate. apply IH.
Qed.

Lemma is_match_play_or_com j :
  is_match (Lit "play,") j = true -> is_match re_play_or_com j = true.
Proof.
  intros (r & ->)%is_match_Lit. reflexivity.
Qed.

Lemma filter_play_lines lst :
  filter (fun j => is_match (Lit "play,") j = true) (play_lines lst)
  = filter (fun j => is_match (Lit "play,") j = true) lst.
Proof.
  unfold play_lines. induction lst as [|j lst IH]; [reflexivity|].
  rewrite !filter_cons. destruct (is_match (Lit "play,") j) eqn:Hp.
  - rewrite (decide_True (P := is_match re_play_or_com j = true))
      by (apply is_match_play_or_com, Hp).
    rewrite filter_cons, Hp, !decide_True by reflexivity. now rewrite IH.
  - rewrite (decide_False (P := false = true)) by discriminate.
    destruct (decide (is_match re_play_or_com j = true)); [|exact IH].
    rewrite filter_cons, Hp, decide_False by discriminate. exact IH.
Qed.

(** X22.  When the loop over plays and comments returns, there is one row
    per play line, in the order of the lines.  The row of a play line is
    its fields and an empty cell after them, in which the eighth cell has
    taken the texts of the comment lines that stand between the play line
    and the next one: each text is added after a space to what the cell
    held, and the spaces at the ends are stripped. *)
Theorem play_row_comments (lst pre : list string) (p : string) (coms post : list string)
    (rows : list item) :
  plays_rows lst = Some rows ->
  play_lines lst = pre ++ p :: coms ++ post ->
  is_match (Lit "play,") p = true ->
  Forall (fun c => is_match (Lit "play,") c = false) coms ->
  match post with
  | [] => True
  | q :: _ => is_match (Lit "play,") q = true
  end ->
  length rows = length (filter (fun j => is_match (Lit "play,") j = true) lst) /\
  rows !! length (filter (fun j => is_match (Lit "play,") j = true) pre)
  = Some (Fields (fold_left add_comment (map comment_text coms) (str_split "," p ++ [""]))).
Proof.
  rewrite plays_rows_rows_of. intros Hrows Elines Hp Hcoms Hpost.
  apply fmap_Some in Hrows as (out & Hout & ->). rewrite length_map. split.
  - rewrite (rows_of_length _ _ Hout), filter_play_lines. reflexivity.
  - rewrite Elines, (rows_of_play pre p _ Hp) in Hout.
    destruct (rows_of pre) as [o1|] eqn:Hpre; [|discriminate]. cbn [mbind option_bind] in Hout.
    rewrite <- (rows_of_length _ _ Hpre).
    apply rows_from_prefix in Hout as (o2 & Ho2 & ->).
    apply (rows_from_comments coms _ _ _ _ Hcoms) in Ho2.
    rewrite list_lookup_fmap, lookup_app_r by lia. rewrite Nat.sub_diag.
    destruct post as [|q post]; cbn [rows_from] in Ho2.
    + injection Ho2 as <-. reflexivity.
    + rewrite Hpost in Ho2. apply rows_from_prefix in Ho2 as (o3 & _ & ->). reflexivity.
Qed.

Lemma subs_loop_acc lst :
  forall i subs, subs_loop lst i subs = subs ++ subs_loop lst i [].
Proof.
  induction lst as [|j lst IH]; intros i subs; cbn [subs_loop].
  - now rewrite app_nil_r.
  - destruct (startswith j "sub,").
    + rewrite (IH i (subs ++ _)), (IH i ([] ++ _)), <- app_assoc. reflexivity.
    + destruct (startswith j "play,"); apply IH.
Qed.

Lemma subs_loop_length lst :
  forall i, length (subs_loop lst i []) = count_lines "sub," lst.
Proof.
  unfold count_lines. induction lst as [|j lst IH]; intros i; cbn [subs_loop]; [reflexivity|].
  rewrite filter_cons. destruct (startswith j "sub,") eqn:Hs.
  - rewrite decide_True by reflexivity. rewrite subs_loop_acc, length_app, IH. reflexivity.
  - rewrite decide_False by discriminate. destruct (startswith j "play,"); apply IH.
Qed.

Lemma sub_not_play j : startswith j "sub," = true -> startswith j "play," = false.
Proof.
  unfold startswith. destruct j as [|c j]; [discriminate|]. cbn [String.prefix].
  destruct (Ascii.ascii_dec "s" c) as [<-|Hc]; [intros _ | discriminate].
  destruct (Ascii.ascii_dec "p" "s"); [discriminate | reflexivity].
Qed.

Lemma subs_loop_before before :
  forall i j after,
    startswith j "sub," = true ->
    subs_loop (before ++ j :: after) i [] !! count_lines "sub," before
    = Some (tail (map Str (str_split "," j)
                  ++ [Num (i + Z.of_nat (count_lines "play," before))])).
Proof.
  unfold count_lines.
  induction before as [|b before IH]; intros i j after Hj; cbn [app subs_loop].
  - rewrite Hj, subs_loop_acc. cbn [filter list_filter length app lookup list_lookup].
    now rewrite Z.add_0_r.
  - rewrite !filter_cons. destruct (startswith b "sub,") eqn:Hb.
    + rewrite (sub_not_play b Hb), decide_True, decide_False by (reflexivity || discriminate).
      rewrite subs_loop_acc. cbn [app length lookup list_lookup]. apply IH, Hj.
    + rewrite (decide_False (P := false = true)) by discriminate.
      destruct (startswith b "play,") eqn:Hp.
      * rewrite decide_True by reflexivity. rewrite (IH _ _ _ Hj). cbn [length].
        match goal with
        | |- Some (tail (_ ++ [Num ?a])) = Some (tail (_ ++ [Num ?b])) =>
            replace a with b by lia
        end. reflexivity.
      * rewrite decide_False by discriminate. apply IH, Hj.
Qed.

(** X23.  The rows that [RetrosheetEventFormatter] makes for the table of
    substitutions: one row per line that opens with [sub,], in the order
    of the lines; the row holds the fields of the line after the first
    and then, as the number of the play after which the substitution was
    made, the count of the lines opening with [play,] before it, less one:
    -1 before the first play. *)
Theorem subs_rows_by_line (lst before : list string) (j : string) (after : list string) :
  lst = before ++ j :: after ->
  startswith j "sub," = true ->
  length (subs_rows lst) = count_lines "sub," lst /\
  subs_rows lst !! count_lines "sub," before
  = Some (map Str (tail (str_split "," j))
          ++ [Num (Z.of_nat (count_lines "play," before) - 1)]).
Proof.
  intros -> Hj. unfold subs_rows. split; [apply subs_loop_length|].
  rewrite (subs_loop_before before _ j after Hj).
  destruct (str_split_from_cons "," j "") as (x & l & E). unfold str_split. rewrite E.
  cbn [map app tail].
  match goal with
  | |- Some (_ ++ [Num ?a]) = Some (_ ++ [Num ?b]) => replace a with b by lia
  end. reflexivity.
Qed.

(** ** The stages of a row *)

Lemma subeventParser_returns s : exists e, _subeventParser s = Ok e.
Proof.
  unfold _subeventParser.
  repeat match goal with
  | |- context [if is_match ?r s then _ else _] => destruct (is_match r s)
  end; eauto.
  - destruct (map _ _) as [|b l]; [eauto|]. destruct (String.eqb b "B"); eauto.
  - destruct (cs_loop_returns (findall re_cs s) (findall_re_cs s) None [])
      as ([br out] & ->). simpl. eauto.
  - destruct (po_loop _ _ _) as [p out]. eauto.
  - destruct (pocs_loop_returns s (findall_group re_pocs_error s)
                "Picked Off Base Caught Stealing" None []) as ([p out] & ->).
    simpl. eauto.
Qed.

Lemma mapM_subeventParser_returns se :
  exists sp, mapM _subeventParser se = Ok sp /\ length sp = length se.
Proof.
  assert (exists sp, Forall2 (fun x y => _subeventParser x = Ok y) se sp) as (sp & H).
  { induction se as [|s se (sp & IH)]; [exists []; constructor|].
    destruct (subeventParser_returns s) as (e & He). exists (e :: sp). now constructor. }
  exists sp. split; [now apply mapM_Ok | symmetry; exact (Forall2_length _ _ _ H)].
Qed.

Lemma not_unbalanced_facts s : ~ unbalanced s -> goes_negative 0 s = false /\ depth s = 0%Z.
Proof.
  rewrite unbalanced_iff. intros Hb.
  destruct (goes_negative 0 s); [exfalso; apply Hb; now left|].
  destruct (Z.eq_dec (depth s) 0) as [Hd|Hd]; [auto | exfalso; apply Hb; now right].
Qed.

Lemma playSplitter_balanced play :
  ~ unbalanced play ->
  exists ps, _playSplitter play = Ok ps /\ ~ unbalanced (PlaySplit.event ps).
Proof.
  intros Hb. unfold _playSplitter.
  pose proof (split_sep_spec slash_or_dot play slash_or_dot_one_char) as Hspec.
  pose proof (split_sep_pieces_shape play slash_or_dot) as Hshape.
  destruct (split_sep_rspct_paren play slash_or_dot) as [l|e];
    [|destruct Hspec as [_ Hu]; contradiction].
  destruct (Hshape l slash_or_dot_one_char eq_refl) as (Hbal & p0 & ps & -> & _).
  apply Forall_cons in Hbal as [Hp0 _].
  cbn [mbind result_bind first]. unfold final.
  destruct (last (p0 :: ps)) as [lst|] eqn:Hlast;
    [|apply last_None in Hlast; discriminate].
  cbn [mbind result_bind]. destruct (is_match (Chr ".") lst); eexists; split;
    try reflexivity; exact Hp0.
Qed.

Lemma subevent_splitter_balanced event :
  ~ unbalanced event ->
  exists se, _subevent_splitter event = Ok se /\ se <> [].
Proof.
  intros Hb. unfold _subevent_splitter.
  pose proof (split_sep_spec plus_sign event plus_sign_one_char) as Hspec.
  pose proof (split_sep_pieces_shape event plus_sign) as Hshape.
  destruct (split_sep_rspct_paren event plus_sign) as [l|e];
    [|destruct Hspec as [_ Hu]; contradiction].
  destruct (Hshape l plus_sign_one_char eq_refl) as (Hbal & p0 & ps & -> & _).
  cbn [mbind result_bind].
  rewrite (mapM_event_splitter (p0 :: ps)).
  - cbn [mbind result_bind]. eexists. split; [reflexivity|].
    cbn [map concat]. unfold break_after_close at 1.
    destruct (chunks close_boundary close_next (0%Z, false) "" p0) as [|x l] eqn:E;
      [now apply chunks_not_nil in E | discriminate].
  - eapply Forall_impl; [exact Hbal|]. intros p. apply not_unbalanced_facts.
Qed.

Lemma basicPlayDesc_too_many subs :
  2 <= length subs -> starts_with_out subs -> 3 < count_outs subs ->
  basicPlayDesc subs = Raise UnboundLocalError /\ fullPlayDesc subs = Raise UnboundLocalError.
Proof.
  unfold starts_with_out. destruct subs as [|e [|e' l]]; cbn [length]; try lia.
  intros _ [= Hout] Hn. cbn [basicPlayDesc fullPlayDesc]. rewrite Hout. cbn [String.eqb].
  change (String.eqb "Out" "Out") with true. cbn iota.
  destruct (count_outs (e :: e' :: l)) as [|[|[|[|n]]]]; try lia. split; reflexivity.
Qed.

Lemma basicPlayDesc_not_value_error subs :
  subs <> [] -> basicPlayDesc subs <> Raise ValueError.
Proof.
  destruct subs as [|e [|e' l]]; [contradiction | discriminate |]. intros _.
  cbn [basicPlayDesc]. destruct (String.eqb (Subevent.basicPlay e) "Out"); [|discriminate].
  intros H. apply out_desc_raise in H as [H _]. discriminate.
Qed.

(** X24.  On a play with balanced parentheses the first stages that
    [enhancePlays] runs on a row never fail: [_playSplitter] returns,
    [_subevent_splitter] returns on the event it gave, with at least one
    piece, and [_subeventParser] returns on every piece; so
    [basicPlayDesc] is never given an empty list and never raises its
    value error there. *)
Theorem row_stages_return (play : string) :
  ~ unbalanced play ->
  exists ps se sp,
    _playSplitter play = Ok ps /\
    _subevent_splitter (PlaySplit.event ps) = Ok se /\
    mapM _subeventParser se = Ok sp /\
    se <> [] /\ length sp = length se /\
    basicPlayDesc sp <> Raise ValueError.
Proof.
  intros Hb. destruct (playSplitter_balanced play Hb) as (ps & Hps & Hev).
  destruct (subevent_splitter_balanced _ Hev) as (se & Hse & Hne).
  destruct (mapM_subeventParser_returns se) as (sp & Hsp & Hlen).
  exists ps, se, sp. repeat split; try assumption.
  apply basicPlayDesc_not_value_error. intros ->. destruct se; [contradiction | discriminate].
Qed.

Section RowsOfTheTable.

Variable list_of_set : gset string -> list string.

(** X25.  What [enhancePlays] never does: it returns no table when some
    row of type [play] has unbalanced parentheses, or has several
    sub-events of which the first is an Out and more than three are Outs,
    or has an empty advance token together with a sub-event that implies
    an advance.  One such row is enough, whatever the other rows hold. *)
Theorem enhancePlays_needs (plays : list Play.t) (f : Frame.t) (r : Play.t) :
  enhancePlays list_of_set plays = Ok f ->
  r ∈ plays -> Play.Type_ r = "play" ->
  ~ unbalanced (Play.Play r) /\
  forall ps se sp,
    _playSplitter (Play.Play r) = Ok ps ->
    _subevent_splitter (PlaySplit.event ps) = Ok se ->
    mapM _subeventParser se = Ok sp ->
    ~ (2 <= length sp /\ starts_with_out sp /\ 3 < count_outs sp) /\
    ~ (flat_map Subevent.implicitAdvances sp <> [] /\ "" ∈ PlaySplit.advs ps).
Proof.
  unfold enhancePlays. intros H Hr Hty.
  apply bind_Ok in H as (c1 & [_ H1]%mapM_Ok_lookup & H).
  apply bind_Ok in H as (c2 & [_ H2]%mapM_Ok_lookup & H).
  apply bind_Ok in H as (c3 & [_ H3]%mapM_Ok_lookup & H).
  apply bind_Ok in H as (c4 & [_ H4]%mapM_Ok_lookup & H).
  apply bind_Ok in H as (c5 & _ & H).
  apply bind_Ok in H as (c6 & _ & H).
  apply bind_Ok in H as (c7 & [_ H7]%mapM_Ok_lookup & _).
  assert (r ∈ filter (fun r => Play.Type_ r = "play") plays) as Hin
    by (apply list_elem_of_filter; auto).
  apply list_elem_of_lookup in Hin as (i & Hi).
  destruct (H1 i r Hi) as (ps0 & Hps0 & E1).
  destruct (H2 i ps0 Hps0) as (se0 & Hse0 & E2).
  destruct (H3 i se0 Hse0) as (sp0 & Hsp0 & E3).
  destruct (H4 i sp0 Hsp0) as (bd & _ & E4).
  assert (zip c1 c3 !! i = Some (ps0, sp0)) as Hz.
  { rewrite lookup_zip_with, Hps0. cbn. rewrite Hsp0. reflexivity. }
  destruct (H7 i _ Hz) as (pa & _ & E7). cbn [fst snd] in E7.
  split.
  - pose proof (split_sep_spec slash_or_dot (Play.Play r) slash_or_dot_one_char) as Hspec.
    unfold _playSplitter in E1.
    destruct (split_sep_rspct_paren (Play.Play r) slash_or_dot); [exact Hspec | discriminate].
  - intros ps se sp Hps Hse Hsp.
    rewrite E1 in Hps. injection Hps as <-. rewrite E2 in Hse. injection Hse as <-.
    rewrite E3 in Hsp. injection Hsp as <-. split.
    + intros (Hlen & Hout & Hn).
      destruct (basicPlayDesc_too_many sp0 Hlen Hout Hn) as [Hb _]. congruence.
    + intros [Himp Hempty]. unfold playerAdvances in E7.
      pose proof (implicit_advance3 se0 sp0 E3) as Ha3.
      rewrite (mentioned_raise _ _
                 (Forall_impl _ _ _ Ha3 advance3_nonempty) Himp Hempty) in E7.
      discriminate.
Qed.

End RowsOfTheTable.

Section PlayersOutFacts.

Variable list_of_set : gset string -> list string.
Hypothesis list_of_set_perm : forall X, list_of_set X ≡ₚ elements X.

(** X26.  [playersOut] returns for every play, without duplicates, and
    tells exactly who is out: a base is in the list when a sub-event puts
    it out or an advance token is an out attempt on it without error mark,
    unless some advance token exempts it, as a successful advance of that
    base or an out attempt on it with an error mark does; the exemption
    also cancels an out that a sub-event recorded. *)
Theorem playersOut_exact (ps : PlaySplit.t) (subs : list Subevent.t) :
  exists outs, playersOut list_of_set ps subs = Ok outs /\
    NoDup outs /\
    forall b, b ∈ outs <->
      (b ∈ flat_map Subevent.playersOut subs \/
       exists t, t ∈ PlaySplit.advs ps /\ out_attempt_without_error t b) /\
      ~ exists t, t ∈ PlaySplit.advs ps /\ exempts t b.
Proof.
  unfold playersOut.
  destruct (outs_loop_spec (PlaySplit.advs ps) [] []) as (n & o & -> & Hn & Ho).
  cbn [mbind result_bind]. eexists. split; [reflexivity|].
  split; [apply (NoDup_list_of_set list_of_set list_of_set_perm)|].
  intros b.
  rewrite (elem_of_list_of_set list_of_set list_of_set_perm), elem_of_difference,
    !elem_of_union, !elem_of_list_to_set, Hn, Ho.
  split.
  - intros [[[H|[H|H]]|H] Hne].
    + now apply elem_of_empty in H.
    + inversion H.
    + split; [right; exact H | intros Hex; apply Hne; right; exact Hex].
    + split; [left; exact H | intros Hex; apply Hne; right; exact Hex].
  - intros [[H|H] Hne].
    + split; [right; exact H | intros [Hx|Hx]; [inversion Hx | exact (Hne Hx)]].
    + split; [left; right; right; exact H | intros [Hx|Hx]; [inversion Hx | exact (Hne Hx)]].
Qed.

End PlayersOutFacts.

(** ** The segmenter, told without its own stripping *)

Lemma is_match_plus_sign c : is_match plus_sign (String c "") = Ascii.eqb c "+".
Proof.
  unfold is_match, match_at, plus_sign, Chr. cbn [run rest grp1]. unfold chr.
  rewrite (Ascii.eqb_sym "+" c). destruct (Ascii.eqb c "+"); reflexivity.
Qed.

Lemma match_at_plus_end_none c s :
  Ascii.eqb c "+" && (String.eqb s "" || String.eqb s (String newline "")) = false ->
  match_at (at_either_end plus_sign) false (String c s) = None.
Proof.
  intros Hend. destruct (match_at _ _ _) as [st|] eqn:E; [exfalso | reflexivity].
  apply match_at_Some in E. unfold at_either_end in E.
  assert (forall st0 st1, rest st0 = String c s -> st1 ∈ run plus_sign st0 ->
            Ascii.eqb c "+" = true /\ rest st1 = s) as Hsep.
  { intros st0 st1 H0 H. unfold plus_sign, Chr in H.
    apply elem_of_run_Sym in H as (c' & s' & Hr & Hp & ->).
    rewrite H0 in Hr. injection Hr as <- <-. apply chr_true in Hp. subst c.
    split; reflexivity. }
  apply elem_of_run_Alt in E as [E|E];
    apply elem_of_run_Grp in E as (st1 & E & _);
    apply elem_of_run_Seq in E as (st2 & E2 & E).
  - apply elem_of_run_Bol in E2 as [_ Hb]. discriminate.
  - apply elem_of_run_Grp in E2 as (st3 & E2 & ->).
    apply Hsep in E2 as [Hm Hr]; [|reflexivity].
    apply elem_of_run_Eol in E as [_ He]. cbn [rest] in He. rewrite Hr in He.
    rewrite Hm in Hend. cbn [andb] in Hend. apply orb_false_iff in Hend as [Ha Hb].
    apply String.eqb_neq in Ha, Hb. destruct He; contradiction.
Qed.

Lemma sub_from_plus_later s :
  sub_from (at_either_end plus_sign) "" false 0 s = without_last_plus s.
Proof.
  induction s as [|c s IH]; [reflexivity|]. cbn [without_last_plus].
  destruct (Ascii.eqb c "+" && (String.eqb s "" || String.eqb s (String newline "")))
    eqn:Hend.
  - apply andb_true_iff in Hend as [->%Ascii.eqb_eq Hs].
    apply orb_true_iff in Hs as [->%String.eqb_eq | ->%String.eqb_eq]; reflexivity.
  - cbn [sub_from]. rewrite (match_at_plus_end_none c s Hend), IH. reflexivity.
Qed.

Lemma sub_plus_ends s :
  sub (at_either_end plus_sign) "" s = without_last_plus (without_first_plus s).
Proof.
  unfold sub. destruct s as [|c s]; [reflexivity|]. cbn [without_first_plus].
  destruct (Ascii.eqb_spec c "+") as [->|Hc].
  - cbn [sub_from].
    assert (exists st, match_at (at_either_end plus_sign) true (String "+" s) = Some st /\
                       rest st = s) as (st & -> & Hr).
    { unfold match_at, at_either_end, plus_sign, Chr. cbn. eexists. split; reflexivity. }
    rewrite Hr. cbn [String.length String.append].
    replace (S (String.length s) - String.length s) with 1 by lia. cbn [Nat.eqb Nat.sub].
    apply sub_from_plus_later.
  - cbn [sub_from].
    assert (match_at (at_either_end plus_sign) true (String c s) = None) as ->.
    { destruct (match_at _ _ _) as [st|] eqn:E; [exfalso | reflexivity].
      apply match_at_Some in E. unfold at_either_end in E.
      apply elem_of_run_Alt in E as [E|E];
        apply elem_of_run_Grp in E as (st1 & E & _);
        apply elem_of_run_Seq in E as (st2 & E2 & E).
      - apply elem_of_run_Bol in E2 as [-> _].
        apply elem_of_run_Grp in E as (st3 & E & _).
        unfold plus_sign, Chr in E.
        apply elem_of_run_Sym in E as (c' & s' & [= <- _] & Hp%chr_true & _).
        contradiction.
      - apply elem_of_run_Grp in E2 as (st3 & E2 & _).
        unfold plus_sign, Chr in E2.
        apply elem_of_run_Sym in E2 as (c' & s' & [= <- _] & Hp%chr_true & _).
        contradiction. }
    change (without_last_plus (String c s))
      with (if Ascii.eqb c "+" && (String.eqb s "" || String.eqb s (String newline ""))
            then s else String c (without_last_plus s)).
    rewrite (proj2 (Ascii.eqb_neq c "+") Hc). cbn [andb].
    now rewrite sub_from_plus_later.
Qed.

Lemma break_before_split_on_plus s :
  forall nb pre cur,
    exists p l,
      split_on_plus nb cur s = p :: l /\
      chunks (sep_boundary plus_sign) sep_next nb (pre +:+ cur) s
      = (pre +:+ p) :: map (String "+") l.
Proof.
  induction s as [|c s IH]; intros nb pre cur; cbn [split_on_plus chunks].
  - exists cur, []. split; reflexivity.
  - unfold sep_boundary at 1. rewrite is_match_plus_sign.
    destruct (Ascii.eqb c "+" && (nb =? 0)%Z) eqn:Hb.
    + apply andb_true_iff in Hb as [->%Ascii.eqb_eq ->%Z.eqb_eq].
      destruct (IH 0%Z "+" "") as (p & l & Hp & Hc).
      exists cur, (p :: l). rewrite Hp. split; [reflexivity|].
      change (sep_next 0 "+") with 0%Z. change ("+" +:+ "") with (String "+" "") in Hc.
      rewrite Hc. reflexivity.
    + destruct (IH (nb + paren_step c)%Z pre (cur +:+ String c "")) as (p & l & Hp & Hc).
      exists p, l. split; [exact Hp|]. rewrite <- append_assoc in Hc. exact Hc.
Qed.

Lemma chunks_prefix {St : Type} (boundary : St -> ascii -> bool) (next : St -> ascii -> St) s :
  forall st pre cur,
    exists x l, chunks boundary next st cur s = x :: l /\
                chunks boundary next st (pre +:+ cur) s = (pre +:+ x) :: l.
Proof.
  induction s as [|c s IH]; intros st pre cur; cbn [chunks].
  - eauto.
  - destruct (boundary st c); [eauto|].
    destruct (IH (next st c) pre (cur +:+ String c "")) as (x & l & H1 & H2).
    exists x, l. split; [exact H1|]. rewrite <- append_assoc in H2. exact H2.
Qed.

Lemma snoc_inj a : forall b c d, a +:+ String c "" = b +:+ String d "" -> c = d.
Proof.
  induction a as [|x a IH]; intros [|y b] c d; cbn [String.append].
  - now intros [= ->].
  - intros [= _ H]. destruct b; discriminate.
  - intros [= _ H]. destruct a; discriminate.
  - intros [= _ H]. exact (IH _ _ _ H).
Qed.

Lemma rstrip_id chars s :
  (forall pre c, s = pre +:+ String c "" -> in_chars chars c = false) -> rstrip chars s = s.
Proof.
  induction s as [|c s IH]; intros Hlast; [reflexivity|]. cbn [rstrip].
  rewrite IH by (intros pre d ->; exact (Hlast (String c pre) d eq_refl)).
  destruct s as [|d s]; [|reflexivity].
  now rewrite (Hlast "" c eq_refl).
Qed.

Lemma strip_plus_id q :
  (forall tl, q <> String "+" tl) -> (forall pre, q <> pre +:+ "+") -> strip "+" q = q.
Proof.
  intros Hhead Hlast. unfold strip.
  assert (lstrip "+" q = q) as ->.
  { destruct q as [|c q]; [reflexivity|]. cbn [lstrip in_chars].
    destruct (Ascii.eqb_spec c "+") as [->|_]; [now destruct (Hhead q) | reflexivity]. }
  apply rstrip_id. intros pre c ->. cbn [in_chars].
  destruct (Ascii.eqb_spec c "+") as [->|_]; [now destruct (Hlast pre) | reflexivity].
Qed.

Lemma close_chunks_plus_free s :
  forall nb prev cur,
    top_sep_free plus_sign nb s = true -> (nb + depth s = 0)%Z ->
    (cur = "" -> nb = 0%Z) ->
    (forall tl, cur <> String "+" tl) ->
    (forall pre, cur = pre +:+ "+" -> nb <> 0%Z) ->
    Forall (fun q => (forall tl, q <> String "+" tl) /\ (forall pre, q <> pre +:+ "+"))
           (chunks close_boundary close_next (nb, prev) cur s).
Proof.
  induction s as [|c s IH]; intros nb prev cur Hfree Hd Hempty Hhead Hlast.
  - cbn [chunks]. cbn [depth] in Hd. apply Forall_singleton. split; [exact Hhead|].
    intros pre H. apply Hlast in H. lia.
  - cbn [top_sep_free depth] in Hfree, Hd. apply andb_true_iff in Hfree as [Hb Hfree].
    apply negb_true_iff in Hb. unfold sep_boundary in Hb. rewrite is_match_plus_sign in Hb.
    unfold sep_next in Hfree. cbn [chunks].
    change (close_next (nb, prev) c) with ((nb + paren_step c)%Z, Ascii.eqb c ")").
    assert (Ascii.eqb c "+" = true -> paren_step c = 0%Z /\ nb <> 0%Z) as Hplus.
    { intros Hc. rewrite Hc in Hb. cbn [andb] in Hb. apply Z.eqb_neq in Hb.
      apply Ascii.eqb_eq in Hc. subst c. split; [reflexivity | exact Hb]. }
    destruct (close_boundary (nb, prev) c) eqn:Hcut.
    + unfold close_boundary in Hcut. cbn [fst snd] in Hcut.
      apply andb_true_iff in Hcut as [Hcut _]. apply andb_true_iff in Hcut as [_ Hz%Z.eqb_eq].
      assert (Ascii.eqb c "+" = false) as Hc
        by (destruct (Ascii.eqb c "+"); [destruct (Hplus eq_refl); contradiction | reflexivity]).
      constructor.
      * split; [exact Hhead|]. intros pre H. now apply Hlast in H.
      * apply IH; [exact Hfree | lia | discriminate | |].
        -- intros tl [= -> _]. discriminate.
        -- intros pre H. apply (snoc_inj "" pre c "+") in H. subst c. discriminate.
    + apply IH; [exact Hfree | lia | | |].
      * destruct cur; discriminate.
      * destruct cur as [|d cur]; cbn [String.append].
        -- intros tl [= -> _]. destruct (Hplus eq_refl) as [_ Hnz]. now apply Hnz, Hempty.
        -- intros tl [= -> _]. exact (Hhead cur eq_refl).
      * intros pre H. apply snoc_inj in H. subst c.
        destruct (Hplus eq_refl) as [Hstep Hnz]. rewrite Hstep. lia.
Qed.

Lemma break_after_close_strip X :
  top_sep_free plus_sign 0 X = true -> depth X = 0%Z ->
  map (strip "+") (break_after_close X) = break_after_close X /\
  map (strip "+") (break_after_close (String "+" X)) = break_after_close X.
Proof.
  intros Hfree Hd.
  assert (map (strip "+") (break_after_close X) = break_after_close X) as Hid.
  { unfold break_after_close.
    pose proof (close_chunks_plus_free X 0%Z false "" Hfree ltac:(lia) ltac:(reflexivity)
                  ltac:(discriminate)) as H.
    assert (forall pre, "" = pre +:+ "+" -> 0%Z <> 0%Z) as Hl
      by (intros [|x pre]; discriminate).
    specialize (H Hl). induction H as [|q l [H1 H2] _ IH]; [reflexivity|].
    cbn [map]. now rewrite (strip_plus_id q H1 H2), IH. }
  split; [exact Hid|].
  unfold break_after_close in *. cbn [chunks].
  change (close_boundary (0%Z, false) "+") with false. cbv iota.
  change (close_next (0%Z, false) "+") with (0%Z, false).
  destruct (chunks_prefix close_boundary close_next X (0%Z, false) "+" "") as (x & l & H1 & H2).
  change ("" +:+ "+") with ("+" +:+ ""). rewrite H2, H1. rewrite H1 in Hid. cbn [map] in *.
  injection Hid as Hx Hl. rewrite Hl. f_equal.
  unfold strip in *. cbn [String.append lstrip in_chars]. rewrite Ascii.eqb_refl.
  cbn [orb]. exact Hx.
Qed.

Lemma map_flat_map {A B C} (f : B -> C) (g : A -> list B) l :
  map f (flat_map g l) = flat_map (fun x => map f (g x)) l.
Proof.
  induction l as [|x l IH]; [reflexivity|]. cbn [flat_map]. now rewrite map_app, IH.
Qed.

Lemma segment_atomic_pieces event :
  goes_negative 0 event = false -> depth event = 0%Z ->
  segment event = atomic_pieces event.
Proof.
  intros Hneg Hdepth. unfold segment, atomic_pieces. rewrite <- sub_plus_ends.
  pose proof (sub_either_end_thinned plus_sign event plus_sign_one_char true) as Hthin.
  apply thinned_depth in Hthin as [Hd Hn]. fold (sub (at_either_end plus_sign) "" event) in *.
  set (t := sub (at_either_end plus_sign) "" event) in *.
  assert (goes_negative 0 t = false) as Hnt by (now rewrite (Hn 0%Z) by lia).
  assert (depth t = 0%Z) as Hdt by lia.
  unfold break_before.
  destruct (break_before_split_on_plus t 0%Z "" "") as (p & l & Hsplit & Hchunks).
  change ("" +:+ "") with "" in Hchunks. change ("" +:+ p) with p in Hchunks.
  pose proof (break_before_balanced plus_sign t plus_sign_one_char 0%Z "" eq_refl eq_refl
                Hnt ltac:(lia)) as Hbal.
  destruct (sep_chunks_shape plus_sign t plus_sign_one_char 0%Z "")
    as (suffix & ps & Hshape & Hfree0 & Hfree).
  rewrite Hchunks in Hbal, Hshape. change ("" +:+ suffix) with suffix in Hshape.
  injection Hshape as <- <-. rewrite Hsplit, Hchunks.
  apply Forall_cons in Hbal as [[_ Hdp] Hbal].
  rewrite map_flat_map. cbn [flat_map].
  rewrite (proj1 (break_after_close_strip p Hfree0 Hdp)). f_equal.
  clear Hsplit Hchunks. induction l as [|q l IH]; [reflexivity|].
  cbn [map flat_map] in *.
  apply Forall_cons in Hbal as [[_ Hdq] Hbal].
  apply Forall_cons in Hfree as [(c & tl & [= <- <-] & _ & Hfq) Hfree].
  rewrite (proj2 (break_after_close_strip q Hfq ltac:(cbn [depth] in Hdq;
             change (paren_step "+") with 0%Z in Hdq; lia))).
  f_equal. exact (IH Hbal Hfree).
Qed.

(** C9.  On every event string the segmenter either raises the syntax
    error, when the parentheses are unbalanced, or returns the atomic
    pieces of the event: the text, less a [+] at its start and a [+] at its
    end, is split on each [+] at depth zero, which is dropped, and each
    piece is broken after a closing parenthesis at depth zero that an
    opening parenthesis does not follow.  No piece returned opens or ends
    with a [+], and every piece has balanced parentheses.  On
    [46(1)(E6)63] it returns [46(1)(E6)] and [63]; on [K+WP], [K] and
    [WP]; a [+] inside parentheses splits nothing. *)
Theorem segmenter_pieces (event : string) :
  _subevent_splitter event =
    (if goes_negative 0 event || (0 <? depth event)%Z then Raise SyntaxError
     else Ok (atomic_pieces event)) /\
  (forall pieces, _subevent_splitter event = Ok pieces ->
     Forall (fun p => (forall tl, p <> String "+" tl) /\
                      (forall pre, p <> pre +:+ "+") /\
                      ~ unbalanced p) pieces) /\
  _subevent_splitter "46(1)(E6)63" = Ok ["46(1)(E6)"; "63"] /\
  _subevent_splitter "K+WP" = Ok ["K"; "WP"] /\
  _subevent_splitter "K+PO1(E2+TH)" = Ok ["K"; "PO1(E2+TH)"].
Proof.
  split; [|split; [|repeat split; reflexivity]].
  - rewrite subevent_splitter_segment.
    destruct (goes_negative 0 event) eqn:Hneg; [reflexivity|].
    destruct (Z.ltb_spec 0 (depth event)) as [Hlt|Hle]; [reflexivity|].
    cbn [orb]. f_equal. apply segment_atomic_pieces; [exact Hneg|].
    pose proof (goes_negative_false_depth event 0%Z Hneg). lia.
  - intros pieces H. exact (subevent_splitter_clean event pieces H).
Qed.

(** ** The further properties at sample plays *)

Lemma event_splitter_join_witness :
  _event_splitter "46(1)(E6)63" = Ok ["46(1)(E6)"; "63"] /\
  join "" ["46(1)(E6)"; "63"] = "46(1)(E6)63".
Proof.
  assert (_event_splitter "46(1)(E6)63" = Ok ["46(1)(E6)"; "63"]) as H by reflexivity.
  split; [exact H|]. exact (event_splitter_join "46(1)(E6)63" ["46(1)(E6)"; "63"] H).
Defined.

Lemma event_splitter_shape_witness :
  _event_splitter "46(1)(E6)63" = Ok ["46(1)(E6)"; "63"] /\
  Forall (fun p => ~ unbalanced p) ["46(1)(E6)"; "63"] /\
  Forall (fun p => exists c tl, p = String c tl /\ c <> "("%char /\ c <> ")"%char)
         (tail ["46(1)(E6)"; "63"]) /\
  Forall (fun p => exists pre, p = pre +:+ ")") (removelast ["46(1)(E6)"; "63"]) /\
  ("46(1)(E6)63" <> "" -> Forall (fun p => p <> "") ["46(1)(E6)"; "63"]).
Proof.
  assert (_event_splitter "46(1)(E6)63" = Ok ["46(1)(E6)"; "63"]) as H by reflexivity.
  split; [exact H|]. exact (event_splitter_shape "46(1)(E6)63" ["46(1)(E6)"; "63"] H).
Defined.

Lemma split_sep_join_witness :
  one_char_separator slash_or_dot /\
  split_sep_rspct_paren "/64(1)3/GDP.2-3" slash_or_dot = Ok ["64(1)3"; "/GDP"; ".2-3"] /\
  join "" ["64(1)3"; "/GDP"; ".2-3"] = sub (at_either_end slash_or_dot) "" "/64(1)3/GDP.2-3" /\
  thinned "/64(1)3/GDP.2-3" (sub (at_either_end slash_or_dot) "" "/64(1)3/GDP.2-3").
Proof.
  assert (split_sep_rspct_paren "/64(1)3/GDP.2-3" slash_or_dot
          = Ok ["64(1)3"; "/GDP"; ".2-3"]) as H by reflexivity.
  split; [exact slash_or_dot_one_char|]. split; [exact H|].
  exact (split_sep_join "/64(1)3/GDP.2-3" slash_or_dot ["64(1)3"; "/GDP"; ".2-3"]
           slash_or_dot_one_char H).
Defined.

Lemma split_sep_shape_witness :
  one_char_separator plus_sign /\
  split_sep_rspct_paren "K+SB2(E2/TH)" plus_sign = Ok ["K"; "+SB2(E2/TH)"] /\
  Forall (fun p => ~ unbalanced p) ["K"; "+SB2(E2/TH)"] /\
  exists p0 ps,
    ["K"; "+SB2(E2/TH)"] = p0 :: ps /\
    top_sep_free plus_sign 0 p0 = true /\
    Forall (fun p => exists c tl, p = String c tl /\ is_match plus_sign (String c "") = true /\
                                  top_sep_free plus_sign 0 tl = true) ps.
Proof.
  assert (split_sep_rspct_paren "K+SB2(E2/TH)" plus_sign = Ok ["K"; "+SB2(E2/TH)"]) as H
    by reflexivity.
  split; [exact plus_sign_one_char|]. split; [exact H|].
  exact (split_sep_shape "K+SB2(E2/TH)" plus_sign ["K"; "+SB2(E2/TH)"] plus_sign_one_char H).
Defined.

Lemma subevent_splitter_pieces_clean_witness :
  _subevent_splitter "K+SB2(E2/TH)" = Ok ["K"; "SB2(E2/TH)"] /\
  Forall (fun p => (forall tl, p <> String "+" tl) /\
                   (forall pre, p <> pre +:+ "+") /\
                   ~ unbalanced p) ["K"; "SB2(E2/TH)"].
Proof.
  assert (_subevent_splitter "K+SB2(E2/TH)" = Ok ["K"; "SB2(E2/TH)"]) as H by reflexivity.
  split; [exact H|].
  exact (subevent_splitter_pieces_clean "K+SB2(E2/TH)" ["K"; "SB2(E2/TH)"] H).
Defined.

Lemma fielders_put_out_witness :
  "64" <> "" /\ all_in digit19 "64" = true /\
  _subeventParser "64" = Ok (Subevent.Make "Out" ["B"] []) /\
  forall b, base13B b = true ->
    _subeventParser ("64" +:+ String "(" (String b ")"))
    = Ok (Subevent.Make "Out" [String b ""] []).
Proof.
  assert ("64" <> "") as H1 by discriminate.
  assert (all_in digit19 "64" = true) as H2 by reflexivity.
  split; [exact H1|]. split; [exact H2|]. exact (fielders_put_out "64" H1 H2).
Defined.

Lemma hits_with_fielders_witness :
  all_in digit19 "89" = true /\
  _subeventParser "S89" = Ok (Subevent.Make "Hit - Single" [] ["B-1"]) /\
  _subeventParser "D89" = Ok (Subevent.Make "Hit - Double" [] ["B-2"]) /\
  _subeventParser "T89" = Ok (Subevent.Make "Hit - Triple" [] ["B-3"]).
Proof.
  assert (all_in digit19 "89" = true) as H by reflexivity.
  split; [exact H|]. exact (hits_with_fielders "89" H).
Defined.

Lemma caught_stealing_out_witness :
  base23H "2" = true /\
  exists outs,
    _subeventParser "CS2(26)"
    = Ok (Subevent.Make "Runner Caught Stealing" (base_before "2" :: outs) []).
Proof.
  assert (base23H "2" = true) as H by reflexivity.
  split; [exact H|]. exact (caught_stealing_out "2" "(26)" H).
Defined.

Lemma subevent_one_effect_witness :
  _subeventParser "S9" = Ok (Subevent.Make "Hit - Single" [] ["B-1"]) /\
  Subevent.implicitAdvances (Subevent.Make "Hit - Single" [] ["B-1"])
    ∈ [[]; ["B-1"]; ["B-2"]; ["B-3"]; ["B-H"]] /\
  (Subevent.implicitAdvances (Subevent.Make "Hit - Single" [] ["B-1"]) <> [] ->
   Subevent.playersOut (Subevent.Make "Hit - Single" [] ["B-1"]) = []).
Proof.
  assert (_subeventParser "S9" = Ok (Subevent.Make "Hit - Single" [] ["B-1"])) as H
    by reflexivity.
  split; [exact H|]. exact (subevent_one_effect "S9" _ H).
Defined.

Lemma playerAdvances_failure_witness :
  (forall X : gset string, elements X ≡ₚ elements X) /\
  mapM _subeventParser ["S9"] = Ok [Subevent.Make "Hit - Single" [] ["B-1"]] /\
  match playerAdvances elements (PlaySplit.Make "S9" [] ["2-H"; ""])
          [Subevent.Make "Hit - Single" [] ["B-1"]] with
  | Ok _ => flat_map Subevent.implicitAdvances [Subevent.Make "Hit - Single" [] ["B-1"]] = []
            \/ "" ∉ ["2-H"; ""]
  | Raise e => e = IndexError /\
               flat_map Subevent.implicitAdvances [Subevent.Make "Hit - Single" [] ["B-1"]]
               <> [] /\ "" ∈ ["2-H"; ""]
  end.
Proof.
  assert (mapM _subeventParser ["S9"] = Ok [Subevent.Make "Hit - Single" [] ["B-1"]])
    as H by reflexivity.
  split; [exact elements_lists_itself|]. split; [exact H|].
  exact (playerAdvances_failure elements elements_lists_itself
           (PlaySplit.Make "S9" [] ["2-H"; ""]) ["S9"] _ H).
Defined.

Lemma playerAdvances_sound_witness :
  (forall X : gset string, elements X ≡ₚ elements X) /\
  playerAdvances elements (PlaySplit.Make "S9" [] ["2-H"])
    [Subevent.Make "Hit - Single" [] ["B-1"]] = Ok {[ "2" := "H"; "B" := "1" ]} /\
  ({[ "2" := "H"; "B" := "1" ]} : gmap string string) !! "B" = Some "1" /\
  ((exists t, t ∈ ["2-H"] /\ explicit_advance t "B" "1") \/
   (exists a, a ∈ flat_map Subevent.implicitAdvances [Subevent.Make "Hit - Single" [] ["B-1"]] /\
              char_at a 0 = Ok "B" /\ char_at a 2 = Ok "1" /\
              forall t, t ∈ ["2-H"] -> ~ names_base t "B")).
Proof.
  assert (playerAdvances elements (PlaySplit.Make "S9" [] ["2-H"])
            [Subevent.Make "Hit - Single" [] ["B-1"]] = Ok {[ "2" := "H"; "B" := "1" ]})
    as H1 by (vm_compute; reflexivity).
  assert (({[ "2" := "H"; "B" := "1" ]} : gmap string string) !! "B" = Some "1")
    as H2 by (vm_compute; reflexivity).
  split; [exact elements_lists_itself|]. split; [exact H1|]. split; [exact H2|].
  exact (playerAdvances_sound elements elements_lists_itself (PlaySplit.Make "S9" [] ["2-H"])
           [Subevent.Make "Hit - Single" [] ["B-1"]] _ "B" "1" H1 H2).
Defined.

Lemma playerAdvances_complete_witness :
  (forall X : gset string, elements X ≡ₚ elements X) /\
  playerAdvances elements (PlaySplit.Make "S9" [] ["2-H"])
    [Subevent.Make "Hit - Single" [] ["B-1"]] = Ok {[ "2" := "H"; "B" := "1" ]} /\
  "2-H" ∈ ["2-H"] /\
  explicit_advance "2-H" "2" "H" /\
  (slice "2-H" 0 3
   ∉ flat_map Subevent.implicitAdvances [Subevent.Make "Hit - Single" [] ["B-1"]]) /\
  (forall t' v', t' ∈ ["2-H"] -> explicit_advance t' "2" v' -> v' = "H") /\
  ({[ "2" := "H"; "B" := "1" ]} : gmap string string) !! "2" = Some "H".
Proof.
  assert (playerAdvances elements (PlaySplit.Make "S9" [] ["2-H"])
            [Subevent.Make "Hit - Single" [] ["B-1"]] = Ok {[ "2" := "H"; "B" := "1" ]})
    as H1 by (vm_compute; reflexivity).
  assert ("2-H" ∈ ["2-H"]) as H2 by left.
  assert (explicit_advance "2-H" "2" "H") as H3.
  { exists "2"%char, "H"%char, "". repeat split; try reflexivity. now left. }
  assert (slice "2-H" 0 3
          ∉ flat_map Subevent.implicitAdvances [Subevent.Make "Hit - Single" [] ["B-1"]])
    as H4.
  { intros H. apply list_elem_of_singleton in H. discriminate. }
  assert (forall t' v', t' ∈ ["2-H"] -> explicit_advance t' "2" v' -> v' = "H") as H5.
  { intros t' v' ->%list_elem_of_singleton (c & d & tl & _ & _ & _ & -> & [E|[E _]]);
      [injection E as _ <- _; reflexivity | discriminate]. }
  split; [exact elements_lists_itself|]. repeat (split; [assumption|]).
  exact (playerAdvances_complete elements elements_lists_itself
           (PlaySplit.Make "S9" [] ["2-H"]) [Subevent.Make "Hit - Single" [] ["B-1"]]
           _ "2-H" "2" "H" H1 H2 H3 H4 H5).
Defined.

Lemma runsScored_at_most_four_witness :
  (forall X : gset string, elements X ≡ₚ elements X) /\
  mapM _subeventParser ["S9"] = Ok [Subevent.Make "Hit - Single" [] ["B-1"]] /\
  playerAdvances elements (PlaySplit.Make "S9" [] ["2-H"])
    [Subevent.Make "Hit - Single" [] ["B-1"]] = Ok {[ "2" := "H"; "B" := "1" ]} /\
  runsScored ({[ "2" := "H"; "B" := "1" ]} : gmap string string)
    <= size ({[ "2" := "H"; "B" := "1" ]} : gmap string string) /\
  size ({[ "2" := "H"; "B" := "1" ]} : gmap string string) <= 4.
Proof.
  assert (mapM _subeventParser ["S9"] = Ok [Subevent.Make "Hit - Single" [] ["B-1"]])
    as H1 by reflexivity.
  assert (playerAdvances elements (PlaySplit.Make "S9" [] ["2-H"])
            [Subevent.Make "Hit - Single" [] ["B-1"]] = Ok {[ "2" := "H"; "B" := "1" ]})
    as H2 by (vm_compute; reflexivity).
  split; [exact elements_lists_itself|]. split; [exact H1|]. split; [exact H2|].
  exact (runsScored_at_most_four elements elements_lists_itself
           (PlaySplit.Make "S9" [] ["2-H"]) ["S9"] _ _ H1 H2).
Defined.

Lemma enhancePlays_rows_witness :
  enhancePlays elements sample_plays = Ok sample_frame /\
  Frame.plays sample_frame = filter (fun r => Play.Type_ r = "play") sample_plays.
Proof.
  assert (enhancePlays elements sample_plays = Ok sample_frame) as H
    by (vm_compute; reflexivity).
  split; [exact H|].
  exact (proj1 (enhancePlays_rows elements sample_plays sample_frame H)).
Defined.

Lemma playSplitter_round_trip_witness :
  play_field "64(1)3" /\
  Forall play_field ["GDP"; "G6"] /\
  Forall (fun t => play_field t /\ all_in (cnot (chr ";")) t = true) ["2-3"; "3-H(UR)"] /\
  _playSplitter (compose_play "64(1)3" ["GDP"; "G6"] ["2-3"; "3-H(UR)"])
  = Ok (PlaySplit.Make "64(1)3" ["GDP"; "G6"] ["2-3"; "3-H(UR)"]).
Proof.
  assert (forall s, goes_negative 0 s = false -> depth s = 0%Z ->
                    top_sep_free slash_or_dot 0 s = true ->
                    s <> "" -> s <> String newline "" -> play_field s) as Hfield.
  { intros s Hn Hd Hf H1 H2. repeat split; auto.
    rewrite unbalanced_iff, Hn, Hd. intros [H|H]; [discriminate | now apply H]. }
  assert (play_field "64(1)3") as H1 by (apply Hfield; (reflexivity || discriminate)).
  assert (Forall play_field ["GDP"; "G6"]) as H2
    by (repeat constructor; apply Hfield; (reflexivity || discriminate)).
  assert (Forall (fun t => play_field t /\ all_in (cnot (chr ";")) t = true)
                 ["2-3"; "3-H(UR)"]) as H3
    by (repeat constructor; try apply Hfield; (reflexivity || discriminate)).
  repeat (split; [assumption|]).
  exact (playSplitter_round_trip "64(1)3" ["GDP"; "G6"] ["2-3"; "3-H(UR)"] H1 H2 H3).
Defined.

Lemma play_row_comments_witness :
  plays_rows ["id,X"; "play,1,0,p1,00,X,S9"; "com,first $"; "com,second";
              "play,1,0,p2,00,X,K"]
  = Some [Fields ["play"; "1"; "0"; "p1"; "00"; "X"; "S9"; "first second"];
          Fields ["play"; "1"; "0"; "p2"; "00"; "X"; "K"; ""]] /\
  play_lines ["id,X"; "play,1,0,p1,00,X,S9"; "com,first $"; "com,second";
              "play,1,0,p2,00,X,K"]
  = [] ++ "play,1,0,p1,00,X,S9" :: ["com,first $"; "com,second"] ++ ["play,1,0,p2,00,X,K"] /\
  is_match (Lit "play,") "play,1,0,p1,00,X,S9" = true /\
  Forall (fun c => is_match (Lit "play,") c = false) ["com,first $"; "com,second"] /\
  is_match (Lit "play,") "play,1,0,p2,00,X,K" = true /\
  [Fields ["play"; "1"; "0"; "p1"; "00"; "X"; "S9"; "first second"];
   Fields ["play"; "1"; "0"; "p2"; "00"; "X"; "K"; ""]] !! 0
  = Some (Fields (fold_left add_comment (map comment_text ["com,first $"; "com,second"])
                    (str_split "," "play,1,0,p1,00,X,S9" ++ [""]))).
Proof.
  assert (plays_rows ["id,X"; "play,1,0,p1,00,X,S9"; "com,first $"; "com,second";
                      "play,1,0,p2,00,X,K"]
          = Some [Fields ["play"; "1"; "0"; "p1"; "00"; "X"; "S9"; "first second"];
                  Fields ["play"; "1"; "0"; "p2"; "00"; "X"; "K"; ""]]) as H1
    by (vm_compute; reflexivity).
  assert (play_lines ["id,X"; "play,1,0,p1,00,X,S9"; "com,first $"; "com,second";
                      "play,1,0,p2,00,X,K"]
          = [] ++ "play,1,0,p1,00,X,S9" :: ["com,first $"; "com,second"]
               ++ ["play,1,0,p2,00,X,K"]) as H2 by (vm_compute; reflexivity).
  assert (is_match (Lit "play,") "play,1,0,p1,00,X,S9" = true) as H3 by reflexivity.
  assert (Forall (fun c => is_match (Lit "play,") c = false) ["com,first $"; "com,second"])
    as H4 by (repeat constructor).
  assert (is_match (Lit "play,") "play,1,0,p2,00,X,K" = true) as H5 by reflexivity.
  repeat (split; [assumption|]).
  exact (proj2 (play_row_comments _ [] "play,1,0,p1,00,X,S9" ["com,first $"; "com,second"]
                  ["play,1,0,p2,00,X,K"] _ H1 H2 H3 H4 H5)).
Defined.

Lemma subs_rows_by_line_witness :
  ["play,1,0,p1,00,X,S9"; "sub,a,b,0,1,2"] = ["play,1,0,p1,00,X,S9"] ++ "sub,a,b,0,1,2" :: [] /\
  startswith "sub,a,b,0,1,2" "sub," = true /\
  length (subs_rows ["play,1,0,p1,00,X,S9"; "sub,a,b,0,1,2"])
  = count_lines "sub," ["play,1,0,p1,00,X,S9"; "sub,a,b,0,1,2"] /\
  subs_rows ["play,1,0,p1,00,X,S9"; "sub,a,b,0,1,2"]
    !! count_lines "sub," ["play,1,0,p1,00,X,S9"]
  = Some (map Str (tail (str_split "," "sub,a,b,0,1,2"))
          ++ [Num (Z.of_nat (count_lines "play," ["play,1,0,p1,00,X,S9"]) - 1)]).
Proof.
  assert (["play,1,0,p1,00,X,S9"; "sub,a,b,0,1,2"]
          = ["play,1,0,p1,00,X,S9"] ++ "sub,a,b,0,1,2" :: []) as H1 by reflexivity.
  assert (startswith "sub,a,b,0,1,2" "sub," = true) as H2 by reflexivity.
  split; [exact H1|]. split; [exact H2|].
  exact (subs_rows_by_line _ ["play,1,0,p1,00,X,S9"] "sub,a,b,0,1,2" [] H1 H2).
Defined.

Lemma row_stages_return_witness :
  ~ unbalanced "64(1)3/GDP.2-3" /\
  exists ps se sp,
    _playSplitter "64(1)3/GDP.2-3" = Ok ps /\
    _subevent_splitter (PlaySplit.event ps) = Ok se /\
    mapM _subeventParser se = Ok sp /\
    se <> [] /\ length sp = length se /\
    basicPlayDesc sp <> Raise ValueError.
Proof.
  assert (~ unbalanced "64(1)3/GDP.2-3") as H.
  { rewrite unbalanced_iff. intros [H|H]; [discriminate | now apply H]. }
  split; [exact H|]. exact (row_stages_return "64(1)3/GDP.2-3" H).
Defined.

Lemma enhancePlays_needs_witness :
  enhancePlays elements sample_plays = Ok sample_frame /\
  Play.Make "play" "S9.2-H" ∈ sample_plays /\
  Play.Type_ (Play.Make "play" "S9.2-H") = "play" /\
  ~ unbalanced (Play.Play (Play.Make "play" "S9.2-H")).
Proof.
  assert (enhancePlays elements sample_plays = Ok sample_frame) as H1
    by (vm_compute; reflexivity).
  assert (Play.Make "play" "S9.2-H" ∈ sample_plays) as H2
    by (unfold sample_plays; repeat (apply list_elem_of_here || apply list_elem_of_further)).
  assert (Play.Type_ (Play.Make "play" "S9.2-H") = "play") as H3 by reflexivity.
  repeat (split; [assumption|]).
  exact (proj1 (enhancePlays_needs elements sample_plays sample_frame _ H1 H2 H3)).
Defined.

Lemma playersOut_exact_witness :
  (forall X : gset string, elements X ≡ₚ elements X) /\
  exists outs,
    playersOut elements (PlaySplit.Make "64(1)3" ["GDP"] ["2-3"; "1X2"])
      [Subevent.Make "Out" ["1"] []; Subevent.Make "Out" ["B"] []] = Ok outs /\
    NoDup outs /\
    forall b, b ∈ outs <->
      (b ∈ flat_map Subevent.playersOut
             [Subevent.Make "Out" ["1"] []; Subevent.Make "Out" ["B"] []] \/
       exists t, t ∈ ["2-3"; "1X2"] /\ out_attempt_without_error t b) /\
      ~ exists t, t ∈ ["2-3"; "1X2"] /\ exempts t b.
Proof.
  split; [exact elements_lists_itself|].
  exact (playersOut_exact elements elements_lists_itself
           (PlaySplit.Make "64(1)3" ["GDP"] ["2-3"; "1X2"])
           [Subevent.Make "Out" ["1"] []; Subevent.Make "Out" ["B"] []]).
Defined.
